(** * go-msvc/log: the logger tree, its registry and the column encoder

    A shallow embedding of [logger.go] and [record.go] (package [log]):
    the tree of [*logger] values lives in a heap addressed by allocation
    index, methods are state-passing functions returning a [result], and
    Go strings are byte strings ([string] of [ascii]).

    The interfaces [ITextValue], [IColumn] and [IEncoder] are open: a
    value is nil, one of the implementations of the package, or an
    implementation from outside.  An implementation from outside is
    taken to read the logger it is handed, through [Name] and [Get], and
    not to change it.

    The debugging lines that [Logger], [Top] and [ForThisPackage] print
    with [fmt.Fprintf(os.Stderr, ...)] are not part of the logger state
    and are left out; the [sync.Mutex] is not modelled (one thread). *)

From Stdlib Require Import ZArith NArith Ascii String Bool Lia DecimalString.
From stdpp Require Import gmap strings list fin_maps.

Local Open Scope string_scope.
Local Open Scope Z_scope.

(* ===================================================================== *)
(** ** Go strings: bytes, slices and runes *)
(* ===================================================================== *)

Module GoString.

(** [len(s)] is the number of bytes. *)
Definition len (s : string) : Z := Z.of_nat (String.length s).

(** [s[n:]] for [0 <= n <= len(s)]. *)
Fixpoint drop (n : nat) (s : string) : string :=
  match n, s with
  | O, _ => s
  | S n', String _ t => drop n' t
  | S _, EmptyString => EmptyString
  end.

Fixpoint spaces (n : nat) : string :=
  match n with
  | O => EmptyString
  | S n' => String " " (spaces n')
  end.

Definition byte (c : ascii) : N := N_of_ascii c.

(** The table [first] of package [unicode/utf8]: for a leading byte of a
    multi-byte sequence, the sequence's size and the range accepted for
    its second byte; [None] for ASCII and for bytes that start nothing. *)
Definition utf8_first (b : N) : option (nat * N * N) :=
  (if b <? 0xC2 then None
   else if b <? 0xE0 then Some (2%nat, 0x80, 0xBF)
   else if b =? 0xE0 then Some (3%nat, 0xA0, 0xBF)
   else if b =? 0xED then Some (3%nat, 0x80, 0x9F)
   else if b <? 0xF0 then Some (3%nat, 0x80, 0xBF)
   else if b =? 0xF0 then Some (4%nat, 0x90, 0xBF)
   else if b <? 0xF4 then Some (4%nat, 0x80, 0xBF)
   else if b =? 0xF4 then Some (4%nat, 0x80, 0x8F)
   else None)%N.

(** A continuation byte, [locb <= b <= hicb]. *)
Definition cont (b : N) : bool := ((0x80 <=? b) && (b <=? 0xBF))%N.

(** The size of the rune that [utf8.DecodeRuneInString] reads at the
    head of a non-empty string: an invalid or cut sequence is one byte. *)
Definition rune_size (c : ascii) (t : string) : nat :=
  match utf8_first (byte c) with
  | None => 1
  | Some (sz, lo, hi) =>
      match t with
      | String c1 t1 =>
          if ((lo <=? byte c1) && (byte c1 <=? hi))%N then
            match sz with
            | 2%nat => 2
            | _ =>
                match t1 with
                | String c2 t2 =>
                    if cont (byte c2) then
                      match sz with
                      | 3%nat => 3
                      | _ =>
                          match t2 with
                          | String c3 _ => if cont (byte c3) then 4 else 1
                          | EmptyString => 1
                          end
                      end
                    else 1
                | EmptyString => 1
                end
            end
          else 1
      | EmptyString => 1
      end
  end%nat.

(** [count_from k s]: the runes of [s] once its first [k] bytes, the
    rest of a rune already counted, are passed over. *)
Fixpoint count_from (k : nat) (s : string) : nat :=
  match s with
  | EmptyString => O
  | String c t =>
      match k with
      | S k' => count_from k' t
      | O => S (count_from (rune_size c t - 1) t)
      end
  end.

(** [utf8.RuneCountInString]. *)
Definition RuneCount (s : string) : nat := count_from 0 s.

(** [take_from k n s]: the bytes of [s] up to the start of its rune
    number [n], the first [k] bytes belonging to a rune already taken. *)
Fixpoint take_from (k n : nat) (s : string) : string :=
  match s with
  | EmptyString => EmptyString
  | String c t =>
      match k with
      | S k' => String c (take_from k' n t)
      | O =>
          match n with
          | O => EmptyString
          | S n' => String c (take_from (rune_size c t - 1) n' t)
          end
      end
  end.

(** [fmt.truncateString] with precision [prec]: at most [prec] runes. *)
Definition truncateString (prec : nat) (s : string) : string :=
  take_from 0 prec s.

(** [fmt.padString] with the minus flag: spaces on the right up to
    [wid] runes. *)
Definition padString (wid : nat) (s : string) : string :=
  s +:+ spaces (wid - RuneCount s).

(** [fmt.tooLarge]: a width or precision taken from an argument is
    refused above a million in magnitude. *)
Definition tooLarge (x : Z) : bool := (x >? 1000000) || (x <? -1000000).

Definition badWidthString : string := "%!(BADWIDTH)".
Definition badPrecString : string := "%!(BADPREC)".

(** [fmt.Sprintf("%-*.*s", w, p, s)]: precision and width are counted
    in runes.  A refused width is reported and there is no padding; a
    negative width stands for its magnitude; a refused or negative
    precision is reported and nothing is cut. *)
Definition Sprintf_left (w p : Z) (s : string) : string :=
  let widPresent := negb (tooLarge w) in
  let wid := if widPresent then Z.abs w else 0 in
  let precPresent := negb (tooLarge p) && (0 <=? p) in
  (if widPresent then EmptyString else badWidthString) +:+
  (if precPresent then EmptyString else badPrecString) +:+
  padString (Z.to_nat wid)
    (if precPresent then truncateString (Z.to_nat p) s else s).

(** The string of the given bytes. *)
Definition bytes (bs : list N) : string :=
  fold_right (fun b s => String (ascii_of_N b) s) EmptyString bs.

(** [strings.SplitN(s, sep, -1)] for a one-byte separator. *)
Fixpoint Split (sep : ascii) (s : string) : list string :=
  match s with
  | EmptyString => [EmptyString]
  | String c t =>
      if Ascii.eqb c sep then EmptyString :: Split sep t
      else match Split sep t with
           | x :: r => String c x :: r
           | [] => [String c EmptyString]
           end
  end.

End GoString.

(* ===================================================================== *)
(** ** Names *)
(* ===================================================================== *)

Definition is_lower (c : ascii) : bool :=
  (("a" <=? c) && (c <=? "z"))%char.
Definition is_alnum (c : ascii) : bool :=
  (is_lower c || (("A" <=? c) && (c <=? "Z")) || (("0" <=? c) && (c <=? "9")))%char.
(** The class [[a-zA-Z0-9\._-]]. *)
Definition is_body (c : ascii) : bool :=
  is_alnum c || Ascii.eqb c "." || Ascii.eqb c "_" || Ascii.eqb c "-".

(** [[a-zA-Z0-9\._-]*[a-zA-Z0-9]] matched against the whole of [s]. *)
Fixpoint match_tail (s : string) : bool :=
  match s with
  | EmptyString => false
  | String c EmptyString => is_alnum c
  | String c t => is_body c && match_tail t
  end.

(** [ValidName]: [^[a-z]([a-zA-Z0-9\._-]*[a-zA-Z0-9])?$]. *)
Definition ValidName (n : string) : bool :=
  match n with
  | EmptyString => false
  | String c EmptyString => is_lower c
  | String c t => is_lower c && match_tail t
  end.

(** [textField]. *)
Definition textField (w : Z) (s : string) : string :=
  if w <=? 0 then s
  else
    let l := GoString.len s in
    let s := if l >? w then GoString.drop (Z.to_nat (l - w)) s else s in
    GoString.Sprintf_left w w s.

(* ===================================================================== *)
(** ** Results of calls *)
(* ===================================================================== *)

(** A call returns normally, panics with a message, or is [Stuck]: the
    model followed a reference outside the heap or used up its recursion
    budget.  [Stuck] has no counterpart in a running program; on the
    heaps that satisfy [wf] it does not occur (see the theorems). *)
Inductive result (A : Type) : Type :=
  | Ok (a : A)
  | Panic (msg : string)
  | Stuck.
Arguments Ok {A} a.
Arguments Panic {A} msg.
Arguments Stuck {A}.

#[global] Instance result_bind : MBind result := fun A B k r =>
  match r with
  | Ok a => k a
  | Panic m => Panic m
  | Stuck => Stuck
  end.
#[global] Instance result_ret : MRet result := fun A a => Ok a.

(* ===================================================================== *)
(** ** Data model *)
(* ===================================================================== *)

(** A reference to a [*logger]: its index in the heap, in order of
    allocation. *)
Abbreviation loc := nat (only parsing).

(** [Level] is an integer type; its constants are declared in a file
    that is not part of the sources and are taken from [Host] below. *)
Abbreviation Level := Z (only parsing).

(** An [io.Writer] handed to the package, known by an identifier. *)
Abbreviation Writer := nat (only parsing).

(** A value of type [interface{}] stored under a key. *)
Inductive any : Type :=
  | Nil
  | Str (s : string)
  | Int (z : Z)
  | Bool (b : bool).

Definition is_nil (v : any) : bool :=
  match v with Nil => true | _ => false end.

(** [time.Time], as an instant. *)
Abbreviation Time := Z (only parsing).

(** [Caller] (record.go). *)
Record Caller := {
  Package : string;
  Function : string;
  File : string;
  Line : Z
}.

(** [runtime.Frame], the fields that [GetCaller] reads. *)
Record Frame := {
  frame_Function : string;
  frame_File : string;
  frame_Line : Z
}.

(** The Go type [Record] (record.go). *)
Record LogRecord := {
  r_Time : Time;
  r_Caller : Caller;
  r_Level : Level;
  r_Message : string
}.

(** What a method implemented outside the package does when it is
    called: it returns a string or it panics. *)
Inductive outcome : Type :=
  | Returns (s : string)
  | Panics (msg : string).

(** A [Text] or [Encode] method implemented outside the package, as a
    function of what it can read: the [Name] of the logger it is handed,
    its [Get], and the record. *)
Definition foreign : Type :=
  string -> (string -> any * bool) -> LogRecord -> outcome.

(** A value of the interface [ITextValue]: nil, one of the seven
    implementations in logger.go, or an implementation from outside. *)
Inductive ITextValue : Type :=
  | nilText
  | timeText (fmt : string)
  | levelText (width : Z)
  | nameText (width : Z)
  | moduleText (width : Z)
  | codeText (width : Z)
  | messageText (width : Z)
  | dataText (fmt : string) (name : string) (width : Z)
  | otherText (text : foreign).

(** A value of the interface [IColumn]: nil, a [column] of logger.go
    with its two fields, or an implementation from outside. *)
Inductive IColumn : Type :=
  | nilColumn
  | column (name : string) (text : ITextValue)
  | otherColumn (name : string) (text : foreign).

(** The struct [columnEncoder]. *)
Record columnEncoder := {
  columns : list IColumn
}.

(** [IColumnEncoder], as the package returns it. *)
Abbreviation IColumnEncoder := columnEncoder (only parsing).

(** A value of the interface [IEncoder] (record.go) other than nil: a
    [columnEncoder] or an implementation from outside.  A nil [IEncoder]
    is [None] where the code holds one. *)
Inductive IEncoder : Type :=
  | of_columnEncoder (ce : columnEncoder)
  | otherEncoder (encode : foreign).
Coercion of_columnEncoder : columnEncoder >-> IEncoder.

(** [logger]; the mutex is left out. *)
Record logger := {
  parent : option loc;
  name : string;
  level : Level;
  data : gmap string any;
  subs : gmap string loc;
  writer : option Writer;
  encoder : option IEncoder
}.

(** Every [logger] owns its two maps: they are made by the map literals
    of the constructors and no method hands them out, so a map is held
    in the record of its only owner. *)
Abbreviation heap := (list logger) (only parsing).

Definition set_level (lv : Level) (x : logger) : logger :=
  {| parent := parent x; name := name x; level := lv; data := data x;
     subs := subs x; writer := writer x; encoder := encoder x |}.
Definition set_data (d : gmap string any) (x : logger) : logger :=
  {| parent := parent x; name := name x; level := level x; data := d;
     subs := subs x; writer := writer x; encoder := encoder x |}.
Definition set_subs (m : gmap string loc) (x : logger) : logger :=
  {| parent := parent x; name := name x; level := level x; data := data x;
     subs := m; writer := writer x; encoder := encoder x |}.
Definition set_writer (w : Writer) (x : logger) : logger :=
  {| parent := parent x; name := name x; level := level x; data := data x;
     subs := subs x; writer := Some w; encoder := encoder x |}.
Definition set_encoder (e : IEncoder) (x : logger) : logger :=
  {| parent := parent x; name := name x; level := level x; data := data x;
     subs := subs x; writer := writer x; encoder := Some e |}.

(** The loggers that [for _, ll := range l.subs] visits.  Go leaves the
    order open; the model takes the order of the map's keys, and the
    order makes no difference ([each_propagate_order]). *)
Definition children (x : logger) : list loc := (map_to_list (subs x)).*2.

(** What the package takes from its host: the [Level] constants, and
    the library functions whose results only pass through the code. *)
Class Host := {
  _minLevel : Level;
  _maxLevel : Level;
  DebugLevel : Level;
  (** [fmt.Sprintf("%s", level)] *)
  Level_String : Level -> string;
  (** [t.Format(layout)] *)
  Time_Format : Time -> string -> string;
  (** [fmt.Sprintf(format, v)] for a value of the data map *)
  fmt_Sprintf : string -> any -> string;
  (** [strings.Map(mapping, s)], runes as integers *)
  strings_Map : (Z -> Z) -> string -> string;
  unicode_IsGraphic : Z -> bool;
  path_Dir : string -> string;
  path_Base : string -> string
}.

(** The byte [0x22]. *)
Definition dquote : string := String (ascii_of_nat 34) EmptyString.

(** [fmt.Sprintf("%5d", z)]. *)
Definition Sprintf_5d (z : Z) : string :=
  let d := NilZero.string_of_int (Z.to_int z) in
  GoString.spaces (5 - String.length d) +:+ d.

(** [strings.SplitN(s, ".", 2)]. *)
Fixpoint SplitN2 (s : string) : list string :=
  match s with
  | EmptyString => [EmptyString]
  | String c t =>
      if Ascii.eqb c "." then [EmptyString; t]
      else match SplitN2 t with
           | x :: r => String c x :: r
           | [] => [String c EmptyString]
           end
  end.

(** [for each c in cs: f c], stopping at the first call that fails. *)
Fixpoint each (f : loc -> heap -> result heap) (cs : list loc) (h : heap)
  : result heap :=
  match cs with
  | [] => Ok h
  | c :: cs' => h' ← f c h; each f cs' h'
  end.

(* ===================================================================== *)
(** ** The package *)
(* ===================================================================== *)

Definition newline : string := String (ascii_of_nat 10) EmptyString.

(** [os.Stderr]. *)
Definition os_Stderr : Writer := 0%nat.

Section Package.
Context {host : Host}.

(** *** record.go: the caller of a log call *)

Definition unknownCaller : Caller :=
  {| Package := "N/A"; Function := "N/A"; File := "N/A"; Line := -1 |}.

Definition zeroFrame : Frame :=
  {| frame_Function := EmptyString; frame_File := EmptyString; frame_Line := 0 |}.

(** [pc := make([]uintptr, 10); n := runtime.Callers(0, pc)] on a
    goroutine whose frames are [stack], [runtime.Callers] first: the
    entries that were not filled stay zero ([None]). *)
Definition Callers (stack : list Frame) : Z * list (option Frame) :=
  let fs := take 10 stack in
  (Z.of_nat (length fs),
   ((Some <$> fs) ++ replicate (10 - length fs) None)%list).

(** [GetCaller]. *)
Definition GetCaller (stack : list Frame) (skip : Z) : result Caller :=
  let '(n, pc) := Callers stack in
  if n >=? skip then
    (* pc = pc[skip : skip+1] *)
    if (skip <? 0) || (10 <? skip + 1) then
      Panic "slice bounds out of range"
    else
      let frame :=
        match pc !! Z.to_nat skip with
        | Some (Some f) => f
        | _ => zeroFrame
        end in
      let d := path_Dir (frame_Function frame) in
      let d := if String.eqb d "." then EmptyString else d in
      let b := path_Base (frame_Function frame) in
      match SplitN2 b with
      | [p0; p1] =>
          Ok {| Package := d +:+ "/" +:+ p0; Function := p1;
                File := frame_File frame; Line := frame_Line frame |}
      | _ =>
          Ok {| Package := "?"; Function := frame_Function frame;
                File := frame_File frame; Line := frame_Line frame |}
      end
  else Ok unknownCaller.

(** *** logger.go: the tree *)

(** [logger.Logger]. *)
Definition logger_Logger (n : string) (l : loc) (h : heap)
  : result (loc * heap) :=
  if negb (ValidName n) then
    Panic ("invalid logger name " +:+ dquote +:+ n +:+ dquote)
  else
    match h !! l with
    | None => Stuck
    | Some x =>
        match subs x !! n with
        | Some exists_ => Ok (exists_, h)
        | None =>
            let sub :=
              {| parent := Some l; name := n; level := level x;
                 data := ∅; subs := ∅;
                 writer := writer x; encoder := encoder x |} in
            let new := length h in
            Ok (new, (<[l := set_subs (<[n := new]> (subs x)) x]> h ++ [sub])%list)
        end
    end.

(** [logger.Name]. *)
Fixpoint Name_rec (fuel : nat) (l : loc) (h : heap) : result string :=
  match fuel with
  | O => Stuck
  | S fuel' =>
      match h !! l with
      | None => Stuck
      | Some x =>
          match parent x with
          | None => Ok (name x)
          | Some p => pn ← Name_rec fuel' p h; Ok (pn +:+ "/" +:+ name x)
          end
      end
  end.
Definition logger_Name (l : loc) (h : heap) : result string :=
  Name_rec (length h) l h.

(** [logger.Set]. *)
Definition logger_Set (n : string) (v : any) (l : loc) (h : heap)
  : result heap :=
  if negb (ValidName n) then
    Panic ("logger.Set(" +:+ n +:+ ") is invalid name")
  else
    match h !! l with
    | None => Stuck
    | Some x => Ok (<[l := set_data (<[n := v]> (data x)) x]> h)
    end.

(** [logger.Get]. *)
Fixpoint Get_rec (fuel : nat) (n : string) (l : loc) (h : heap)
  : result (any * bool) :=
  match fuel with
  | O => Stuck
  | S fuel' =>
      match h !! l with
      | None => Stuck
      | Some x =>
          match data x !! n with
          | Some v => Ok (v, true)
          | None =>
              match parent x with
              | Some p => Get_rec fuel' n p h
              | None => Ok (Nil, false)
              end
          end
      end
  end.
Definition logger_Get (n : string) (l : loc) (h : heap)
  : result (any * bool) :=
  Get_rec (length h) n l h.

(** [logger.SetLevel]; [ll.WithLevel(level)] is [ll.SetLevel(level)]
    followed by [return ll]. *)
Fixpoint SetLevel_rec (fuel : nat) (lv : Level) (l : loc) (h : heap)
  : result heap :=
  match fuel with
  | O => Stuck
  | S fuel' =>
      if (lv >=? _minLevel) && (lv <=? _maxLevel) then
        match h !! l with
        | None => Stuck
        | Some x =>
            each (SetLevel_rec fuel' lv) (children x)
                 (<[l := set_level lv x]> h)
        end
      else Ok h
  end.
Definition logger_SetLevel (lv : Level) (l : loc) (h : heap) : result heap :=
  SetLevel_rec (S (length h)) lv l h.
Definition logger_WithLevel (lv : Level) (l : loc) (h : heap)
  : result (loc * heap) :=
  h' ← logger_SetLevel lv l h; Ok (l, h').

(** [logger.With]; the logger it returns is the receiver. *)
Fixpoint With_rec (fuel : nat) (n : string) (v : any) (l : loc) (h : heap)
  : result heap :=
  match fuel with
  | O => Stuck
  | S fuel' =>
      if ValidName n then
        match h !! l with
        | None => Stuck
        | Some x =>
            let d := if is_nil v then delete n (data x)
                     else <[n := v]> (data x) in
            each (With_rec fuel' n Nil) (children x)
                 (<[l := set_data d x]> h)
        end
      else Ok h
  end.
Definition logger_With (n : string) (v : any) (l : loc) (h : heap)
  : result (loc * heap) :=
  h' ← With_rec (S (length h)) n v l h; Ok (l, h').

(** [logger.SetEncoder] and [logger.SetWriter], with a non-nil argument
    ([nil] is a no-op). *)
Fixpoint SetEncoder_rec (fuel : nat) (e : IEncoder) (l : loc) (h : heap)
  : result heap :=
  match fuel with
  | O => Stuck
  | S fuel' =>
      match h !! l with
      | None => Stuck
      | Some x =>
          each (SetEncoder_rec fuel' e) (children x)
               (<[l := set_encoder e x]> h)
      end
  end.
Definition logger_SetEncoder (e : option IEncoder) (l : loc) (h : heap)
  : result heap :=
  match e with
  | Some e' => SetEncoder_rec (S (length h)) e' l h
  | None => Ok h
  end.

Fixpoint SetWriter_rec (fuel : nat) (w : Writer) (l : loc) (h : heap)
  : result heap :=
  match fuel with
  | O => Stuck
  | S fuel' =>
      match h !! l with
      | None => Stuck
      | Some x =>
          each (SetWriter_rec fuel' w) (children x)
               (<[l := set_writer w x]> h)
      end
  end.
Definition logger_SetWriter (w : option Writer) (l : loc) (h : heap)
  : result heap :=
  match w with
  | Some w' => SetWriter_rec (S (length h)) w' l h
  | None => Ok h
  end.

(** *** logger.go: the column encoder *)

Definition NewColumnEncoder : IColumnEncoder := {| columns := [] |}.
(** [columnEncoder.With], as a value: the columns of the receiver
    followed by [cols].  In Go [append] may write [cols] into spare
    capacity of the receiver's slice, which an encoder made earlier
    from the same receiver would share; the encoders of this
    development extend each receiver once, as [DefaultEncoder] does. *)
Definition ce_With (ce : columnEncoder) (cols : list IColumn)
  : IColumnEncoder :=
  {| columns := (columns ce ++ cols)%list |}.
Definition Column (name : string) (text : ITextValue) : IColumn :=
  column name text.
Definition TimeText (fmt : string) : ITextValue := timeText fmt.
Definition LevelText (width : Z) : ITextValue := levelText width.
Definition NameText (width : Z) : ITextValue := nameText width.
Definition ModuleText (width : Z) : ITextValue := moduleText width.
Definition CodeText (width : Z) : ITextValue := codeText width.
Definition MessageText (width : Z) : ITextValue := messageText width.
Definition DataText (fmt name : string) (width : Z) : ITextValue :=
  dataText (if String.eqb fmt EmptyString then "%v" else fmt) name width.

Definition DefaultEncoder : IColumnEncoder :=
  ce_With (ce_With (ce_With (ce_With (ce_With (ce_With NewColumnEncoder
    [Column "time" (TimeText "2006-01-02 15:04:05.000")])
    [Column "level" (LevelText 5)])
    [Column "logger" (NameText 10)])
    [Column "module" (ModuleText 15)])
    [Column "code" (CodeText 30)])
    [Column "message" (MessageText 0)].

(** A method call on a nil interface value. *)
Definition nil_dereference : string :=
  "runtime error: invalid memory address or nil pointer dereference".

(** A call of a method implemented outside the package, with logger
    [l] and record [r]. *)
Definition call (f : foreign) (l : loc) (h : heap) (r : LogRecord)
  : result string :=
  n ← logger_Name l h;
  match f n (fun k => match logger_Get k l h with
                      | Ok found => found
                      | _ => (Nil, false)
                      end) r with
  | Returns s => Ok s
  | Panics msg => Panic msg
  end.

(** [c.Text(l, r)] for a text value [c]: the [Text] methods of the
    text values of logger.go. *)
Definition Text (c : ITextValue) (l : loc) (h : heap) (r : LogRecord)
  : result string :=
  match c with
  | nilText => Panic nil_dereference
  | otherText f => call f l h r
  | timeText fmt =>
      if String.eqb fmt EmptyString then
        Ok (Time_Format (r_Time r) "2006-01-02 15:04:05.000")
      else Ok (Time_Format (r_Time r) fmt)
  | levelText w => Ok (textField w (Level_String (r_Level r)))
  | nameText w => n ← logger_Name l h; Ok (textField w n)
  | moduleText w =>
      Ok (textField w (Package (r_Caller r) +:+ "." +:+
                       Function (r_Caller r) +:+ "()"))
  | codeText w =>
      Ok (textField w (File (r_Caller r) +:+ "(" +:+
                       Sprintf_5d (Line (r_Caller r)) +:+ ")"))
  | messageText w => Ok (textField w (r_Message r))
  | dataText fmt name w =>
      '(v, ok) ← logger_Get name l h;
      Ok (textField w (if ok : bool then fmt_Sprintf fmt v else EmptyString))
  end.

(** [col.Text(l, r)] for a column [col]; [column.Text] is
    [c.text.Text(l, r)]. *)
Definition column_Text (col : IColumn) (l : loc) (h : heap) (r : LogRecord)
  : result string :=
  match col with
  | nilColumn => Panic nil_dereference
  | column _ text => Text text l h r
  | otherColumn _ f => call f l h r
  end.

(** The loop of [columnEncoder.Encode]: [text += "|" + col.Text(l, r)]. *)
Fixpoint Encode_loop (cols : list IColumn) (l : loc) (h : heap)
  (r : LogRecord) (text : string) : result string :=
  match cols with
  | [] => Ok text
  | col :: cols' =>
      t ← column_Text col l h r;
      Encode_loop cols' l h r (text +:+ "|" +:+ t)
  end.

(** [columnEncoder.Encode]. *)
Definition Encode (ce : columnEncoder) (l : loc) (h : heap) (r : LogRecord)
  : result string :=
  text ← Encode_loop (columns ce) l h r EmptyString;
  match text +:+ newline with
  | String _ rest => Ok rest (* text[1:] *)
  | EmptyString => Panic "slice bounds out of range"
  end.

(** [e.Encode(l, r)] for an encoder [e]. *)
Definition IEncoder_Encode (e : IEncoder) (l : loc) (h : heap)
  (r : LogRecord) : result string :=
  match e with
  | of_columnEncoder ce => Encode ce l h r
  | otherEncoder f => call f l h r
  end.

(** *** logger.go: writing a record *)

(** [logger.log].  The result lists the calls of [Write] it makes, each
    with its writer and its bytes; the value [Write] returns is dropped
    by the code.  [stack] is the goroutine's stack as [GetCaller] will
    see it and [now] is the result of [time.Now()]. *)
Definition logger_log (stack : list Frame) (now : Time) (skip : Z)
  (lv : Level) (msg : string) (l : loc) (h : heap)
  : result (list (Writer * string)) :=
  match h !! l with
  | None => Stuck
  | Some x =>
      match encoder x, writer x with
      | Some e, Some w =>
          if lv >=? level x then
            let cleanMessage :=
              strings_Map (fun r => if unicode_IsGraphic r then r else -1)
                          msg in
            caller ← GetCaller stack (skip + 4);
            let record :=
              {| r_Time := now; r_Caller := caller; r_Level := lv;
                 r_Message := cleanMessage |} in
            encodedRecord ← IEncoder_Encode e l h record;
            Ok [(w, encodedRecord)]
          else Ok []
      | _, _ => Ok []
      end
  end.

(** [logger.logf], on the message that [fmt.Sprintf(format, args...)]
    returns: one frame more to skip. *)
Definition logger_logf (stack : list Frame) (now : Time) (lv : Level)
  (msg : string) (l : loc) (h : heap) : result (list (Writer * string)) :=
  logger_log stack now 1 lv msg l h.

(** [logger.Log]. *)
Definition logger_Log (stack : list Frame) (now : Time) (lv : Level)
  (msg : string) (l : loc) (h : heap) : result (list (Writer * string)) :=
  logger_log stack now 0 lv msg l h.

(** *** log.go: the registry *)

(** [top], the first logger that [init] allocates. *)
Definition top : loc := 0%nat.

Definition init_top : heap :=
  [ {| parent := None; name := EmptyString; level := DebugLevel;
       data := ∅; subs := ∅;
       writer := Some os_Stderr;
       encoder := Some (of_columnEncoder DefaultEncoder) |} ].

(** The loop of [Logger]: empty segments are passed over. *)
Fixpoint Logger_loop (names : list string) (log : loc) (h : heap)
  : result (loc * heap) :=
  match names with
  | [] => Ok (log, h)
  | n :: names' =>
      if GoString.len n >? 0 then
        '(log', h') ← logger_Logger n log h;
        Logger_loop names' log' h'
      else Logger_loop names' log h
  end.

(** [Logger]. *)
Definition Logger (name : string) (h : heap) : result (loc * heap) :=
  '(log, h') ← Logger_loop (GoString.Split "/" name) top h;
  if Nat.eqb log top then Panic "missing logger name"
  else Ok (log, h').

(** [ForThisPackage]. *)
Definition ForThisPackage (stack : list Frame) (h : heap)
  : result (loc * heap) :=
  c ← GetCaller stack 3; Logger (Package c) h.

(** [init]: [top] is allocated, then [log = ForThisPackage()]. *)
Definition init (stack : list Frame) : result (loc * heap) :=
  ForThisPackage stack init_top.

End Package.

(* ===================================================================== *)
(** ** The shape of the tree *)
(* ===================================================================== *)

(** Generic fan-out: change the receiver with [f], then every logger of
    [subs] in the same way.  [SetLevel], [With(n, nil)], [SetEncoder] and
    [SetWriter] are instances (see [SetLevel_rec_propagate] and the
    like). *)
Fixpoint propagate (f : logger -> logger) (fuel : nat) (l : loc) (h : heap)
  : result heap :=
  match fuel with
  | O => Stuck
  | S fuel' =>
      match h !! l with
      | None => Stuck
      | Some x => each (propagate f fuel') (children x) (<[l := f x]> h)
      end
  end.

(** [With(n, nil)] on one logger. *)
Definition del (n : string) (x : logger) : logger :=
  set_data (delete n (data x)) x.

(** The links of a logger. *)
Definition shape (x : logger) : option loc * string * gmap string loc :=
  (parent x, name x, subs x).

Definition same_shape (h g : heap) : Prop := shape <$> h = shape <$> g.

(** The heaps that the package builds: a logger is registered in the
    [subs] of its parent under its own name, the loggers of [subs] point
    back with [parent], and a parent is allocated before its children. *)
Record wf (h : heap) : Prop := {
  wf_parent : ∀ l x p, h !! l = Some x → parent x = Some p →
    (p < l)%nat ∧ ∃ px, h !! p = Some px ∧ subs px !! name x = Some l;
  wf_subs : ∀ l x n c, h !! l = Some x → subs x !! n = Some c →
    ∃ cx, h !! c = Some cx ∧ parent cx = Some l ∧ name cx = n
}.

(** [descendant h a d]: [d] is [a] or is reached from [a] through [subs]. *)
Inductive descendant (h : heap) : loc → loc → Prop :=
  | desc_self a : descendant h a a
  | desc_sub a x n c d :
      h !! a = Some x → subs x !! n = Some c →
      descendant h c d → descendant h a d.

(** [under h a d]: [d] is [a] or reaches [a] through [parent]. *)
Inductive under (h : heap) (a : loc) : loc → Prop :=
  | under_self : under h a a
  | under_step d x p :
      h !! d = Some x → parent x = Some p → under h a p → under h a d.

(** [h'] is [h] with [f] applied to the loggers that satisfy [P]. *)
Definition updated (f : logger -> logger) (h : heap) (P : loc → Prop)
  (h' : heap) : Prop :=
  same_shape h h' ∧
  (∀ i, P i → h' !! i = f <$> h !! i) ∧
  (∀ i, ¬ P i → h' !! i = h !! i).

(** Walking [subs] along a list of segments, creating nothing. *)
Fixpoint resolve (h : heap) (l : loc) (segs : list string) : option loc :=
  match segs with
  | [] => Some l
  | s :: segs' =>
      match h !! l with
      | None => None
      | Some x =>
          match subs x !! s with
          | None => None
          | Some c => resolve h c segs'
          end
      end
  end.

(** Every link of [h] is a link of [h']. *)
Definition links (h h' : heap) : Prop :=
  ∀ l x n c, h !! l = Some x → subs x !! n = Some c →
    ∃ x', h' !! l = Some x' ∧ subs x' !! n = Some c.

Definition nonempty (s : string) : bool := negb (String.eqb s EmptyString).

(** The segments of a path name that [Logger] looks up. *)
Definition segments (name : string) : list string :=
  filter (λ s, nonempty s = true) (GoString.Split "/" name).

(** A path name whose segments all match the pattern and which has at
    least one segment. *)
Definition valid_path (name : string) : Prop :=
  segments name ≠ [] ∧ Forall (λ s, ValidName s = true) (segments name).

(** The bytes of [s] are all below [0x80]: one byte for each character. *)
Fixpoint ascii_only (s : string) : bool :=
  match s with
  | EmptyString => true
  | String c t => (GoString.byte c <? 0x80)%N && ascii_only t
  end.

(** The number of newline bytes in [s]. *)
Fixpoint newlines (s : string) : nat :=
  match s with
  | EmptyString => O
  | String c t => ((if Ascii.eqb c (ascii_of_nat 10) then 1 else 0) + newlines t)%nat
  end.

Definition ends_in_newline (s : string) : Prop :=
  ∃ body, s = body +:+ newline.

(** One line, ending in a single newline. *)
Definition one_line (s : string) : Prop :=
  ends_in_newline s ∧ newlines s = 1%nat.

(** The texts of the columns, each after a separator. *)
Fixpoint join_bar (ts : list string) : string :=
  match ts with
  | [] => EmptyString
  | t :: ts' => "|" +:+ t +:+ join_bar ts'
  end.

(** With budget [fuel], [propagate f] returns from every logger whose
    distance to the end of the heap the budget covers, and has applied
    [f] to the loggers below the receiver and to no other. *)
Definition propagate_ok (f : logger -> logger) (fuel : nat) : Prop :=
  ∀ c g, wf g → (c < length g)%nat → (length g - c <= fuel)%nat →
    ∃ g', propagate f fuel c g = Ok g' ∧ updated f g (under g c) g'.

(** The heaps that calls of the package lead to from the heap that
    [init] starts with. *)
Inductive reachable {host : Host} : heap → Prop :=
  | reach_init : reachable init_top
  | reach_Logger name h l h' :
      reachable h → Logger name h = Ok (l, h') → reachable h'
  | reach_logger_Logger n l h c h' :
      reachable h → logger_Logger n l h = Ok (c, h') → reachable h'
  | reach_Set n v l h h' :
      reachable h → logger_Set n v l h = Ok h' → reachable h'
  | reach_With n v l h l' h' :
      reachable h → logger_With n v l h = Ok (l', h') → reachable h'
  | reach_SetLevel lv l h h' :
      reachable h → logger_SetLevel lv l h = Ok h' → reachable h'
  | reach_SetEncoder e l h h' :
      reachable h → logger_SetEncoder e l h = Ok h' → reachable h'
  | reach_SetWriter w l h h' :
      reachable h → logger_SetWriter w l h = Ok h' → reachable h'.

(* ===================================================================== *)
(** ** A host for the examples *)
(* ===================================================================== *)

Module Example.

(** The part of a clean slash-separated path after its last slash
    ([path.Base]) and before it ([path.Dir], ["."] when there is no
    slash). *)
Fixpoint last_slash (s : string) : option (string * string) :=
  match s with
  | EmptyString => None
  | String c t =>
      match last_slash t with
      | Some (d, b) => Some (String c d, b)
      | None => if Ascii.eqb c "/" then Some (EmptyString, t) else None
      end
  end.

Definition Base (s : string) : string :=
  match last_slash s with
  | Some (_, b) => b
  | None => if String.eqb s EmptyString then "." else s
  end.
Definition Dir (s : string) : string :=
  match last_slash s with
  | Some (d, _) => if String.eqb d EmptyString then "/" else d
  | None => "."
  end.

(** [strings.Map] on a string of ASCII bytes. *)
Fixpoint Map (f : Z -> Z) (s : string) : string :=
  match s with
  | EmptyString => EmptyString
  | String c t =>
      let r := f (Z.of_N (N_of_ascii c)) in
      if r <? 0 then Map f t
      else String (ascii_of_N (Z.to_N r)) (Map f t)
  end.

(** Six levels, trace to fatal, numbered from 0; every data value is
    formatted as by ["%v"]; the layout of a time is not interpreted. *)
#[export] Instance host : Host := {|
  _minLevel := 0;
  _maxLevel := 5;
  DebugLevel := 1;
  Level_String := fun lv =>
    match lv with
    | 0 => "trace" | 1 => "debug" | 2 => "info"
    | 3 => "warn" | 4 => "error" | 5 => "fatal"
    | _ => "Level(" +:+ NilZero.string_of_int (Z.to_int lv) +:+ ")"
    end;
  Time_Format := fun t layout => NilZero.string_of_int (Z.to_int t);
  fmt_Sprintf := fun _ v =>
    match v with
    | Nil => "<nil>"
    | Str s => s
    | Int z => NilZero.string_of_int (Z.to_int z)
    | Bool true => "true"
    | Bool false => "false"
    end;
  strings_Map := Map;
  unicode_IsGraphic := fun r => (32 <=? r) && (r <=? 126);
  path_Dir := Dir;
  path_Base := Base
|}.

(** The stack of a call [svc.Run -> logger.Info -> logger.log ->
    GetCaller -> runtime.Callers]. *)
Definition stack : list Frame :=
  [ {| frame_Function := "runtime.Callers";
       frame_File := "/go/src/runtime/extern.go"; frame_Line := 331 |};
    {| frame_Function := "github.com/go-msvc/log.GetCaller";
       frame_File := "/src/log/record.go"; frame_Line := 31 |};
    {| frame_Function := "github.com/go-msvc/log.(*logger).log";
       frame_File := "/src/log/logger.go"; frame_Line := 176 |};
    {| frame_Function := "github.com/go-msvc/log.(*logger).Info";
       frame_File := "/src/log/logger.go"; frame_Line := 195 |};
    {| frame_Function := "example.com/svc.Run";
       frame_File := "/src/svc/run.go"; frame_Line := 12 |};
    {| frame_Function := "main.main";
       frame_File := "/src/main.go"; frame_Line := 7 |} ].

(** A logger as [init] and [logger.Logger] make it under [host]: level
    [DebugLevel], writer [os.Stderr]. *)
Definition node (par : option loc) (nm : string) (d : gmap string any)
  (s : gmap string loc) (e : IEncoder) : logger :=
  {| parent := par; name := nm; level := DebugLevel; data := d; subs := s;
     writer := Some os_Stderr; encoder := Some e |}.

(** The heap after [Logger("svc/worker")]: [top], [svc], [worker]. *)
Definition tree : heap :=
  [ node None EmptyString ∅ {[ "svc" := 1%nat ]} DefaultEncoder;
    node (Some 0%nat) "svc" ∅ {[ "worker" := 2%nat ]} DefaultEncoder;
    node (Some 1%nat) "worker" ∅ ∅ DefaultEncoder ].

(** [top] after [SetEncoder(NewColumnEncoder())]. *)
Definition quiet : heap := [ node None EmptyString ∅ ∅ NewColumnEncoder ].

(** [top] with one data column and a value of two lines under its key. *)
Definition two_lines : string := "a" +:+ newline +:+ "b".
Definition key_encoder : IColumnEncoder :=
  ce_With NewColumnEncoder [Column "k" (DataText EmptyString "k" 0)].
Definition keyed : heap :=
  [ node None EmptyString {[ "k" := Str two_lines ]} ∅ key_encoder ].

(** [top] after [SetEncoder(NewColumnEncoder().With(Column("x", nil)))]. *)
Definition nil_encoder : IColumnEncoder :=
  ce_With NewColumnEncoder [Column "x" nilText].
Definition broken : heap := [ node None EmptyString ∅ ∅ nil_encoder ].

(** Three characters of three bytes each in UTF-8 (U+65E5, U+672C,
    U+8A9E). *)
Definition nihongo : string :=
  GoString.bytes [0xE6; 0x97; 0xA5; 0xE6; 0x9C; 0xAC; 0xE8; 0xAA; 0x9E]%N.

(** A record, for the examples of [Encode]. *)
Definition record : LogRecord :=
  {| r_Time := 17;
     r_Caller := {| Package := "example.com/svc"; Function := "Run";
                    File := "/src/svc/run.go"; Line := 12 |};
     r_Level := 2; r_Message := "hello" |}.

End Example.

(* ===================================================================== *)
(** ** Names, paths and further invariants *)
(* ===================================================================== *)

(** Every byte of [s] is in the class [[a-zA-Z0-9\._-]]. *)
Fixpoint all_body (s : string) : bool :=
  match s with
  | EmptyString => true
  | String c t => is_body c && all_body t
  end.

(** The last byte of [s] is in [[a-zA-Z0-9]]. *)
Fixpoint last_alnum (s : string) : bool :=
  match s with
  | EmptyString => false
  | String c EmptyString => is_alnum c
  | String _ t => last_alnum t
  end.

(** The byte [c] occurs in [s]. *)
Fixpoint has_byte (c : ascii) (s : string) : bool :=
  match s with
  | EmptyString => false
  | String c' t => Ascii.eqb c' c || has_byte c t
  end.

(** The segments, each after a slash: what [Name] returns for the logger
    that the segments lead to from [top]. *)
Fixpoint join_slash (segs : list string) : string :=
  match segs with
  | [] => EmptyString
  | s :: segs' => "/" +:+ s +:+ join_slash segs'
  end.

(** The names on the way from the root to [l], following [parent]. *)
Fixpoint path_rec (fuel : nat) (h : heap) (l : loc) : list string :=
  match fuel with
  | O => []
  | S fuel' =>
      match h !! l with
      | None => []
      | Some x =>
          match parent x with
          | None => []
          | Some p => (path_rec fuel' h p ++ [name x])%list
          end
      end
  end.
Definition path_of (h : heap) (l : loc) : list string :=
  path_rec (length h) h l.

(** [top] is the one logger without a parent and has the empty name;
    the name of every other logger matches the pattern. *)
Definition rooted (h : heap) : Prop :=
  (∃ x, h !! top = Some x ∧ parent x = None ∧ name x = EmptyString) ∧
  (∀ l x, h !! l = Some x → l ≠ top →
     is_Some (parent x) ∧ ValidName (name x) = true).

(** No logger is without a writer or without an encoder. *)
Definition configured (h : heap) : Prop :=
  ∀ l x, h !! l = Some x → is_Some (writer x) ∧ is_Some (encoder x).

(** The width of a text value of logger.go; the time has none. *)
Definition text_width (c : ITextValue) : option Z :=
  match c with
  | nilText | otherText _ | timeText _ => None
  | levelText w | nameText w | moduleText w | codeText w | messageText w
  | dataText _ _ w => Some w
  end.

(** A text value, a column, an encoder made of the implementations of
    logger.go alone: nothing in it is nil or comes from outside. *)
Definition own_text (c : ITextValue) : bool :=
  match c with
  | nilText | otherText _ => false
  | _ => true
  end.
Definition own_column (col : IColumn) : bool :=
  match col with
  | column _ text => own_text text
  | _ => false
  end.
Definition own_encoder (e : IEncoder) : bool :=
  match e with
  | of_columnEncoder ce => forallb own_column (columns ce)
  | otherEncoder _ => false
  end.

(** The layout that [DefaultEncoder] gives to the time. *)
Definition default_layout : string := "2006-01-02 15:04:05.000".

(* ===================================================================== *)
(** ** log.go: the earlier [Logger] type *)
(* ===================================================================== *)

Module Legacy.

(** [Logger] of log.go; a map that was never made is [None]. *)
Record Logger := {
  parent : option loc;
  name : string;
  data : option (gmap string any)
}.

(** [NewLogger]. *)
Definition NewLogger (h : list Logger) : loc * list Logger :=
  (length h,
   (h ++ [ {| parent := None; name := EmptyString; data := Some ∅ |} ])%list).

(** [Logger.Named]: [&Logger{parent: l}], the other fields stay zero. *)
Definition Named (n : string) (l : loc) (h : list Logger)
  : loc * list Logger :=
  (length h,
   (h ++ [ {| parent := Some l; name := EmptyString; data := None |} ])%list).

(** [Logger.Name]. *)
Fixpoint Name_rec (fuel : nat) (l : loc) (h : list Logger) : result string :=
  match fuel with
  | O => Stuck
  | S fuel' =>
      match h !! l with
      | None => Stuck
      | Some x =>
          match parent x with
          | None => Ok (name x)
          | Some p => pn ← Name_rec fuel' p h; Ok (pn +:+ "." +:+ name x)
          end
      end
  end.
Definition Name (l : loc) (h : list Logger) : result string :=
  Name_rec (length h) l h.

(** [Logger.With]: [l.data[n] = v], which panics on a nil map. *)
Definition With (n : string) (v : any) (l : loc) (h : list Logger)
  : result (loc * list Logger) :=
  match h !! l with
  | None => Stuck
  | Some x =>
      match data x with
      | None => Panic "assignment to entry in nil map"
      | Some d =>
          Ok (l, <[l := {| parent := parent x; name := name x;
                           data := Some (<[n := v]> d) |}]> h)
      end
  end.

(** [Logger.Get]: reading a nil map finds nothing. *)
Fixpoint Get_rec (fuel : nat) (n : string) (l : loc) (h : list Logger)
  : result any :=
  match fuel with
  | O => Stuck
  | S fuel' =>
      match h !! l with
      | None => Stuck
      | Some x =>
          match data x ≫= (.!! n) with
          | Some v => Ok v
          | None =>
              match parent x with
              | Some p => Get_rec fuel' n p h
              | None => Ok Nil
              end
          end
      end
  end.
Definition Get (n : string) (l : loc) (h : list Logger) : result any :=
  Get_rec (length h) n l h.

End Legacy.

(** The value of a call that returned, [d] for one that did not. *)
Definition returned {A : Type} (r : result A) (d : A) : A :=
  match r with
  | Ok a => a
  | _ => d
  end.

Module Example2.
Import Example.

(** [tree] after [svc.Set("k", "v")]. *)
Definition tree_k : heap :=
  returned (logger_Set "k" (Str "v") 1%nat tree) [].

(** [tree] after [Logger("svc/db")]. *)
Definition tree_db : heap :=
  (returned (Logger "svc/db" tree) (0%nat, [])).2.

(** [tree] after [svc.With("k", "v")]. *)
Definition tree_with : heap :=
  (returned (logger_With "k" (Str "v") 1%nat tree) (0%nat, [])).2.

(** The stack when [init] of the package calls [ForThisPackage]. *)
Definition init_stack : list Frame :=
  [ {| frame_Function := "runtime.Callers";
       frame_File := "/go/src/runtime/extern.go"; frame_Line := 331 |};
    {| frame_Function := "github.com/go-msvc/log.GetCaller";
       frame_File := "/src/log/record.go"; frame_Line := 47 |};
    {| frame_Function := "github.com/go-msvc/log.ForThisPackage";
       frame_File := "/src/log/logger.go"; frame_Line := 16 |};
    {| frame_Function := "github.com/go-msvc/log.init.0";
       frame_File := "/src/log/logger.go"; frame_Line := 303 |};
    {| frame_Function := "runtime.doInit";
       frame_File := "/go/src/runtime/proc.go"; frame_Line := 6321 |};
    {| frame_Function := "runtime.main";
       frame_File := "/go/src/runtime/proc.go"; frame_Line := 233 |} ].

(** A heap of the earlier type with one logger made by [NewLogger]. *)
Definition legacy_root : list Legacy.Logger := (Legacy.NewLogger []).2.

End Example2.

(* ===================================================================== *)
(** ** Facts about Go strings *)
(* ===================================================================== *)

Module GoStringFacts.
Import GoString.
#[local] Arguments byte : simpl never.
#[local] Arguments cont : simpl never.

Lemma app_nil_l (t : string) : EmptyString +:+ t = t.
Proof. reflexivity. Qed.

Lemma app_cons c (s t : string) : String c s +:+ t = String c (s +:+ t).
Proof. reflexivity. Qed.

Lemma length_app (s t : string) :
  String.length (s +:+ t) = (String.length s + String.length t)%nat.
Proof.
  induction s as [|c s IH]; [done|].
  rewrite app_cons. simpl. by rewrite IH.
Qed.

Lemma app_assoc (s t u : string) : (s +:+ t) +:+ u = s +:+ (t +:+ u).
Proof.
  induction s as [|c s IH]; [done|]. by rewrite !app_cons, IH.
Qed.

Lemma length_spaces n : String.length (spaces n) = n.
Proof. induction n as [|n IH]; simpl; [done | by rewrite IH]. Qed.

Lemma length_drop n s :
  String.length (drop n s) = (String.length s - n)%nat.
Proof.
  revert s; induction n as [|n IH]; intros [|c s]; simpl; try done; lia.
Qed.

Lemma app_empty_r (s : string) : s +:+ EmptyString = s.
Proof. induction s as [|c s IH]; [done | by rewrite app_cons, IH]. Qed.

Lemma utf8_first_Some b sz lo hi :
  utf8_first b = Some (sz, lo, hi) →
  (0x80 <= lo)%N ∧ (sz = 2 ∨ sz = 3 ∨ sz = 4)%nat.
Proof.
  unfold utf8_first.
  repeat (case_match; try discriminate);
    intros [= <- <- <-]; split; (lia || tauto).
Qed.

(** A rune never extends past the end of the string. *)
Lemma rune_size_bound c t :
  (1 <= rune_size c t <= S (String.length t))%nat.
Proof.
  unfold rune_size.
  destruct (utf8_first (byte c)) as [[[sz lo] hi]|] eqn:E; [|simpl; lia].
  apply utf8_first_Some in E as [_ [->|[->| ->]]];
    destruct t as [|c1 [|c2 [|c3 t]]]; simpl;
    repeat (case_match; simpl; try lia); lia.
Qed.

(** Padding with spaces does not change how the bytes before it are
    read: a space continues no sequence. *)
Lemma rune_size_pad c t n :
  rune_size c (t +:+ spaces n) = rune_size c t.
Proof.
  unfold rune_size.
  destruct (utf8_first (byte c)) as [[[sz lo] hi]|] eqn:E; [|done].
  apply utf8_first_Some in E as [Hlo Hsz].
  assert (Hsp : ((lo <=? byte " ") && (byte " " <=? hi))%N = false).
  { apply andb_false_iff; left. apply N.leb_gt.
    change (byte " ") with 32%N. lia. }
  assert (Hc : cont (byte " ") = false) by reflexivity.
  destruct Hsz as [->|[->| ->]];
    destruct t as [|c1 [|c2 [|c3 t]]];
    rewrite ?app_cons, ?app_nil_l; try done;
    destruct n as [|n]; simpl; try done;
    rewrite ?Hsp, ?Hc; repeat case_match; done.
Qed.

Lemma count_from_le k s : (count_from k s <= String.length s)%nat.
Proof.
  revert k; induction s as [|c s IH]; intros k; simpl; [lia|].
  destruct k as [|k].
  - specialize (IH (rune_size c s - 1)%nat). lia.
  - specialize (IH k). lia.
Qed.

Lemma RuneCount_le s : (RuneCount s <= String.length s)%nat.
Proof. apply count_from_le. Qed.

Lemma take_from_all k n s :
  (count_from k s <= n)%nat → take_from k n s = s.
Proof.
  revert k n; induction s as [|c s IH]; intros k n H; simpl in *; [done|].
  destruct k as [|k].
  - destruct n as [|n]; [lia|]. f_equal. apply IH. lia.
  - f_equal. by apply IH.
Qed.

Lemma count_from_spaces n : count_from 0 (spaces n) = n.
Proof. induction n as [|n IH]; simpl; [done|]. by rewrite IH. Qed.

Lemma count_from_pad k s n :
  (k <= String.length s)%nat →
  count_from k (s +:+ spaces n) = (count_from k s + n)%nat.
Proof.
  revert k; induction s as [|c s IH]; intros k Hk;
    rewrite ?app_cons, ?app_nil_l; simpl in *.
  - assert (k = 0%nat) as -> by lia. apply count_from_spaces.
  - destruct k as [|k].
    + rewrite rune_size_pad, IH; [done|].
      pose proof (rune_size_bound c s). lia.
    + apply IH. lia.
Qed.

Lemma RuneCount_pad s n :
  RuneCount (s +:+ spaces n) = (RuneCount s + n)%nat.
Proof. apply count_from_pad. lia. Qed.

(** A string of ASCII bytes has one rune per byte. *)
Lemma RuneCount_ascii s :
  ascii_only s = true → RuneCount s = String.length s.
Proof.
  unfold RuneCount.
  induction s as [|c s IH]; simpl; [done|].
  intros [Hc Hs]%andb_true_iff. apply N.ltb_lt in Hc.
  assert (rune_size c s = 1%nat) as ->.
  { unfold rune_size, utf8_first.
    destruct (N.ltb_spec (byte c) 0xC2); [done | lia]. }
  simpl. by rewrite IH.
Qed.

Lemma ascii_only_drop n s : ascii_only s = true → ascii_only (drop n s) = true.
Proof.
  revert s; induction n as [|n IH]; intros [|c s]; simpl; try done.
  intros [_ Hs]%andb_true_iff. by apply IH.
Qed.

(** With at most [w] bytes in [s], [%-*.*s] cuts nothing and pads on
    the right up to [w] runes. *)
Lemma Sprintf_left_short w s :
  0 <= w <= 1000000 → (String.length s <= Z.to_nat w)%nat →
  Sprintf_left w w s = s +:+ spaces (Z.to_nat w - RuneCount s).
Proof.
  intros Hw Hs. unfold Sprintf_left, tooLarge, padString, truncateString.
  destruct (Z.gtb_spec w 1000000); [lia|].
  destruct (Z.ltb_spec w (-1000000)); [lia|].
  destruct (Z.leb_spec 0 w); [|lia]. simpl.
  rewrite !app_nil_l, Z.abs_eq by lia.
  rewrite take_from_all; [done|].
  pose proof (count_from_le 0 s). lia.
Qed.

(** Above a million neither the width nor the precision is taken:
    both are reported and the string follows as it is. *)
Lemma Sprintf_left_large w s :
  1000000 < w →
  Sprintf_left w w s = badWidthString +:+ badPrecString +:+ s.
Proof.
  intros Hw. unfold Sprintf_left, tooLarge, padString.
  destruct (Z.gtb_spec w 1000000); [|lia]. simpl.
  by rewrite app_empty_r.
Qed.

Lemma newlines_app s t : newlines (s +:+ t) = (newlines s + newlines t)%nat.
Proof.
  induction s as [|c s IH]; [done|].
  rewrite app_cons. simpl. rewrite IH. lia.
Qed.

End GoStringFacts.

(* ===================================================================== *)
(** ** Facts about the tree *)
(* ===================================================================== *)

Section TreeFacts.

Lemma same_shape_length h g : same_shape h g → length h = length g.
Proof.
  intros H. rewrite <- (length_fmap shape h), <- (length_fmap shape g).
  by rewrite H.
Qed.

Lemma same_shape_lookup h g i x :
  same_shape h g → h !! i = Some x →
  ∃ y, g !! i = Some y ∧ shape y = shape x.
Proof.
  intros H Hx.
  assert (Hi : (shape <$> g) !! i = Some (shape x)).
  { rewrite <- H, list_lookup_fmap, Hx. done. }
  rewrite list_lookup_fmap in Hi.
  destruct (g !! i) as [y|]; simpl in Hi; [|done].
  exists y. split; [done|]. congruence.
Qed.

Lemma same_shape_sym h g : same_shape h g → same_shape g h.
Proof. unfold same_shape. congruence. Qed.

Lemma same_shape_trans h g k :
  same_shape h g → same_shape g k → same_shape h k.
Proof. unfold same_shape. congruence. Qed.

Lemma same_shape_insert h l x y :
  h !! l = Some x → shape y = shape x → same_shape h (<[l := y]> h).
Proof.
  intros Hx Hy. unfold same_shape.
  rewrite list_fmap_insert, Hy, list_insert_id; [done|].
  by rewrite list_lookup_fmap, Hx.
Qed.

Lemma shape_parent x y : shape x = shape y → parent x = parent y.
Proof. unfold shape. congruence. Qed.
Lemma shape_name x y : shape x = shape y → name x = name y.
Proof. unfold shape. congruence. Qed.
Lemma shape_subs x y : shape x = shape y → subs x = subs y.
Proof. unfold shape. congruence. Qed.

Lemma same_shape_wf h g : same_shape h g → wf h → wf g.
Proof.
  intros H [Hp Hs]. pose proof (same_shape_sym _ _ H) as H'.
  split.
  - intros l y p Hy Hpar.
    destruct (same_shape_lookup _ _ _ _ H' Hy) as (x & Hx & Hsh).
    assert (Hpx : parent x = Some p)
      by (by rewrite (shape_parent _ _ Hsh)).
    destruct (Hp l x p Hx Hpx) as [Hlt (px & Hpx' & Hsub)].
    split; [done|].
    destruct (same_shape_lookup _ _ _ _ H Hpx') as (py & Hpy & Hsh').
    exists py. split; [done|].
    by rewrite (shape_subs _ _ Hsh'), <- (shape_name _ _ Hsh).
  - intros l y n c Hy Hsub.
    destruct (same_shape_lookup _ _ _ _ H' Hy) as (x & Hx & Hsh).
    rewrite <- (shape_subs _ _ Hsh) in Hsub.
    destruct (Hs l x n c Hx Hsub) as (cx & Hcx & Hpar & Hn).
    destruct (same_shape_lookup _ _ _ _ H Hcx) as (cy & Hcy & Hsh').
    exists cy. split; [done|].
    by rewrite (shape_parent _ _ Hsh'), (shape_name _ _ Hsh').
Qed.

Lemma same_shape_under h g a d : same_shape h g → under h a d → under g a d.
Proof.
  intros H. induction 1 as [|d x p Hx Hp _ IH]; [constructor|].
  destruct (same_shape_lookup _ _ _ _ H Hx) as (y & Hy & Hsh).
  apply (under_step g a d y p); [done| |done].
  by rewrite (shape_parent _ _ Hsh).
Qed.

Lemma same_shape_under_iff h g a d :
  same_shape h g → under h a d ↔ under g a d.
Proof.
  intros H; split; apply same_shape_under; [done|].
  by apply same_shape_sym.
Qed.

Lemma under_trans h a b d : under h a b → under h b d → under h a d.
Proof.
  intros Hab. induction 1 as [|d x p Hx Hp _ IH]; [done|].
  by apply (under_step h a d x p).
Qed.

Lemma under_le h a d : wf h → under h a d → (a <= d)%nat.
Proof.
  intros Hwf. induction 1 as [|d x p Hx Hp _ IH]; [lia|].
  destruct (wf_parent h Hwf d x p Hx Hp) as [Hlt _]. lia.
Qed.

Lemma under_lookup h a d x :
  h !! a = Some x → under h a d → is_Some (h !! d).
Proof. intros Ha. destruct 1; eauto. Qed.

(** Below [a] but not [a]: below one of the loggers of [a]'s [subs]. *)
Lemma under_inv h a d x :
  wf h → h !! a = Some x → under h a d →
  d = a ∨ ∃ c, c ∈ children x ∧ under h c d.
Proof.
  intros Hwf Ha. induction 1 as [|d y p Hy Hp Hu IH]; [by left|].
  right. destruct IH as [->|(c & Hc & Hcd)].
  - exists d. split; [|constructor].
    destruct (wf_parent h Hwf d y a Hy Hp) as [_ (px & Hpx & Hsub)].
    simplify_eq. unfold children.
    apply list_elem_of_fmap. exists (name y, d). split; [done|].
    by apply elem_of_map_to_list.
  - exists c. split; [done|]. by apply (under_step h c d y p).
Qed.

Lemma children_spec h a x c :
  wf h → h !! a = Some x → c ∈ children x →
  ∃ cx, h !! c = Some cx ∧ parent cx = Some a ∧ (a < c)%nat.
Proof.
  intros Hwf Ha Hc. unfold children in Hc.
  apply list_elem_of_fmap in Hc as ([n c'] & -> & Hin).
  apply elem_of_map_to_list in Hin. simpl.
  destruct (wf_subs h Hwf a x n c' Ha Hin) as (cx & Hcx & Hp & _).
  exists cx. repeat split; try done.
  by destruct (wf_parent h Hwf c' cx a Hcx Hp).
Qed.

Lemma under_child h a x c d :
  wf h → h !! a = Some x → c ∈ children x → under h c d → under h a d.
Proof.
  intros Hwf Ha Hc Hcd.
  destruct (children_spec h a x c Hwf Ha Hc) as (cx & Hcx & Hp & _).
  apply (under_trans h a c d); [|done].
  apply (under_step h a c cx a); [done..|constructor].
Qed.

Lemma under_dec h a d : wf h → under h a d ∨ ¬ under h a d.
Proof.
  intros Hwf. induction (lt_wf d) as [d _ IH].
  destruct (decide (a = d)) as [->|Hne]; [left; constructor|].
  destruct (h !! d) as [x|] eqn:Hx.
  - destruct (parent x) as [p|] eqn:Hp.
    + destruct (wf_parent h Hwf d x p Hx Hp) as [Hlt _].
      destruct (IH p Hlt) as [Hu|Hn].
      * left. by apply (under_step h a d x p).
      * right. inversion 1; simplify_eq.
    + right. inversion 1; simplify_eq.
  - right. inversion 1; simplify_eq.
Qed.

Lemma under_any_dec h (cs : list loc) d :
  wf h → (∃ c, c ∈ cs ∧ under h c d) ∨ ¬ (∃ c, c ∈ cs ∧ under h c d).
Proof.
  intros Hwf. induction cs as [|c cs IH].
  - right. intros (c & Hc & _). by apply elem_of_nil in Hc.
  - destruct (under_dec h c d Hwf) as [Hu|Hn].
    + left. exists c. split; [left|done].
    + destruct IH as [(c' & Hc' & Hu)|Hn'].
      * left. exists c'. split; [by right|done].
      * right. intros (c' & [->|Hc']%elem_of_cons & Hu); eauto.
Qed.

(** The two readings of "descendant" agree. *)
Lemma descendant_under h a d : wf h → descendant h a d → under h a d.
Proof.
  intros Hwf. induction 1 as [|a x n c d Hx Hs _ IH]; [constructor|].
  destruct (wf_subs h Hwf a x n c Hx Hs) as (cx & Hcx & Hp & _).
  apply (under_trans h a c d); [|done].
  apply (under_step h a c cx a); [done..|constructor].
Qed.

Lemma descendant_snoc h a p x n d :
  descendant h a p → h !! p = Some x → subs x !! n = Some d →
  descendant h a d.
Proof.
  induction 1 as [|a y m c p Hy Hs _ IH]; intros Hx Hd.
  - eapply desc_sub; [done..|constructor].
  - eapply desc_sub; [done..|]. by apply IH.
Qed.

Lemma under_descendant h a d : wf h → under h a d → descendant h a d.
Proof.
  intros Hwf. induction 1 as [|d x p Hx Hp _ IH]; [constructor|].
  destruct (wf_parent h Hwf d x p Hx Hp) as [_ (px & Hpx & Hsub)].
  by eapply descendant_snoc.
Qed.

End TreeFacts.

(* ===================================================================== *)
(** ** Fan-out reaches exactly the loggers below the receiver *)
(* ===================================================================== *)

Section Propagate.
Variable f : logger -> logger.
Hypothesis f_shape : ∀ x, shape (f x) = shape x.
Hypothesis f_idem : ∀ x, f (f x) = f x.

Lemma each_propagate fuel :
  propagate_ok f fuel →
  ∀ cs g, wf g →
    (∀ c, c ∈ cs → (c < length g)%nat ∧ (length g - c <= fuel)%nat) →
    ∃ g', each (propagate f fuel) cs g = Ok g' ∧
          updated f g (λ i, ∃ c, c ∈ cs ∧ under g c i) g'.
Proof.
  intros Hstep. induction cs as [|c cs IH]; intros g Hwf Hcs.
  - exists g. split; [done|]. split; [done|]. split; [|done].
    intros i (c & Hc & _). by apply elem_of_nil in Hc.
  - destruct (Hstep c g Hwf) as (g1 & Hrun & Hsh1 & Hin1 & Hout1);
      [apply Hcs; left..|].
    pose proof (same_shape_wf _ _ Hsh1 Hwf) as Hwf1.
    pose proof (same_shape_length _ _ Hsh1) as Hlen1.
    destruct (IH g1 Hwf1) as (g' & Hrun' & Hsh' & Hin' & Hout').
    { intros c' Hc'. rewrite <- Hlen1. apply Hcs. by right. }
    exists g'. split; [simpl; by rewrite Hrun|].
    split; [by eapply same_shape_trans|]. split.
    + intros i (c' & Hc' & Hu).
      destruct (under_any_dec g1 cs i Hwf1) as [Hany|Hnone].
      * rewrite (Hin' i Hany).
        destruct (under_dec g c i Hwf) as [Hu1|Hn1].
        -- rewrite (Hin1 i Hu1).
           destruct (g !! i); simpl; [by rewrite f_idem | done].
        -- by rewrite (Hout1 i Hn1).
      * rewrite (Hout' i Hnone). apply Hin1.
        apply elem_of_cons in Hc' as [->|Hc']; [done|].
        exfalso. apply Hnone. exists c'. split; [done|].
        by apply (same_shape_under g g1).
    + intros i Hn. rewrite Hout', Hout1; [done| |].
      * intros Hu. apply Hn. exists c. split; [left|done].
      * intros (c' & Hc' & Hu). apply Hn. exists c'. split; [by right|].
        apply (same_shape_under g1 g); [by apply same_shape_sym|done].
Qed.

Lemma propagate_spec fuel : propagate_ok f fuel.
Proof.
  induction fuel as [|fuel IH]; intros l h Hwf Hl Hfuel; [lia|].
  destruct (lookup_lt_is_Some_2 h l Hl) as [x Hx].
  simpl. rewrite Hx.
  assert (Hsh1 : same_shape h (<[l := f x]> h))
    by (by apply (same_shape_insert h l x)).
  pose proof (same_shape_wf _ _ Hsh1 Hwf) as Hwf1.
  destruct (each_propagate fuel IH (children x) (<[l := f x]> h) Hwf1)
    as (h' & Hrun & Hsh & Hin & Hout).
  { intros c Hc. rewrite length_insert.
    destruct (children_spec h l x c Hwf Hx Hc) as (cx & Hcx & _ & Hlt).
    apply lookup_lt_Some in Hcx. lia. }
  exists h'. split; [done|]. split; [by eapply same_shape_trans|]. split.
  - intros i Hu.
    destruct (under_inv h l i x Hwf Hx Hu) as [->|(c & Hc & Hcu)].
    + rewrite Hout, list_lookup_insert_eq, Hx; [done..|].
      intros (c & Hc & Hcu).
      destruct (children_spec h l x c Hwf Hx Hc) as (_ & _ & _ & Hlt).
      apply (under_le _ _ _ Hwf1) in Hcu. lia.
    + destruct (children_spec h l x c Hwf Hx Hc) as (_ & _ & _ & Hlt).
      pose proof (under_le _ _ _ Hwf Hcu).
      rewrite Hin, list_lookup_insert_ne; [done|lia|].
      exists c. split; [done|]. by apply (same_shape_under h).
  - intros i Hn.
    assert (i ≠ l) by (intros ->; apply Hn; constructor).
    rewrite Hout, list_lookup_insert_ne; [done..|].
    intros (c & Hc & Hcu). apply Hn.
    apply (under_child h l x c i Hwf Hx Hc).
    apply (same_shape_under (<[l := f x]> h) h);
      [by apply same_shape_sym|done].
Qed.

(** Go leaves the order of [range l.subs] open: every order of the
    same loggers gives the same heap. *)
Lemma each_propagate_order fuel cs cs' g :
  propagate_ok f fuel → wf g → cs ≡ₚ cs' →
  (∀ c, c ∈ cs → (c < length g)%nat ∧ (length g - c <= fuel)%nat) →
  each (propagate f fuel) cs g = each (propagate f fuel) cs' g.
Proof.
  intros Hstep Hwf Hperm Hcs.
  destruct (each_propagate fuel Hstep cs g Hwf Hcs)
    as (g1 & -> & _ & Hin1 & Hout1).
  destruct (each_propagate fuel Hstep cs' g Hwf)
    as (g2 & -> & _ & Hin2 & Hout2).
  { intros c Hc. apply Hcs. by rewrite Hperm. }
  f_equal. apply list_eq. intros i.
  destruct (under_any_dec g cs i Hwf) as [Hany|Hnone].
  - rewrite (Hin1 i Hany), Hin2; [done|].
    destruct Hany as (c & Hc & Hu). exists c. by rewrite <- Hperm.
  - rewrite (Hout1 i Hnone), Hout2; [done|].
    intros (c & Hc & Hu). apply Hnone. exists c. by rewrite Hperm.
Qed.

Lemma updated_wf h P h' : updated f h P h' → wf h → wf h'.
Proof. intros [Hsh _]. by apply same_shape_wf. Qed.

End Propagate.

(* ===================================================================== *)
(** ** Creating and finding loggers *)
(* ===================================================================== *)

Section Registry.
Context {host : Host}.

Lemma lookup_grow (h : heap) l (x x' sub : logger) i :
  h !! l = Some x →
  (<[l := x']> h ++ [sub])%list !! i =
    if decide (i = length h) then Some sub
    else if decide (i = l) then Some x' else h !! i.
Proof.
  intros Hx. pose proof (lookup_lt_Some _ _ _ Hx) as Hl.
  destruct (decide (i = length h)) as [->|Hi].
  - rewrite lookup_app_r; rewrite length_insert; [|lia].
    by rewrite Nat.sub_diag.
  - destruct (decide (i < length h)%nat) as [Hlt|Hge].
    + rewrite lookup_app_l by (rewrite length_insert; lia).
      destruct (decide (i = l)) as [->|Hne].
      * by rewrite list_lookup_insert_eq.
      * by rewrite list_lookup_insert_ne.
    + rewrite lookup_ge_None_2 by (rewrite length_app, length_insert; simpl; lia).
      destruct (decide (i = l)) as [->|Hne]; [lia|].
      symmetry. apply lookup_ge_None_2. lia.
Qed.

Lemma wf_init_top : wf init_top.
Proof.
  split.
  - intros [|l] x p Hx Hp; simplify_eq/=.
  - intros [|l] x n c Hx Hs; simplify_eq/=.
Qed.

(** What [logger.Logger] returns, by cases. *)
Lemma logger_Logger_found n l h x c :
  ValidName n = true → h !! l = Some x → subs x !! n = Some c →
  logger_Logger n l h = Ok (c, h).
Proof.
  intros Hn Hx Hc. unfold logger_Logger. by rewrite Hn, Hx, Hc.
Qed.

Lemma logger_Logger_new n l h x :
  ValidName n = true → h !! l = Some x → subs x !! n = None →
  logger_Logger n l h =
    Ok (length h,
        (<[l := set_subs (<[n := length h]> (subs x)) x]> h ++
         [ {| parent := Some l; name := n; level := level x;
              data := ∅; subs := ∅;
              writer := writer x; encoder := encoder x |} ])%list).
Proof.
  intros Hn Hx Hc. unfold logger_Logger. by rewrite Hn, Hx, Hc.
Qed.

Lemma logger_Logger_invalid n l h :
  ValidName n = false → ∃ msg, logger_Logger n l h = Panic msg.
Proof. intros Hn. unfold logger_Logger. rewrite Hn. simpl. eauto. Qed.

Lemma logger_Logger_inv n l h c h' :
  logger_Logger n l h = Ok (c, h') →
  ValidName n = true ∧ ∃ x, h !! l = Some x ∧
    (subs x !! n = Some c ∧ h' = h ∨
     subs x !! n = None ∧ c = length h ∧
     h' = (<[l := set_subs (<[n := length h]> (subs x)) x]> h ++
           [ {| parent := Some l; name := n; level := level x;
                data := ∅; subs := ∅;
                writer := writer x; encoder := encoder x |} ])%list).
Proof.
  unfold logger_Logger.
  destruct (ValidName n); simpl; [|done].
  destruct (h !! l) as [x|]; [|done].
  destruct (subs x !! n) as [c'|] eqn:Hs; intros [= <- <-];
    (split; [done|]); exists x; split; auto.
Qed.

(** The heap after a logger is created: the new logger is last, the
    receiver has one more link, the rest is as before. *)
Lemma logger_Logger_fresh n p h x :
  h !! p = Some x → ValidName n = true → subs x !! n = None →
  ∃ h',
    logger_Logger n p h = Ok (length h, h') ∧
    h' !! length h =
      Some {| parent := Some p; name := n; level := level x;
              data := ∅; subs := ∅;
              writer := writer x; encoder := encoder x |} ∧
    h' !! p = Some (set_subs (<[n := length h]> (subs x)) x) ∧
    (∀ i, i ≠ p → (i < length h)%nat → h' !! i = h !! i).
Proof.
  intros Hx Hn Hs.
  pose proof (lookup_lt_Some _ _ _ Hx) as Hp.
  rewrite (logger_Logger_new n p h x Hn Hx Hs).
  eexists. split; [done|]. split_and!.
  - rewrite (lookup_grow h p x _ _ _ Hx). by rewrite decide_True.
  - rewrite (lookup_grow h p x _ _ _ Hx).
    rewrite decide_False, decide_True by lia. done.
  - intros i Hi Hlt. rewrite (lookup_grow h p x _ _ _ Hx).
    rewrite !decide_False by lia. done.
Qed.

Lemma logger_Logger_wf n l h c h' :
  wf h → logger_Logger n l h = Ok (c, h') → wf h'.
Proof.
  intros Hwf (Hn & x & Hx & [[_ ->]|(Hnone & -> & ->)])%logger_Logger_inv;
    [done|].
  pose proof (lookup_lt_Some _ _ _ Hx) as Hl.
  destruct Hwf as [Hp Hs]. split.
  - intros i y p. rewrite (lookup_grow h l x _ _ i Hx).
    repeat case_decide; subst.
    + intros [= <-] [= <-]; simpl. split; [done|].
      eexists. rewrite (lookup_grow h l x _ _ l Hx).
      rewrite decide_False, decide_True by lia.
      split; [done|]. simpl. by rewrite lookup_insert_eq.
    + intros [= <-] Hpar; simpl in *.
      destruct (Hp l x p Hx Hpar) as [Hlt (px & Hpx & Hsub)].
      split; [done|]. exists px.
      rewrite (lookup_grow h l x _ _ p Hx).
      rewrite !decide_False by lia. done.
    + intros Hy Hpar.
      destruct (Hp i y p Hy Hpar) as [Hlt (px & Hpx & Hsub)].
      split; [done|].
      rewrite (lookup_grow h l x _ _ p Hx).
      pose proof (lookup_lt_Some _ _ _ Hpx).
      rewrite decide_False by lia.
      case_decide; subst; [|eauto].
      eexists; split; [done|]. simpl. simplify_eq.
      rewrite lookup_insert_ne; [done|]. congruence.
  - intros i y m c. rewrite (lookup_grow h l x _ _ i Hx).
    repeat case_decide; subst.
    + intros [= <-]; simpl. by rewrite lookup_empty.
    + intros [= <-]; simpl.
      destruct (decide (n = m)) as [->|Hne].
      * rewrite lookup_insert_eq. intros [= <-].
        eexists. rewrite (lookup_grow h l x _ _ _ Hx).
        rewrite decide_True by done. done.
      * rewrite lookup_insert_ne by done. intros Hsub.
        destruct (Hs l x m c Hx Hsub) as (cx & Hcx & Hpar & Hname).
        destruct (Hp c cx l Hcx Hpar) as [Hlt _].
        pose proof (lookup_lt_Some _ _ _ Hcx).
        exists cx. rewrite (lookup_grow h l x _ _ _ Hx).
        rewrite !decide_False by lia. done.
    + intros Hy Hsub.
      destruct (Hs i y m c Hy Hsub) as (cx & Hcx & Hpar & Hname).
      pose proof (lookup_lt_Some _ _ _ Hcx).
      rewrite (lookup_grow h l x _ _ _ Hx).
      rewrite decide_False by lia.
      case_decide; subst; [|eauto].
      eexists; split; [done|]. simpl. by simplify_eq.
Qed.

Lemma logger_Logger_links n l h c h' :
  logger_Logger n l h = Ok (c, h') → links h h'.
Proof.
  intros (Hn & x & Hx & [[_ ->]|(Hnone & -> & ->)])%logger_Logger_inv;
    [by intros i y m c' ? ?; eauto|].
  intros i y m c' Hy Hsub.
  pose proof (lookup_lt_Some _ _ _ Hy).
  rewrite (lookup_grow h l x _ _ _ Hx).
  rewrite decide_False by lia.
  case_decide; subst; [|eauto].
  eexists; split; [done|]. simpl. simplify_eq.
  rewrite lookup_insert_ne; [done|]. congruence.
Qed.

Lemma logger_Logger_link n l h c h' :
  logger_Logger n l h = Ok (c, h') →
  ∃ x', h' !! l = Some x' ∧ subs x' !! n = Some c.
Proof.
  intros (Hn & x & Hx & [[? ->]|(Hnone & -> & ->)])%logger_Logger_inv;
    [eauto|].
  pose proof (lookup_lt_Some _ _ _ Hx).
  eexists. rewrite (lookup_grow h l x _ _ _ Hx).
  rewrite decide_False, decide_True by lia.
  split; [done|]. simpl. by rewrite lookup_insert_eq.
Qed.

Lemma logger_Logger_length n l h c h' :
  wf h → logger_Logger n l h = Ok (c, h') →
  (length h <= length h')%nat ∧ (c < length h')%nat.
Proof.
  intros Hwf (Hn & x & Hx & [[Hs ->]|(Hnone & -> & ->)])%logger_Logger_inv.
  - split; [done|].
    destruct (wf_subs h Hwf l x n c Hx Hs) as (cx & Hcx & _).
    by apply lookup_lt_Some in Hcx.
  - rewrite length_app, length_insert; simpl. lia.
Qed.

Lemma links_refl h : links h h.
Proof. intros l x n c ? ?; eauto. Qed.

Lemma links_trans h g k : links h g → links g k → links h k.
Proof.
  intros H1 H2 l x n c Hx Hs.
  destruct (H1 l x n c Hx Hs) as (y & Hy & Hs'). eauto.
Qed.

Lemma resolve_links h h' l segs c :
  links h h' → resolve h l segs = Some c → resolve h' l segs = Some c.
Proof.
  intros Hl. revert l. induction segs as [|s segs IH]; intros l; [done|].
  simpl. destruct (h !! l) as [x|] eqn:Hx; [|done].
  destruct (subs x !! s) as [d|] eqn:Hs; [|done].
  destruct (Hl l x s d Hx Hs) as (x' & -> & ->). apply IH.
Qed.

Lemma resolve_lt h l segs c :
  wf h → resolve h l segs = Some c → segs ≠ [] → (l < c)%nat.
Proof.
  intros Hwf. revert l. induction segs as [|s segs IH]; intros l; [done|].
  simpl. destruct (h !! l) as [x|] eqn:Hx; [|done].
  destruct (subs x !! s) as [d|] eqn:Hs; [|done].
  intros Hr _.
  destruct (wf_subs h Hwf l x s d Hx Hs) as (dx & Hdx & Hp & _).
  destruct (wf_parent h Hwf d dx l Hdx Hp) as [Hlt _].
  destruct segs as [|s' segs]; [simpl in Hr; simplify_eq; done|].
  assert ((d < c)%nat) by (by apply IH). lia.
Qed.

Lemma len_pos_nonempty s : (GoString.len s >? 0) = nonempty s.
Proof. by destruct s. Qed.

Lemma ValidName_nonempty s : ValidName s = true → nonempty s = true.
Proof. by destruct s. Qed.

(** The loop of [Logger] sees only the non-empty segments. *)
Lemma Logger_loop_segments names l h :
  Logger_loop names l h =
  Logger_loop (filter (λ s, nonempty s = true) names) l h.
Proof.
  revert l h. induction names as [|n names IH]; intros l h; [done|].
  simpl. rewrite len_pos_nonempty.
  destruct (nonempty n) eqn:Hn.
  - rewrite filter_cons_True by done. simpl.
    rewrite len_pos_nonempty, Hn.
    destruct (logger_Logger n l h) as [[c h1]| |]; simpl; [apply IH|done..].
  - rewrite filter_cons_False by (by rewrite Hn). apply IH.
Qed.

Lemma Logger_segments name h :
  Logger name h =
  '(log, h') ← Logger_loop (segments name) top h;
  if Nat.eqb log top then Panic "missing logger name" else Ok (log, h').
Proof. unfold Logger, segments. by rewrite Logger_loop_segments at 1. Qed.

(** A second run of the loop finds what the first has made. *)
Lemma Logger_loop_again names l0 h l h' :
  Logger_loop names l0 h = Ok (l, h') →
  Logger_loop names l0 h' = Ok (l, h') ∧ links h h'.
Proof.
  revert l0 h. induction names as [|n names IH]; intros l0 h; simpl.
  - intros [= <- <-]. split; [done|apply links_refl].
  - destruct (GoString.len n >? 0); [|apply IH].
    destruct (logger_Logger n l0 h) as [[c h1]| |] eqn:Hstep; simpl; [|done..].
    intros Hrest. destruct (IH c h1 Hrest) as [Hagain Hl].
    destruct (logger_Logger_link _ _ _ _ _ Hstep) as (x1 & Hx1 & Hc).
    destruct (Hl l0 x1 n c Hx1 Hc) as (x' & Hx' & Hc').
    destruct (logger_Logger_inv _ _ _ _ _ Hstep) as [Hn _].
    rewrite (logger_Logger_found n l0 h' x' c Hn Hx' Hc'). simpl.
    split; [done|].
    eapply links_trans; [by eapply logger_Logger_links|done].
Qed.

(** On valid segments the loop returns, and its result is where the
    segments lead from the start. *)
Lemma Logger_loop_ok segs :
  Forall (λ s, ValidName s = true) segs →
  ∀ l0 h, wf h → (l0 < length h)%nat →
    ∃ l h', Logger_loop segs l0 h = Ok (l, h') ∧ wf h' ∧
            (l < length h')%nat ∧ links h h' ∧
            resolve h' l0 segs = Some l.
Proof.
  induction 1 as [|s segs Hs _ IH]; intros l0 h Hwf Hl0.
  - exists l0, h. split_and!; try done. apply links_refl.
  - simpl. rewrite len_pos_nonempty, (ValidName_nonempty s Hs).
    destruct (lookup_lt_is_Some_2 h l0 Hl0) as [x Hx].
    assert (∃ c h1, logger_Logger s l0 h = Ok (c, h1)) as (c & h1 & Hstep).
    { destruct (subs x !! s) as [c|] eqn:Hc.
      - rewrite (logger_Logger_found s l0 h x c); eauto.
      - rewrite (logger_Logger_new s l0 h x); eauto. }
    rewrite Hstep. simpl.
    pose proof (logger_Logger_wf _ _ _ _ _ Hwf Hstep) as Hwf1.
    destruct (logger_Logger_length _ _ _ _ _ Hwf Hstep) as [_ Hc1].
    destruct (IH c h1 Hwf1 Hc1) as (l & h' & Hrun & Hwf' & Hl & Hlk & Hres).
    exists l, h'. split_and!; try done.
    + eapply links_trans; [by eapply logger_Logger_links|done].
    + destruct (logger_Logger_link _ _ _ _ _ Hstep) as (x1 & Hx1 & Hc).
      destruct (Hlk l0 x1 s c Hx1 Hc) as (x' & -> & ->). done.
Qed.

(** A segment that does not match the pattern stops the loop. *)
Lemma Logger_loop_invalid segs :
  Forall (λ s, nonempty s = true) segs →
  (∃ s, s ∈ segs ∧ ValidName s = false) →
  ∀ l0 h, wf h → (l0 < length h)%nat →
    ∃ msg, Logger_loop segs l0 h = Panic msg.
Proof.
  induction 1 as [|s segs Hs _ IH]; intros (s' & Hin & Hbad) l0 h Hwf Hl0.
  - by apply elem_of_nil in Hin.
  - simpl. rewrite len_pos_nonempty, Hs.
    destruct (ValidName s) eqn:Hv.
    + destruct (lookup_lt_is_Some_2 h l0 Hl0) as [x Hx].
      assert (∃ c h1, logger_Logger s l0 h = Ok (c, h1)) as (c & h1 & Hstep).
      { destruct (subs x !! s) as [c|] eqn:Hc.
        - rewrite (logger_Logger_found s l0 h x c); eauto.
        - rewrite (logger_Logger_new s l0 h x); eauto. }
      rewrite Hstep. simpl.
      apply IH.
      * apply elem_of_cons in Hin as [->|Hin]; [congruence|eauto].
      * by eapply logger_Logger_wf.
      * by destruct (logger_Logger_length _ _ _ _ _ Hwf Hstep).
    + destruct (logger_Logger_invalid s l0 h Hv) as [msg ->]. simpl. eauto.
Qed.

(** [Logger] on a valid path name: it returns a logger other than
    [top], reached from [top] along the segments; the heap stays
    well formed and keeps its links; a second call changes nothing. *)
Lemma Logger_valid_path name h :
  wf h → is_Some (h !! top) → valid_path name →
  ∃ leaf h', Logger name h = Ok (leaf, h') ∧ leaf ≠ top ∧
             resolve h' top (segments name) = Some leaf ∧
             links h h' ∧ wf h' ∧
             Logger name h' = Ok (leaf, h').
Proof.
  intros Hwf Htop%lookup_lt_is_Some_1 [Hne Hvalid].
  destruct (Logger_loop_ok (segments name) Hvalid top h Hwf Htop)
    as (l & h' & Hrun & Hwf' & Hl & Hlk & Hres).
  pose proof (resolve_lt h' top (segments name) l Hwf' Hres Hne) as Hlt.
  destruct (Logger_loop_again _ _ _ _ _ Hrun) as [Hagain _].
  exists l, h'. rewrite (Logger_segments name h), (Logger_segments name h').
  rewrite Hrun, Hagain. simpl.
  destruct (Nat.eqb_spec l top) as [->|_]; [lia|].
  split_and!; try done. lia.
Qed.

End Registry.

(* ===================================================================== *)
(** ** Set, Get, With and SetLevel *)
(* ===================================================================== *)

Section Methods.
Context {host : Host}.

Lemma each_ext (f g : loc → heap → result heap) cs h :
  (∀ c k, f c k = g c k) → each f cs h = each g cs h.
Proof.
  intros Hfg. revert h. induction cs as [|c cs IH]; intros h; [done|].
  simpl. rewrite Hfg. destruct (g c h); simpl; auto.
Qed.

Lemma set_level_shape lv x : shape (set_level lv x) = shape x.
Proof. done. Qed.
Lemma set_level_idem lv x : set_level lv (set_level lv x) = set_level lv x.
Proof. done. Qed.
Lemma del_shape n x : shape (del n x) = shape x.
Proof. done. Qed.
Lemma del_idem n x : del n (del n x) = del n x.
Proof. unfold del, set_data; simpl. f_equal. apply delete_delete_eq. Qed.

Lemma in_range_true lv :
  _minLevel <= lv <= _maxLevel ↔
  (lv >=? _minLevel) && (lv <=? _maxLevel) = true.
Proof. rewrite andb_true_iff, Z.geb_leb, !Z.leb_le. tauto. Qed.

Lemma SetLevel_rec_propagate lv :
  _minLevel <= lv <= _maxLevel →
  ∀ fuel l h,
    SetLevel_rec fuel lv l h = propagate (set_level lv) fuel l h.
Proof.
  intros Hr%in_range_true. induction fuel as [|fuel IH]; intros l h; [done|].
  simpl. rewrite Hr. destruct (h !! l) as [x|]; [|done].
  by apply each_ext.
Qed.

Lemma With_rec_Nil_propagate n :
  ValidName n = true →
  ∀ fuel l h, With_rec fuel n Nil l h = propagate (del n) fuel l h.
Proof.
  intros Hn. induction fuel as [|fuel IH]; intros l h; [done|].
  simpl. rewrite Hn. destruct (h !! l) as [x|]; [|done].
  by apply each_ext.
Qed.

(** *** Get *)

Lemma Get_rec_total n h :
  wf h → ∀ fuel l, (l < fuel)%nat → (l < length h)%nat →
    ∃ r, Get_rec fuel n l h = Ok r.
Proof.
  intros Hwf. induction fuel as [|fuel IH]; intros l Hf Hl; [lia|].
  destruct (lookup_lt_is_Some_2 h l Hl) as [x Hx].
  simpl. rewrite Hx.
  destruct (data x !! n) as [v|]; [eauto|].
  destruct (parent x) as [p|] eqn:Hp; [|eauto].
  destruct (wf_parent h Hwf l x p Hx Hp) as [Hlt (px & Hpx & _)].
  apply IH; [lia|]. by apply lookup_lt_Some in Hpx.
Qed.

(** A logger below [p] with no binding of its own between itself and
    [p] reads the binding of [p]. *)
Lemma Get_rec_inherit n v h p px :
  wf h → h !! p = Some px → data px !! n = Some v →
  ∀ d, under h p d →
    (∀ i y, under h p i → i ≠ p → h !! i = Some y → data y !! n = None) →
    ∀ fuel, (d < fuel)%nat → Get_rec fuel n d h = Ok (v, true).
Proof.
  intros Hwf Hpx Hv d Hd Hnone.
  induction Hd as [|d x q Hx Hq Hu IH]; intros fuel Hf.
  - destruct fuel as [|fuel]; [lia|]. simpl. by rewrite Hpx, Hv.
  - destruct fuel as [|fuel]; [lia|]. simpl. rewrite Hx.
    destruct (wf_parent h Hwf d x q Hx Hq) as [Hlt _].
    pose proof (under_le h p q Hwf Hu).
    rewrite (Hnone d x), Hq; [apply IH; lia| |lia|done].
    by apply (under_step h p d x q).
Qed.

(** *** Set changes the receiver only *)

Lemma logger_Set_spec n v l h x :
  ValidName n = true → h !! l = Some x →
  logger_Set n v l h = Ok (<[l := set_data (<[n := v]> (data x)) x]> h).
Proof. intros Hn Hx. unfold logger_Set. by rewrite Hn, Hx. Qed.

Lemma logger_Set_wf n v l h h' :
  wf h → logger_Set n v l h = Ok h' → wf h'.
Proof.
  unfold logger_Set. destruct (ValidName n); simpl; [|done].
  destruct (h !! l) as [x|] eqn:Hx; [|done]. intros Hwf [= <-].
  eapply same_shape_wf; [|done]. by apply (same_shape_insert h l x).
Qed.

Lemma logger_Set_only_receiver n v l h h' i :
  logger_Set n v l h = Ok h' → i ≠ l → h' !! i = h !! i.
Proof.
  unfold logger_Set. destruct (ValidName n); simpl; [|done].
  destruct (h !! l) as [x|] eqn:Hx; [|done]. intros [= <-] Hi.
  by rewrite list_lookup_insert_ne.
Qed.

(** [Set] on a logger does not reach the bindings below it: a logger
    with its own binding of the key still reads its own. *)
Lemma Set_no_pushdown k v v0 h p x c cx :
  ValidName k = true → h !! p = Some x → h !! c = Some cx → c ≠ p →
  data cx !! k = Some v0 →
  ∃ h', logger_Set k v p h = Ok h' ∧ logger_Get k c h' = Ok (v0, true).
Proof.
  intros Hk Hx Hc Hne Hv0.
  rewrite (logger_Set_spec k v p h x Hk Hx). eexists. split; [done|].
  unfold logger_Get. rewrite length_insert.
  pose proof (lookup_lt_Some _ _ _ Hc).
  destruct (length h) as [|n]; [lia|]. simpl.
  rewrite list_lookup_insert_ne by done. by rewrite Hc, Hv0.
Qed.

(** *** With pushes a binding down by deleting below *)

Lemma With_rec_spec n v h p x :
  wf h → h !! p = Some x → ValidName n = true →
  ∃ h', With_rec (S (length h)) n v p h = Ok h' ∧ same_shape h h' ∧
    h' !! p = Some (set_data (if is_nil v then delete n (data x)
                              else <[n := v]> (data x)) x) ∧
    (∀ d y, under h p d → d ≠ p → h !! d = Some y →
            h' !! d = Some (del n y)) ∧
    (∀ d, ¬ under h p d → h' !! d = h !! d).
Proof.
  intros Hwf Hx Hn. simpl. rewrite Hn, Hx.
  set (x1 := set_data _ x). set (h1 := <[p := x1]> h).
  assert (Hsh1 : same_shape h h1)
    by (by apply (same_shape_insert h p x)).
  pose proof (same_shape_wf _ _ Hsh1 Hwf) as Hwf1.
  rewrite (each_ext _ (propagate (del n) (length h)))
    by (intros; by apply With_rec_Nil_propagate).
  destruct (each_propagate (del n) (del_idem n) (length h)
              (propagate_spec (del n) (del_shape n) (del_idem n) (length h))
              (children x) h1 Hwf1)
    as (h' & Hrun & Hsh & Hin & Hout).
  { intros c Hc. unfold h1. rewrite length_insert.
    destruct (children_spec h p x c Hwf Hx Hc) as (cx & Hcx & _ & Hlt).
    apply lookup_lt_Some in Hcx. lia. }
  exists h'. split; [done|]. split; [by eapply same_shape_trans|].
  assert (Hnotp : ¬ ∃ c, c ∈ children x ∧ under h1 c p).
  { intros (c & Hc & Hcu).
    destruct (children_spec h p x c Hwf Hx Hc) as (_ & _ & _ & Hlt).
    apply (under_le _ _ _ Hwf1) in Hcu. lia. }
  split_and!.
  - rewrite (Hout p Hnotp). unfold h1.
    apply list_lookup_insert_eq. by apply lookup_lt_Some in Hx.
  - intros d y Hu Hne Hy.
    destruct (under_inv h p d x Hwf Hx Hu) as [->|(c & Hc & Hcu)]; [done|].
    rewrite Hin.
    + unfold h1. by rewrite list_lookup_insert_ne, Hy.
    + exists c. split; [done|]. by apply (same_shape_under h).
  - intros d Hn'.
    assert (d ≠ p) by (intros ->; apply Hn'; constructor).
    rewrite Hout; [unfold h1; by rewrite list_lookup_insert_ne|].
    intros (c & Hc & Hcu). apply Hn'.
    apply (under_child h p x c d Hwf Hx Hc).
    apply (same_shape_under h1 h); [by apply same_shape_sym|done].
Qed.

(** X12: [With(k, v)] with a value: the receiver holds [v], every logger
    below it has lost its own binding, and [Get(k)] on any of them
    returns [v]. *)
Theorem With_pushdown k v h p x :
  wf h → h !! p = Some x → ValidName k = true → v ≠ Nil →
  ∃ h', logger_With k v p h = Ok (p, h') ∧
    (∃ x', h' !! p = Some x' ∧ data x' !! k = Some v) ∧
    (∀ d y, descendant h p d → d ≠ p → h' !! d = Some y →
            data y !! k = None) ∧
    (∀ d, descendant h p d → logger_Get k d h' = Ok (v, true)).
Proof.
  intros Hwf Hx Hk Hv.
  destruct (With_rec_spec k v h p x Hwf Hx Hk)
    as (h' & Hrun & Hsh & Hp & Hbelow & _).
  pose proof (same_shape_wf _ _ Hsh Hwf) as Hwf'.
  assert (Hnil : is_nil v = false) by (by destruct v).
  rewrite Hnil in Hp.
  assert (Hclear : ∀ d y, under h p d → d ≠ p → h' !! d = Some y →
                          data y !! k = None).
  { intros d y Hu Hne Hy.
    destruct (under_lookup h p d x Hx Hu) as [y0 Hy0].
    rewrite (Hbelow d y0 Hu Hne Hy0) in Hy. simplify_eq. simpl.
    apply lookup_delete_eq. }
  exists h'. unfold logger_With. rewrite Hrun. simpl. split_and!.
  - done.
  - eexists; split; [done|]. simpl. apply lookup_insert_eq.
  - intros d y Hd. apply Hclear. by apply descendant_under.
  - intros d Hd%(descendant_under _ _ _ Hwf).
    unfold logger_Get.
    apply (Get_rec_inherit k v h' p _ Hwf' Hp).
    + simpl. apply lookup_insert_eq.
    + by apply (same_shape_under h).
    + intros i y Hu. apply Hclear.
      apply (same_shape_under h' h); [by apply same_shape_sym|done].
    + destruct (under_lookup h p d x Hx Hd) as [y0 Hy0].
      rewrite <- (same_shape_length _ _ Hsh).
      by apply lookup_lt_Some in Hy0.
Qed.

End Methods.

(* ===================================================================== *)
(** ** Every heap the package reaches is well formed *)
(* ===================================================================== *)

Section Reachable.
Context {host : Host}.

Lemma same_shape_refl h : same_shape h h.
Proof. done. Qed.

Lemma set_encoder_shape e x : shape (set_encoder e x) = shape x.
Proof. done. Qed.
Lemma set_encoder_idem e x : set_encoder e (set_encoder e x) = set_encoder e x.
Proof. done. Qed.
Lemma set_writer_shape w x : shape (set_writer w x) = shape x.
Proof. done. Qed.
Lemma set_writer_idem w x : set_writer w (set_writer w x) = set_writer w x.
Proof. done. Qed.

Lemma SetEncoder_rec_propagate e fuel l h :
  SetEncoder_rec fuel e l h = propagate (set_encoder e) fuel l h.
Proof.
  revert l h. induction fuel as [|fuel IH]; intros l h; [done|].
  simpl. destruct (h !! l) as [x|]; [|done]. by apply each_ext.
Qed.

Lemma SetWriter_rec_propagate w fuel l h :
  SetWriter_rec fuel w l h = propagate (set_writer w) fuel l h.
Proof.
  revert l h. induction fuel as [|fuel IH]; intros l h; [done|].
  simpl. destruct (h !! l) as [x|]; [|done]. by apply each_ext.
Qed.

(** A fan-out that returns has kept the links of every logger. *)
Lemma propagate_same_shape f l h h' :
  (∀ x, shape (f x) = shape x) → (∀ x, f (f x) = f x) →
  wf h → propagate f (S (length h)) l h = Ok h' → same_shape h h'.
Proof.
  intros Hsh Hid Hwf Hrun.
  destruct (h !! l) as [x|] eqn:Hx; [|by simpl in Hrun; rewrite Hx in Hrun].
  destruct (propagate_spec f Hsh Hid (S (length h)) l h Hwf)
    as (g & Hg & Hshape & _); [by eapply lookup_lt_Some|lia|].
  rewrite Hg in Hrun. by injection Hrun as <-.
Qed.

Lemma logger_Set_same_shape n v l h h' :
  logger_Set n v l h = Ok h' → same_shape h h'.
Proof.
  unfold logger_Set. destruct (ValidName n); simpl; [|done].
  destruct (h !! l) as [x|] eqn:Hx; [|done]. intros [= <-].
  by apply (same_shape_insert h l x).
Qed.

Lemma logger_With_same_shape n v l h l' h' :
  wf h → logger_With n v l h = Ok (l', h') → same_shape h h'.
Proof.
  intros Hwf. unfold logger_With.
  destruct (ValidName n) eqn:Hn.
  - destruct (h !! l) as [x|] eqn:Hx.
    + destruct (With_rec_spec n v h l x Hwf Hx Hn) as (g & -> & Hsh & _).
      simpl. by intros [= _ <-].
    + simpl. by rewrite Hn, Hx.
  - simpl. rewrite Hn. simpl. by intros [= _ <-].
Qed.

Lemma logger_SetLevel_same_shape lv l h h' :
  wf h → logger_SetLevel lv l h = Ok h' → same_shape h h'.
Proof.
  intros Hwf. unfold logger_SetLevel.
  destruct (decide (_minLevel <= lv <= _maxLevel)) as [Hr|Hr].
  - rewrite (SetLevel_rec_propagate lv Hr).
    by apply propagate_same_shape.
  - simpl. destruct ((lv >=? _minLevel) && (lv <=? _maxLevel)) eqn:E.
    + by apply in_range_true in E.
    + by intros [= <-].
Qed.

Lemma logger_SetEncoder_same_shape e l h h' :
  wf h → logger_SetEncoder e l h = Ok h' → same_shape h h'.
Proof.
  intros Hwf. destruct e as [e|]; [|by intros [= <-]].
  unfold logger_SetEncoder. rewrite SetEncoder_rec_propagate. by apply propagate_same_shape.
Qed.

Lemma logger_SetWriter_same_shape w l h h' :
  wf h → logger_SetWriter w l h = Ok h' → same_shape h h'.
Proof.
  intros Hwf. destruct w as [w|]; [|by intros [= <-]].
  unfold logger_SetWriter. rewrite SetWriter_rec_propagate. by apply propagate_same_shape.
Qed.

Lemma Logger_loop_wf names l0 h l h' :
  wf h → Logger_loop names l0 h = Ok (l, h') →
  wf h' ∧ (length h <= length h')%nat.
Proof.
  revert l0 h. induction names as [|n names IH]; intros l0 h Hwf; simpl.
  - by intros [= _ <-].
  - destruct (GoString.len n >? 0); [|by apply IH].
    destruct (logger_Logger n l0 h) as [[c h1]| |] eqn:Hstep; simpl; [|done..].
    intros Hrest.
    destruct (logger_Logger_length _ _ _ _ _ Hwf Hstep) as [Hlen _].
    destruct (IH c h1 (logger_Logger_wf _ _ _ _ _ Hwf Hstep) Hrest).
    split; [done|lia].
Qed.

Lemma Logger_wf name h l h' :
  wf h → Logger name h = Ok (l, h') →
  wf h' ∧ (length h <= length h')%nat.
Proof.
  intros Hwf. unfold Logger.
  destruct (Logger_loop _ top h) as [[c h1]| |] eqn:Hloop; simpl; [|done..].
  destruct (Nat.eqb c top); [done|]. intros [= _ <-].
  by eapply Logger_loop_wf.
Qed.

(** X29: the invariant under which the properties below are proved holds of
    every heap that the package can reach, and [top] is always there. *)
Theorem reachable_wf h : reachable h → wf h ∧ is_Some (h !! top).
Proof.
  assert (Hkeep : ∀ g g' : heap, same_shape g g' →
            wf g ∧ is_Some (g !! top) → wf g' ∧ is_Some (g' !! top)).
  { intros g g' Hsh [Hwf Htop]. split; [by eapply same_shape_wf|].
    apply lookup_lt_is_Some_2. apply lookup_lt_is_Some_1 in Htop.
    by rewrite <- (same_shape_length _ _ Hsh). }
  assert (Hgrow : ∀ g g' : heap, (length g <= length g')%nat →
            is_Some (g !! top) → is_Some (g' !! top)).
  { intros g g' Hlen Htop%lookup_lt_is_Some_1.
    apply lookup_lt_is_Some_2. lia. }
  induction 1 as [|name h l h' _ [Hwf Htop] Hrun
                  |n l h c h' _ [Hwf Htop] Hrun
                  |n v l h h' _ IH Hrun
                  |n v l h l' h' _ IH Hrun
                  |lv l h h' _ IH Hrun
                  |e l h h' _ IH Hrun
                  |w l h h' _ IH Hrun].
  - split; [apply wf_init_top|by eexists].
  - destruct (Logger_wf _ _ _ _ Hwf Hrun). eauto.
  - destruct (logger_Logger_length _ _ _ _ _ Hwf Hrun).
    split; [by eapply logger_Logger_wf|eauto].
  - eapply Hkeep; [by eapply logger_Set_same_shape|done].
  - eapply Hkeep; [|done]. eapply logger_With_same_shape; [apply IH|done].
  - eapply Hkeep; [|done]. eapply logger_SetLevel_same_shape; [apply IH|done].
  - eapply Hkeep; [|done]. eapply logger_SetEncoder_same_shape; [apply IH|done].
  - eapply Hkeep; [|done]. eapply logger_SetWriter_same_shape; [apply IH|done].
Qed.

End Reachable.

(* ===================================================================== *)
(** ** The properties of the specification *)
(* ===================================================================== *)

Section Claims.
Context {host : Host}.

(** C3: looking up a new valid segment [n] on [p] allocates one
    logger, the child: its parent is [p], its name is [n], it has no
    children, its level, writer and encoder are those of [p] at that
    moment and its data map is empty.  It is registered in [p] under
    [n], so that looking [n] up again finds it; [p] is otherwise as
    before and so is every other logger.  A later [Set] on [p] leaves
    the child's map empty and a later [Set] on the child leaves the
    map of [p] alone. *)
Theorem Logger_creates_child (h : heap) (p : loc) (x : logger) (n : string) :
  h !! p = Some x → ValidName n = true → subs x !! n = None →
  ∃ h' x' sub,
    logger_Logger n p h = Ok (length h, h') ∧
    h !! length h = None ∧ length h' = S (length h) ∧
    h' !! length h = Some sub ∧
    parent sub = Some p ∧ name sub = n ∧ subs sub = ∅ ∧
    level sub = level x ∧ writer sub = writer x ∧
    encoder sub = encoder x ∧ data sub = ∅ ∧
    h' !! p = Some x' ∧
    subs x' = <[n := length h]> (subs x) ∧
    subs x' !! n = Some (length h) ∧
    parent x' = parent x ∧ name x' = name x ∧ level x' = level x ∧
    writer x' = writer x ∧ encoder x' = encoder x ∧
    data x' = data x ∧
    (∀ i, i ≠ p → (i < length h)%nat → h' !! i = h !! i) ∧
    logger_Logger n p h' = Ok (length h, h') ∧
    (∀ k v, ValidName k = true →
      (∃ h2 sub2, logger_Set k v p h' = Ok h2 ∧
                  h2 !! length h = Some sub2 ∧ data sub2 = ∅) ∧
      (∃ h3 x3, logger_Set k v (length h) h' = Ok h3 ∧
                h3 !! p = Some x3 ∧ data x3 = data x)).
Proof.
  intros Hx Hn Hs.
  pose proof (lookup_lt_Some _ _ _ Hx) as Hp.
  destruct (logger_Logger_fresh n p h x Hx Hn Hs)
    as (h' & Hrun & Hsub & Hx' & Hrest).
  assert (Hlen : length h' = S (length h)).
  { rewrite (logger_Logger_new n p h x Hn Hx Hs) in Hrun.
    injection Hrun as <-.
    rewrite length_app, length_insert. simpl. lia. }
  eexists h', _, _. split_and!; try done.
  { apply lookup_ge_None_2. lia. }
  { simpl. apply lookup_insert_eq. }
  { apply (logger_Logger_found n p h' _ _ Hn Hx'). simpl.
    apply lookup_insert_eq. }
  intros k v Hk. split.
  - rewrite (logger_Set_spec k v p _ _ Hk Hx').
    eexists _, _. split; [reflexivity|].
    split; [rewrite list_lookup_insert_ne by lia; exact Hsub|done].
  - rewrite (logger_Set_spec k v (length h) _ _ Hk Hsub).
    eexists _, _. split; [reflexivity|].
    split; [rewrite list_lookup_insert_ne by lia; exact Hx'|done].
Qed.

(** C6: for a valid path name, [Logger] returns a logger, and asking
    again returns the same reference and leaves the heap as it is. *)
Theorem Logger_idempotent (name : string) (h : heap) :
  wf h → is_Some (h !! top) → valid_path name →
  ∃ l h', Logger name h = Ok (l, h') ∧ Logger name h' = Ok (l, h').
Proof.
  intros Hwf Htop Hvalid.
  destruct (Logger_valid_path name h Hwf Htop Hvalid)
    as (l & h' & Hrun & _ & _ & _ & _ & Hagain).
  by exists l, h'.
Qed.

(** C7: [Logger] splits the name at the slashes and looks the segments
    up in order from [top]; a name without a segment panics, a segment
    that does not match the pattern panics, and otherwise the logger
    returned is where the segments lead, it is not [top], and what was
    linked before still is. *)
Theorem Logger_registry (name : string) (h : heap) :
  wf h → is_Some (h !! top) →
  (segments name = [] → Logger name h = Panic "missing logger name") ∧
  ((∃ s, s ∈ segments name ∧ ValidName s = false) →
     ∃ msg, Logger name h = Panic msg) ∧
  (valid_path name →
     ∃ leaf h', Logger name h = Ok (leaf, h') ∧ leaf ≠ top ∧
                resolve h' top (segments name) = Some leaf ∧
                links h h' ∧ wf h').
Proof.
  intros Hwf Htop%lookup_lt_is_Some_1.
  rewrite Logger_segments.
  split_and!.
  - intros ->. done.
  - intros Hbad.
    destruct (Logger_loop_invalid (segments name)) with (l0 := top) (h := h)
      as [msg ->]; try done; [|eauto].
    unfold segments. apply Forall_forall. intros s Hs.
    by apply list_elem_of_filter in Hs as [? _].
  - intros Hvalid.
    destruct (Logger_valid_path name h Hwf (lookup_lt_is_Some_2 _ _ Htop)
                Hvalid)
      as (l & h' & Hrun & Hne & Hres & Hlk & Hwf' & _).
    rewrite <- Logger_segments. by exists l, h'.
Qed.

(** C2: [SetLevel] with a level in range sets the level of the
    receiver and of every logger below it, changes nothing else, and a
    child created afterwards starts at that level; with a level out of
    range it returns with the heap as it was. *)
Theorem SetLevel_spec (h : heap) (l : loc) (x : logger) (lv : Level) :
  wf h → h !! l = Some x →
  (_minLevel <= lv <= _maxLevel →
     ∃ h', logger_SetLevel lv l h = Ok h' ∧
       (∀ d y, descendant h l d → h !! d = Some y →
               h' !! d = Some (set_level lv y)) ∧
       (∀ d, ¬ descendant h l d → h' !! d = h !! d) ∧
       (∀ n, ValidName n = true → subs x !! n = None →
          ∃ h'' sub, logger_Logger n l h' = Ok (length h', h'') ∧
                     h'' !! length h' = Some sub ∧ level sub = lv)) ∧
  (¬ (_minLevel <= lv <= _maxLevel) → logger_SetLevel lv l h = Ok h).
Proof.
  intros Hwf Hx. pose proof (lookup_lt_Some _ _ _ Hx) as Hl. split.
  - intros Hr. unfold logger_SetLevel.
    rewrite (SetLevel_rec_propagate lv Hr).
    destruct (propagate_spec (set_level lv) (set_level_shape lv)
                (set_level_idem lv) (S (length h)) l h Hwf Hl)
      as (h' & Hrun & Hsh & Hin & Hout); [lia|].
    exists h'. split_and!; try done.
    + intros d y Hd%(descendant_under _ _ _ Hwf) Hy.
      by rewrite (Hin d Hd), Hy.
    + intros d Hd. apply Hout. intros Hu. apply Hd.
      by apply under_descendant.
    + intros n Hn Hs.
      assert (Hx' : h' !! l = Some (set_level lv x)).
      { rewrite (Hin l (under_self h l)), Hx. done. }
      destruct (logger_Logger_fresh n l h' (set_level lv x) Hx' Hn Hs)
        as (h'' & Hrun' & Hsub & _).
      by eexists h'', _.
  - intros Hr. unfold logger_SetLevel. simpl.
    destruct ((lv >=? _minLevel) && (lv <=? _maxLevel)) eqn:E; [|done].
    by apply in_range_true in E.
Qed.

(** C10: with a name that does not match the pattern, [Set] panics and
    [With] returns its receiver with the heap as it was. *)
Theorem Set_With_invalid (n : string) (v : any) (l : loc) (h : heap) :
  ValidName n = false →
  logger_Set n v l h = Panic ("logger.Set(" +:+ n +:+ ") is invalid name") ∧
  logger_With n v l h = Ok (l, h).
Proof.
  intros Hn. unfold logger_Set, logger_With. simpl. by rewrite Hn.
Qed.

(** C8: with a skip count larger than the number of frames on the
    stack, [GetCaller] returns the descriptor whose fields are all the
    marker for "unknown". *)
Theorem GetCaller_shallow (stack : list Frame) (skip : Z) :
  Z.of_nat (length stack) < skip →
  GetCaller stack skip = Ok unknownCaller ∧
  Package unknownCaller = "N/A" ∧ Function unknownCaller = "N/A" ∧
  File unknownCaller = "N/A" ∧ Line unknownCaller = -1.
Proof.
  intros Hskip. split; [|done].
  unfold GetCaller, Callers.
  assert ((length (take 10 stack) <= length stack)%nat)
    by (rewrite length_take; lia).
  destruct (Z.geb_spec (Z.of_nat (length (take 10 stack))) skip); [lia|done].
Qed.

End Claims.

(* ===================================================================== *)
(** ** Encoding and writing a record *)
(* ===================================================================== *)

Section Encoding.
Context {host : Host}.
Import GoStringFacts.

Lemma Name_rec_total h :
  wf h → ∀ fuel l, (l < fuel)%nat → (l < length h)%nat →
    ∃ s, Name_rec fuel l h = Ok s.
Proof.
  intros Hwf. induction fuel as [|fuel IH]; intros l Hf Hl; [lia|].
  destruct (lookup_lt_is_Some_2 h l Hl) as [x Hx].
  simpl. rewrite Hx.
  destruct (parent x) as [p|] eqn:Hp; [|eauto].
  destruct (wf_parent h Hwf l x p Hx Hp) as [Hlt (px & Hpx & _)].
  destruct (IH p) as [s ->]; [lia|by apply lookup_lt_Some in Hpx|].
  simpl. eauto.
Qed.

Lemma logger_Name_total h l :
  wf h → (l < length h)%nat → ∃ s, logger_Name l h = Ok s.
Proof. intros Hwf Hl. by apply Name_rec_total. Qed.

(** A method from outside returns or panics. *)
Lemma call_cases f l h r :
  wf h → (l < length h)%nat →
  (∃ t, call f l h r = Ok t) ∨ (∃ m, call f l h r = Panic m).
Proof.
  intros Hwf Hl. unfold call.
  destruct (logger_Name_total h l Hwf Hl) as [n ->]. simpl.
  destruct (f n _ r); eauto.
Qed.

(** The text values of logger.go return. *)
Lemma Text_total c l h r :
  own_text c = true →
  wf h → (l < length h)%nat → ∃ t, Text c l h r = Ok t.
Proof.
  intros Hc Hwf Hl.
  destruct c as [|fmt|w|w|w|w|w|fmt nm w|f]; simpl; try done;
    try by eauto.
  - destruct (String.eqb fmt EmptyString); eauto.
  - destruct (logger_Name_total h l Hwf Hl) as [s ->].
    simpl. eauto.
  - unfold logger_Get.
    destruct (Get_rec_total nm h Hwf (length h) l Hl Hl) as [[v ok] ->].
    simpl. eauto.
Qed.

Lemma Text_cases c l h r :
  wf h → (l < length h)%nat →
  (∃ t, Text c l h r = Ok t) ∨ (∃ m, Text c l h r = Panic m).
Proof.
  intros Hwf Hl. destruct (own_text c) eqn:Hc.
  - left. by apply Text_total.
  - destruct c; try done; simpl; [by eauto|by apply call_cases].
Qed.

Lemma column_Text_total col l h r :
  own_column col = true →
  wf h → (l < length h)%nat → ∃ t, column_Text col l h r = Ok t.
Proof. destruct col; try done. apply Text_total. Qed.

Lemma column_Text_cases col l h r :
  wf h → (l < length h)%nat →
  (∃ t, column_Text col l h r = Ok t) ∨
  (∃ m, column_Text col l h r = Panic m).
Proof.
  intros Hwf Hl. destruct col as [|nm c|nm f]; simpl.
  - eauto.
  - by apply Text_cases.
  - by apply call_cases.
Qed.

Lemma join_bar_cons t ts :
  join_bar (t :: ts) = String "|" (t +:+ join_bar ts).
Proof. reflexivity. Qed.

Lemma Encode_loop_inv cols l h r text text' :
  Encode_loop cols l h r text = Ok text' →
  ∃ ts, Forall2 (λ col t, column_Text col l h r = Ok t) cols ts ∧
        text' = text +:+ join_bar ts.
Proof.
  revert text. induction cols as [|col cols IH]; intros text; simpl.
  - intros [= <-]. exists []. split; [constructor|].
    by rewrite app_empty_r.
  - destruct (column_Text col l h r) as [t| |] eqn:Ht; simpl; [|done..].
    intros (ts & Hts & ->)%IH. exists (t :: ts).
    split; [by constructor|]. simpl. by rewrite !app_assoc.
Qed.

(** The loop returns when every column does. *)
Lemma Encode_loop_returns cols ts l h r text :
  Forall2 (λ col t, column_Text col l h r = Ok t) cols ts →
  Encode_loop cols l h r text = Ok (text +:+ join_bar ts).
Proof.
  intros Hts. revert text.
  induction Hts as [|col t cols ts Ht _ IH]; intros text; simpl.
  - by rewrite app_empty_r.
  - rewrite Ht. simpl. rewrite IH. by rewrite !app_assoc.
Qed.

(** The loop panics at the first column that does. *)
Lemma Encode_loop_panics pre ts col post m l h r text :
  Forall2 (λ col t, column_Text col l h r = Ok t) pre ts →
  column_Text col l h r = Panic m →
  Encode_loop (pre ++ col :: post) l h r text = Panic m.
Proof.
  intros Hts Hcol. revert text.
  induction Hts as [|c t cols ts Ht _ IH]; intros text; simpl.
  - by rewrite Hcol.
  - rewrite Ht. simpl. apply IH.
Qed.

Lemma Encode_loop_cases cols l h r :
  wf h → (l < length h)%nat →
  (∃ ts, Forall2 (λ col t, column_Text col l h r = Ok t) cols ts) ∨
  (∃ pre ts col post m,
     cols = (pre ++ col :: post)%list ∧
     Forall2 (λ col t, column_Text col l h r = Ok t) pre ts ∧
     column_Text col l h r = Panic m).
Proof.
  intros Hwf Hl. induction cols as [|col cols IH].
  - left. exists []. constructor.
  - destruct (column_Text_cases col l h r Hwf Hl) as [[t Ht]|[m Hm]].
    + destruct IH as [[ts Hts]|(pre & ts & c & post & m & -> & Hts & Hm)].
      * left. exists (t :: ts). by constructor.
      * right. exists (col :: pre), (t :: ts), c, post, m.
        split; [done|]. split; [by constructor|done].
    + right. exists [], [], col, cols, m.
      split; [done|]. split; [constructor|done].
Qed.

Lemma Encode_loop_total cols l h r text :
  forallb own_column cols = true →
  wf h → (l < length h)%nat →
  ∃ text', Encode_loop cols l h r text = Ok text'.
Proof.
  intros Hown Hwf Hl. revert text.
  induction cols as [|col cols IH]; intros text; simpl; [eauto|].
  simpl in Hown. apply andb_true_iff in Hown as [Hcol Hcols].
  destruct (column_Text_total col l h r Hcol Hwf Hl) as [t ->]. simpl.
  by apply IH.
Qed.

(** What [Encode] returns: nothing for no column, and otherwise the
    texts joined by the separator and a newline. *)
Lemma Encode_inv ce l h r bytes :
  Encode ce l h r = Ok bytes →
  ∃ ts, Forall2 (λ col t, column_Text col l h r = Ok t)
                (columns ce) ts ∧
        bytes = match ts with
                | [] => EmptyString
                | t :: ts' => (t +:+ join_bar ts') +:+ newline
                end.
Proof.
  unfold Encode.
  destruct (Encode_loop (columns ce) l h r EmptyString) as [text| |] eqn:Hloop;
    simpl; [|done..].
  apply Encode_loop_inv in Hloop as (ts & Hts & ->).
  rewrite app_nil_l. intros Hb. exists ts. split; [done|].
  destruct ts as [|t ts].
  - by injection Hb as <-.
  - rewrite join_bar_cons, app_cons in Hb. by injection Hb as <-.
Qed.

Lemma Encode_returns ce ts l h r :
  Forall2 (λ col t, column_Text col l h r = Ok t) (columns ce) ts →
  Encode ce l h r =
    Ok match ts with
       | [] => EmptyString
       | t :: ts' => (t +:+ join_bar ts') +:+ newline
       end.
Proof.
  intros Hts. unfold Encode.
  rewrite (Encode_loop_returns _ ts _ _ _ _ Hts). simpl.
  rewrite app_nil_l. destruct ts as [|t ts]; [done|].
  by rewrite join_bar_cons, app_cons.
Qed.

Lemma Encode_panics ce pre ts col post m l h r :
  columns ce = (pre ++ col :: post)%list →
  Forall2 (λ col t, column_Text col l h r = Ok t) pre ts →
  column_Text col l h r = Panic m →
  Encode ce l h r = Panic m.
Proof.
  intros Hcols Hts Hcol. unfold Encode.
  by rewrite Hcols, (Encode_loop_panics pre ts col post m l h r _ Hts Hcol).
Qed.

Lemma Encode_total ce l h r :
  forallb own_column (columns ce) = true →
  wf h → (l < length h)%nat → ∃ bytes, Encode ce l h r = Ok bytes.
Proof.
  intros Hown Hwf Hl. unfold Encode.
  destruct (Encode_loop_total (columns ce) l h r EmptyString Hown Hwf Hl)
    as [text Hloop].
  rewrite Hloop. simpl.
  destruct (Encode_loop_inv _ _ _ _ _ _ Hloop) as (ts & _ & ->).
  rewrite app_nil_l.
  destruct ts as [|t ts]; [by eexists|].
  rewrite join_bar_cons, app_cons. eauto.
Qed.

Lemma Encode_cases ce l h r :
  wf h → (l < length h)%nat →
  (∃ bytes, Encode ce l h r = Ok bytes) ∨
  (∃ m, Encode ce l h r = Panic m).
Proof.
  intros Hwf Hl.
  destruct (Encode_loop_cases (columns ce) l h r Hwf Hl)
    as [[ts Hts]|(pre & ts & c & post & m & Hcols & Hts & Hm)].
  - left. rewrite (Encode_returns ce ts l h r Hts). eauto.
  - right. exists m. by eapply Encode_panics.
Qed.

Lemma IEncoder_Encode_total e l h r :
  own_encoder e = true →
  wf h → (l < length h)%nat → ∃ bytes, IEncoder_Encode e l h r = Ok bytes.
Proof. destruct e as [ce|f]; [apply Encode_total|done]. Qed.

Lemma IEncoder_Encode_cases e l h r :
  wf h → (l < length h)%nat →
  (∃ bytes, IEncoder_Encode e l h r = Ok bytes) ∨
  (∃ m, IEncoder_Encode e l h r = Panic m).
Proof. destruct e as [ce|f]; [apply Encode_cases|apply call_cases]. Qed.

Lemma newlines_join_bar ts :
  Forall (λ t, newlines t = 0%nat) ts → newlines (join_bar ts) = 0%nat.
Proof.
  induction 1 as [|t ts Ht _ IH]; [done|].
  rewrite join_bar_cons. simpl.
  by rewrite newlines_app, Ht, IH.
Qed.

Lemma Encode_newline ce l h r bytes :
  columns ce ≠ [] → Encode ce l h r = Ok bytes → ends_in_newline bytes.
Proof.
  intros Hne (ts & Hts & ->)%Encode_inv.
  destruct ts as [|t ts].
  - by apply Forall2_nil_inv_r in Hts.
  - by eexists.
Qed.

Lemma not_ends_in_newline_empty : ¬ ends_in_newline EmptyString.
Proof. intros [body Hb]. by destruct body. Qed.

(** C9: with no column, [Encode] returns the empty byte sequence, which
    does not end in a newline; with at least one column, whatever it
    returns ends in a newline. *)
Theorem Encode_no_columns (l : loc) (h : heap) (r : LogRecord) :
  Encode NewColumnEncoder l h r = Ok EmptyString ∧
  ¬ ends_in_newline EmptyString ∧
  (∀ ce bytes, columns ce ≠ [] → Encode ce l h r = Ok bytes →
               ends_in_newline bytes).
Proof.
  split_and!.
  - done.
  - apply not_ends_in_newline_empty.
  - intros ce bytes. apply Encode_newline.
Qed.

Lemma GetCaller_4_ok stack : ∃ c, GetCaller stack 4 = Ok c.
Proof.
  unfold GetCaller, Callers.
  destruct (_ >=? 4); [|eauto]. simpl.
  destruct (SplitN2 _) as [|? [|? [|? ?]]]; eauto.
Qed.

(** C4, as the code has it: below the threshold, or without an encoder
    or a writer, [Log] makes no call of [Write] and returns.  Otherwise
    it has the encoder encode one record: when the encoder returns,
    [Log] makes one call of [Write] on the writer of the logger, with
    the bytes returned; when the encoder panics, [Log] panics and
    nothing is written.  The encoder does one or the other, and it
    returns when it is made of the columns and text values of
    logger.go.  The bytes of a column encoder with at least one column
    end in a newline, and they are one line when no column text holds
    a newline. *)
Theorem Log_writes (stack : list Frame) (now : Time) (lv : Level)
  (msg : string) (l : loc) (h : heap) (x : logger) :
  wf h → h !! l = Some x →
  (encoder x = None ∨ writer x = None ∨ lv < level x →
     logger_Log stack now lv msg l h = Ok []) ∧
  (∀ e w, encoder x = Some e → writer x = Some w → level x <= lv →
     ∃ caller,
       let record :=
         {| r_Time := now; r_Caller := caller; r_Level := lv;
            r_Message :=
              strings_Map (λ r, if unicode_IsGraphic r then r else -1)
                          msg |} in
       GetCaller stack 4 = Ok caller ∧
       (∀ bytes, IEncoder_Encode e l h record = Ok bytes →
          logger_Log stack now lv msg l h = Ok [(w, bytes)]) ∧
       (∀ m, IEncoder_Encode e l h record = Panic m →
          logger_Log stack now lv msg l h = Panic m) ∧
       ((∃ bytes, IEncoder_Encode e l h record = Ok bytes) ∨
        (∃ m, IEncoder_Encode e l h record = Panic m)) ∧
       (own_encoder e = true →
          ∃ bytes, IEncoder_Encode e l h record = Ok bytes) ∧
       (∀ (ce : columnEncoder) bytes,
          e = of_columnEncoder ce → columns ce ≠ [] →
          Encode ce l h record = Ok bytes →
          ends_in_newline bytes ∧
          ((∀ col t, col ∈ columns ce →
                     column_Text col l h record = Ok t →
                     newlines t = 0%nat) →
           one_line bytes))).
Proof.
  intros Hwf Hx. pose proof (lookup_lt_Some _ _ _ Hx) as Hl.
  unfold logger_Log, logger_log. rewrite Hx. split.
  - intros [He|[Hw|Hlv]].
    + by rewrite He.
    + rewrite Hw. by destruct (encoder x).
    + destruct (encoder x), (writer x); try done.
      destruct (Z.geb_spec lv (level x)); [lia|done].
  - intros e w He Hw Hlv. rewrite He, Hw.
    destruct (Z.geb_spec lv (level x)); [|lia].
    change (0 + 4) with 4.
    destruct (GetCaller_4_ok stack) as [caller Hc].
    rewrite Hc. simpl.
    set (record := Build_LogRecord _ _ _ _).
    exists caller. simpl. fold record.
    split_and!; try done.
    + by intros bytes ->.
    + by intros m ->.
    + by apply IEncoder_Encode_cases.
    + intros Hown. by apply IEncoder_Encode_total.
    + intros ce bytes _ Hne Hb.
      split; [by apply (Encode_newline ce l h record)|].
      intros Hcols.
      split; [by apply (Encode_newline ce l h record)|].
      apply Encode_inv in Hb as (ts & Hts & ->).
      destruct ts as [|t ts];
        [by apply Forall2_nil_inv_r in Hts|].
      assert (Hall : Forall (λ t, newlines t = 0%nat) (t :: ts)).
      { apply Forall_forall. intros t' Ht'.
        apply list_elem_of_lookup in Ht' as [i Hi].
        destruct (Forall2_lookup_r _ _ _ _ _ Hts Hi) as (col & Hcol & Htxt).
        apply (Hcols col t'); [|done].
        apply list_elem_of_lookup. eauto. }
      apply Forall_cons in Hall as [Ht Hall].
      rewrite !newlines_app, Ht, (newlines_join_bar ts Hall). done.
Qed.

(** [textField] for a width that [fmt] takes: the string, cut to its
    last [w] bytes when it has more, and spaces up to [w] runes. *)
Lemma textField_small w s :
  0 < w <= 1000000 →
  ∃ t, t = (if GoString.len s >? w
            then GoString.drop (Z.to_nat (GoString.len s - w)) s
            else s) ∧
       GoString.len t <= w ∧
       (ascii_only s = true → ascii_only t = true) ∧
       textField w s =
         t +:+ GoString.spaces (Z.to_nat w - GoString.RuneCount t).
Proof.
  intros Hw. unfold textField.
  destruct (Z.leb_spec w 0); [lia|].
  destruct (Z.gtb_spec (GoString.len s) w) as [Hgt|Hle]; simpl.
  - assert (Hcut : GoString.len
              (GoString.drop (Z.to_nat (GoString.len s - w)) s) = w).
    { unfold GoString.len in *. rewrite length_drop. lia. }
    eexists. split_and!; [done| |by apply ascii_only_drop|].
    + rewrite Hcut; lia.
    + apply Sprintf_left_short; [lia|].
      unfold GoString.len in *. lia.
  - exists s. split_and!; try done.
    apply Sprintf_left_short; [lia|]. unfold GoString.len in Hle. lia.
Qed.

(** [textField] for a width that [fmt] refuses. *)
Lemma textField_large w s :
  1000000 < w →
  textField w s =
    GoString.badWidthString +:+ GoString.badPrecString +:+
    (if GoString.len s >? w
     then GoString.drop (Z.to_nat (GoString.len s - w)) s
     else s).
Proof.
  intros Hw. unfold textField.
  destruct (Z.leb_spec w 0); [lia|]. by apply Sprintf_left_large.
Qed.

(** C5, as the code has it: a width of zero or less returns the string
    as it is.  For a width [w] up to a million, a string of more than
    [w] bytes is cut to its last [w] bytes, which may start inside a
    character, and the result is padded with spaces on the right up to
    [w] runes; it is never cut further.  So the result has [w] runes,
    and when every character of the string is one byte it has [w]
    bytes and is the last [w] bytes of a longer string.  Above a
    million the width is refused: the result is the two error marks of
    [fmt] followed by the string, cut as before and not padded. *)
Theorem textField_spec (w : Z) (s : string) :
  (w <= 0 → textField w s = s) ∧
  (0 < w <= 1000000 → GoString.len s > w →
     textField w s =
       let t := GoString.drop (Z.to_nat (GoString.len s - w)) s in
       t +:+ GoString.spaces (Z.to_nat w - GoString.RuneCount t)) ∧
  (0 < w <= 1000000 → GoString.len s <= w →
     textField w s =
       s +:+ GoString.spaces (Z.to_nat w - GoString.RuneCount s)) ∧
  (0 < w <= 1000000 →
     Z.of_nat (GoString.RuneCount (textField w s)) = w) ∧
  (0 < w <= 1000000 → ascii_only s = true →
     GoString.len (textField w s) = w ∧
     (GoString.len s > w →
        textField w s = GoString.drop (Z.to_nat (GoString.len s - w)) s)) ∧
  (1000000 < w →
     textField w s =
       "%!(BADWIDTH)%!(BADPREC)" +:+
       (if GoString.len s >? w
        then GoString.drop (Z.to_nat (GoString.len s - w)) s
        else s)) ∧
  textField 5 "abcdefgh" = "defgh".
Proof.
  split_and!.
  - intros Hw. unfold textField. by destruct (Z.leb_spec w 0); [|lia].
  - intros Hw Hs. destruct (textField_small w s Hw) as (t & -> & _ & _ & ->).
    by destruct (Z.gtb_spec (GoString.len s) w); [|lia].
  - intros Hw Hs. destruct (textField_small w s Hw) as (t & -> & _ & _ & ->).
    by destruct (Z.gtb_spec (GoString.len s) w); [lia|].
  - intros Hw. destruct (textField_small w s Hw) as (t & _ & Ht & _ & ->).
    rewrite RuneCount_pad.
    pose proof (RuneCount_le t). unfold GoString.len in Ht. lia.
  - intros Hw Ha.
    destruct (textField_small w s Hw) as (t & Heq & Ht & Hat & Hf).
    rewrite Hf. specialize (Hat Ha).
    rewrite (RuneCount_ascii t Hat). split.
    + unfold GoString.len in *. rewrite length_app, length_spaces. lia.
    + intros Hs.
      destruct (Z.gtb_spec (GoString.len s) w); [|lia]. subst t.
      replace (Z.to_nat w - _)%nat with 0%nat; [by rewrite app_empty_r|].
      unfold GoString.len in *. rewrite length_drop. lia.
  - intros Hw. by rewrite (textField_large w s Hw).
  - reflexivity.
Qed.

End Encoding.

(* ===================================================================== *)
(** ** The examples *)
(* ===================================================================== *)

Section Examples.
Import Example.

Lemma wf_single (x : logger) : parent x = None → subs x = ∅ → wf [x].
Proof.
  intros Hp Hs. split.
  - intros [|l] y p Hy Hpar; [|done]. simpl in Hy. congruence.
  - intros [|l] y n c Hy Hsub; [|done]. simpl in Hy.
    injection Hy as <-. rewrite Hs in Hsub. by rewrite lookup_empty in Hsub.
Qed.

Lemma valid_path_svc_worker : valid_path "svc/worker".
Proof.
  unfold valid_path.
  replace (segments "svc/worker") with ["svc"; "worker"] by (by vm_compute).
  split; [done|]. by repeat constructor.
Qed.

Lemma tree_built : Logger "svc/worker" init_top = Ok (2%nat, tree).
Proof. by vm_compute. Qed.

Lemma wf_tree : wf tree.
Proof.
  destruct (Logger_valid_path "svc/worker" init_top wf_init_top)
    as (l & h' & Hrun & _ & _ & _ & Hwf & _);
    [by eexists|apply valid_path_svc_worker|].
  rewrite tree_built in Hrun. by injection Hrun as _ <-.
Qed.

Lemma quiet_built :
  logger_SetEncoder (Some (of_columnEncoder NewColumnEncoder)) top init_top = Ok quiet.
Proof. by vm_compute. Qed.

Lemma keyed_built :
  (h ← logger_SetEncoder (Some (of_columnEncoder key_encoder)) top init_top;
   logger_With "k" (Str two_lines) top h) = Ok (top, keyed).
Proof. by vm_compute. Qed.

Lemma wf_quiet : wf quiet.
Proof. by apply wf_single. Qed.

Lemma wf_keyed : wf keyed.
Proof. by apply wf_single. Qed.

End Examples.

Section Instances.
Import Example.

(** C1, the code at a parent with a child that overrides the key:
    [top.Logger("svc")], [svc.Logger("worker")],
    [worker.Set("k", "child")], [svc.Set("k", "new")].  [Set] changes
    the map of [svc] only, and [worker.Get("k")] still returns
    ["child"]; the same calls with [With] in place of the last [Set]
    return ["new"]. *)
Theorem Set_keeps_child_override :
  ∃ h1 h2,
    logger_Set "k" (Str "child") 2%nat tree = Ok h1 ∧
    logger_Set "k" (Str "new") 1%nat h1 = Ok h2 ∧
    (data <$> h2 !! 2%nat) = Some {[ "k" := Str "child" ]} ∧
    logger_Get "k" 2%nat h2 = Ok (Str "child", true) ∧
    (∃ h3, logger_With "k" (Str "new") 1%nat h1 = Ok (1%nat, h3) ∧
           logger_Get "k" 2%nat h3 = Ok (Str "new", true)).
Proof.
  eexists _, _. split; [by vm_compute|]. split; [by vm_compute|].
  split; [by vm_compute|]. split; [by vm_compute|].
  eexists. split; by vm_compute.
Qed.

Lemma SetLevel_spec_witness :
  wf tree ∧ tree !! 1%nat = Some (node (Some 0%nat) "svc" ∅
                                   {[ "worker" := 2%nat ]} DefaultEncoder) ∧
  ∃ h', logger_SetLevel 2 1%nat tree = Ok h' ∧
        (level <$> h' !! 2%nat) = Some 2 ∧
        logger_SetLevel 9 1%nat tree = Ok tree.
Proof.
  split; [apply wf_tree|]. split; [reflexivity|].
  destruct (SetLevel_spec tree 1%nat _ 2 wf_tree eq_refl) as [Hin _].
  destruct Hin as (h' & Hrun & Hd & _); [simpl; lia|].
  exists h'. split; [done|]. split.
  - rewrite (Hd 2%nat (node (Some 1%nat) "worker" ∅ ∅ DefaultEncoder));
      [reflexivity| |reflexivity].
    apply (desc_sub tree 1%nat
             (node (Some 0%nat) "svc" ∅ {[ "worker" := 2%nat ]} DefaultEncoder)
             "worker" 2%nat 2%nat);
      [reflexivity|by vm_compute|constructor].
  - apply (SetLevel_spec tree 1%nat _ 9 wf_tree eq_refl). simpl. lia.
Defined.

Lemma Logger_creates_child_witness :
  tree !! 2%nat = Some (node (Some 1%nat) "worker" ∅ ∅ DefaultEncoder) ∧
  ValidName "db" = true ∧
  ∃ h' x' sub, logger_Logger "db" 2%nat tree = Ok (3%nat, h') ∧
            h' !! 3%nat = Some sub ∧ parent sub = Some 2%nat ∧
            name sub = "db" ∧ data sub = ∅ ∧ level sub = 1 ∧
            h' !! 2%nat = Some x' ∧ subs x' !! "db" = Some 3%nat.
Proof.
  split; [reflexivity|]. split; [reflexivity|].
  destruct (Logger_creates_child tree 2%nat _ "db" eq_refl eq_refl eq_refl)
    as (h' & x' & sub & Hrun & _ & _ & Hsub & Hpar & Hnm & _ & Hlv & _ & _ &
        Hd & Hx' & _ & Hreg & _).
  by exists h', x', sub.
Defined.

Lemma Log_writes_witness :
  wf tree ∧
  logger_Log stack 17 0 "hello" 2%nat tree = Ok [] ∧
  ∃ bytes, logger_Log stack 17 2 "hello" 2%nat tree
             = Ok [(os_Stderr, bytes)] ∧ one_line bytes.
Proof.
  split; [apply wf_tree|].
  destruct (Log_writes stack 17 0 "hello" 2%nat tree _ wf_tree eq_refl)
    as [Hquiet _].
  destruct (Log_writes stack 17 2 "hello" 2%nat tree _ wf_tree eq_refl)
    as [_ Hloud].
  split.
  - apply Hquiet. right; right. simpl. lia.
  - destruct (Hloud (of_columnEncoder DefaultEncoder) os_Stderr
                eq_refl eq_refl)
      as (caller & Hc & Hok & _ & _ & Hown & Hcols); [simpl; lia|].
    destruct (Hown eq_refl) as [bytes Hb].
    exists bytes. split; [by apply Hok|].
    destruct (Hcols DefaultEncoder bytes eq_refl) as [_ Hline];
      [done|exact Hb|].
    apply Hline.
    assert (caller = r_Caller record) as ->.
    { vm_compute in Hc. by injection Hc as <-. }
    intros col t Hcol Ht.
    repeat (apply elem_of_cons in Hcol as [->|Hcol];
            [vm_compute in Ht; injection Ht as <-; reflexivity|]).
    by apply elem_of_nil in Hcol.
Defined.

(** [Log] after [top.SetEncoder] with a column whose text value is
    nil: the call panics in [column.Text] and nothing is written. *)
Example Log_nil_text_panics :
  logger_SetEncoder (Some (of_columnEncoder nil_encoder)) top init_top
    = Ok broken ∧
  logger_Log stack 17 2 "hello" top broken = Panic nil_dereference.
Proof. split; by vm_compute. Qed.

Lemma textField_spec_witness :
  0 < 5 <= 1000000 ∧ GoString.len "abcdefgh" > 5 ∧
  ascii_only "abcdefgh" = true ∧
  textField 5 "abcdefgh" = "defgh" ∧
  GoString.len (textField 5 "id") = 5 ∧
  textField 0 "abcdefgh" = "abcdefgh" ∧
  Z.of_nat (GoString.RuneCount (textField 4 nihongo)) = 4.
Proof.
  split; [lia|]. split; [by vm_compute|]. split; [reflexivity|].
  destruct (textField_spec 5 "abcdefgh") as (_ & _ & _ & _ & Ha & _).
  destruct (Ha ltac:(lia) eq_refl) as [_ Hcut].
  split; [rewrite Hcut; [reflexivity|by vm_compute]|].
  split_and!.
  - destruct (textField_spec 5 "id") as (_ & _ & _ & _ & Hb & _).
    by destruct (Hb ltac:(lia) eq_refl).
  - destruct (textField_spec 0 "abcdefgh") as (H0 & _). apply H0. lia.
  - destruct (textField_spec 4 nihongo) as (_ & _ & _ & Hr & _).
    apply Hr. lia.
Defined.

(** C5 as the specification words it fails on a string of three
    characters of three bytes each at width 4.  The string has nine
    bytes, so the code cuts it to its last four, the last byte of the
    second character and the third character, and pads these two
    runes with two spaces: six bytes.  With characters read as bytes
    the result should have four; with characters read as runes the
    string is not longer than the width and should come back whole,
    followed by one space. *)
Lemma textField_characters_counterexample :
  GoString.len nihongo = 9 ∧ GoString.RuneCount nihongo = 3%nat ∧
  textField 4 nihongo =
    GoString.bytes [0xAC; 0xE8; 0xAA; 0x9E; 0x20; 0x20]%N ∧
  GoString.len (textField 4 nihongo) ≠ 4 ∧
  textField 4 nihongo ≠ nihongo +:+ " ".
Proof.
  split_and!; by vm_compute.
Qed.

Lemma Logger_idempotent_witness :
  wf init_top ∧ valid_path "svc/worker" ∧
  ∃ l h', Logger "svc/worker" init_top = Ok (l, h') ∧
          Logger "svc/worker" h' = Ok (l, h').
Proof.
  split; [apply wf_init_top|]. split; [apply valid_path_svc_worker|].
  apply (Logger_idempotent "svc/worker" init_top wf_init_top);
    [by eexists|apply valid_path_svc_worker].
Defined.

Lemma Logger_registry_witness :
  Logger "/" init_top = Panic "missing logger name" ∧
  (∃ msg, Logger "svc/Worker" init_top = Panic msg) ∧
  (∃ leaf h', Logger "svc/worker" init_top = Ok (leaf, h') ∧ leaf ≠ top ∧
              resolve h' top ["svc"; "worker"] = Some leaf).
Proof.
  assert (Htop : is_Some (init_top !! top)) by (by eexists).
  split_and!.
  - by apply (Logger_registry "/" init_top wf_init_top Htop).
  - apply (Logger_registry "svc/Worker" init_top wf_init_top Htop).
    exists "Worker". split; [|reflexivity].
    replace (segments "svc/Worker") with ["svc"; "Worker"]
      by (by vm_compute).
    apply elem_of_cons; right. apply elem_of_cons; by left.
  - destruct (Logger_registry "svc/worker" init_top wf_init_top Htop)
      as (_ & _ & Hok).
    destruct (Hok valid_path_svc_worker) as (leaf & h' & Hrun & Hne & Hres & _).
    by exists leaf, h'.
Defined.

Lemma GetCaller_shallow_witness :
  Z.of_nat (length stack) < 7 ∧ GetCaller stack 7 = Ok unknownCaller.
Proof.
  split; [simpl; lia|].
  apply (GetCaller_shallow stack 7). simpl. lia.
Defined.

(** At a skip count equal to the number of frames the guard still
    passes: the entry read is a zero program counter, whose frame has
    empty fields. *)
Example GetCaller_at_depth :
  Z.of_nat (length stack) = 6 ∧
  GetCaller stack 6 = Ok {| Package := "/"; Function := EmptyString;
                            File := EmptyString; Line := 0 |}.
Proof. split; by vm_compute. Qed.

Lemma Encode_no_columns_witness :
  Encode NewColumnEncoder top quiet record = Ok EmptyString ∧
  ∃ bytes, Encode DefaultEncoder 2%nat tree record = Ok bytes ∧
           ends_in_newline bytes.
Proof.
  split; [apply (Encode_no_columns top quiet record)|].
  destruct (Encode_no_columns 2%nat tree record) as (_ & _ & Hnl).
  assert (He : ∃ bytes, Encode DefaultEncoder 2%nat tree record = Ok bytes)
    by (eexists; by vm_compute).
  destruct He as [bytes He]. exists bytes. split; [done|].
  apply (Hnl DefaultEncoder bytes); [|exact He].
  intros H. vm_compute in H. discriminate H.
Defined.

Lemma Set_With_invalid_witness :
  ValidName "Bad" = false ∧
  (∃ msg, logger_Set "Bad" (Str "v") top init_top = Panic msg) ∧
  logger_With "Bad" (Str "v") top init_top = Ok (top, init_top).
Proof.
  split; [reflexivity|].
  destruct (Set_With_invalid "Bad" (Str "v") top init_top eq_refl)
    as [HSet HWith].
  split; [by eexists|done].
Defined.

(** C4 as the specification words it fails on two reachable heaps: a
    logger whose encoder has no column writes the empty byte sequence,
    and a logger with a data column writes the two lines of its value
    as they are. *)
Lemma Log_one_line_counterexample :
  (wf quiet ∧
   logger_Log stack 17 2 "hello" top quiet = Ok [(os_Stderr, EmptyString)] ∧
   ¬ one_line EmptyString) ∧
  (wf keyed ∧
   logger_Log stack 17 2 "hello" top keyed
     = Ok [(os_Stderr, two_lines +:+ newline)] ∧
   ¬ one_line (two_lines +:+ newline)).
Proof.
  split; (split; [by apply wf_single|]); (split; [by vm_compute|]).
  - intros [[body Hb] _]. by destruct body.
  - intros [_ Hn]. vm_compute in Hn. discriminate.
Qed.

End Instances.

(* ===================================================================== *)
(** ** Names and paths *)
(* ===================================================================== *)

Section NameFacts.
Import GoStringFacts.

Lemma is_lower_alnum c : is_lower c = true → is_alnum c = true.
Proof. unfold is_alnum. by intros ->. Qed.

Lemma is_alnum_body c : is_alnum c = true → is_body c = true.
Proof. unfold is_body. by intros ->. Qed.

Lemma is_body_not c c' : is_body c' = false → is_body c = true → c ≠ c'.
Proof. intros Hc' Hc ->. congruence. Qed.

Lemma match_tail_spec t :
  match_tail t = true ↔ all_body t = true ∧ last_alnum t = true.
Proof.
  induction t as [|c t IH]; simpl; [split; [done|by intros [_ ?]]|].
  destruct t as [|c' t].
  - simpl. split.
    + intros H. by rewrite (is_alnum_body c H).
    + by intros [_ H].
  - rewrite !andb_true_iff, IH. tauto.
Qed.

Lemma has_byte_body c' s :
  is_body c' = false → all_body s = true → has_byte c' s = false.
Proof.
  intros Hc'. induction s as [|c s IH]; simpl; [done|].
  intros [Hc Hs]%andb_true_iff. rewrite (IH Hs), orb_false_r.
  apply Ascii.eqb_neq. by apply is_body_not.
Qed.

Lemma ValidName_all_body n : ValidName n = true → all_body n = true.
Proof.
  destruct n as [|c t]; simpl; [done|].
  destruct t as [|c' t].
  - intros H. simpl. by rewrite (is_alnum_body c (is_lower_alnum c H)).
  - intros [Hc Ht]%andb_true_iff.
    apply match_tail_spec in Ht as [Ht _].
    rewrite (is_alnum_body c (is_lower_alnum c Hc)). done.
Qed.

Lemma ValidName_no_slash n : ValidName n = true → has_byte "/" n = false.
Proof. intros H. apply has_byte_body; [done|by apply ValidName_all_body]. Qed.

(** Splitting at a byte that the front part does not hold. *)
Lemma Split_app sep s t hd tl :
  has_byte sep s = false → GoString.Split sep t = hd :: tl →
  GoString.Split sep (s +:+ t) = (s +:+ hd) :: tl.
Proof.
  intros Hs Ht. induction s as [|c s IH]; [done|].
  simpl in Hs. apply orb_false_iff in Hs as [Hc Hs].
  rewrite app_cons. simpl. rewrite Hc, (IH Hs). done.
Qed.

Lemma Split_join_slash segs :
  Forall (λ s, ValidName s = true) segs →
  GoString.Split "/" (join_slash segs) = EmptyString :: segs.
Proof.
  induction 1 as [|s segs Hs _ IH]; [done|].
  change (join_slash (s :: segs)) with (String "/" (s +:+ join_slash segs)).
  simpl. f_equal.
  rewrite (Split_app "/" s _ EmptyString segs);
    [by rewrite app_empty_r|by apply ValidName_no_slash|done].
Qed.

(** The segments of a joined path are the segments joined. *)
Lemma segments_join_slash segs :
  Forall (λ s, ValidName s = true) segs →
  segments (join_slash segs) = segs.
Proof.
  intros Hv. unfold segments. rewrite (Split_join_slash segs Hv).
  rewrite filter_cons_False by done.
  induction Hv as [|s segs Hs _ IH]; [done|].
  rewrite filter_cons_True by (by apply ValidName_nonempty). by f_equal.
Qed.

Lemma join_slash_app segs segs' :
  join_slash (segs ++ segs') = join_slash segs +:+ join_slash segs'.
Proof.
  induction segs as [|s segs IH]; [done|].
  change (join_slash ((s :: segs) ++ segs'))
    with (String "/" (s +:+ join_slash (segs ++ segs'))).
  change (join_slash (s :: segs)) with (String "/" (s +:+ join_slash segs)).
  by rewrite IH, app_cons, app_assoc.
Qed.

Lemma join_slash_snoc segs s :
  join_slash (segs ++ [s]) = join_slash segs +:+ "/" +:+ s.
Proof.
  rewrite join_slash_app. f_equal.
  change (join_slash [s]) with (String "/" (s +:+ EmptyString)).
  by rewrite app_empty_r.
Qed.

End NameFacts.

(* ===================================================================== *)
(** ** Walking up the tree without a budget *)
(* ===================================================================== *)

Section Unfold.
Context {host : Host}.
Import GoStringFacts.

Lemma Name_rec_fuel h :
  wf h → ∀ f1 f2 l, (l < f1)%nat → (l < f2)%nat →
    Name_rec f1 l h = Name_rec f2 l h.
Proof.
  intros Hwf. induction f1 as [|f1 IH]; intros [|f2] l H1 H2; try lia.
  simpl. destruct (h !! l) as [x|] eqn:Hx; [|done].
  destruct (parent x) as [p|] eqn:Hp; [|done].
  destruct (wf_parent h Hwf l x p Hx Hp) as [Hlt _].
  rewrite (IH f2 p); [done|lia..].
Qed.

(** [Name] in one step. *)
Lemma logger_Name_unfold h l x :
  wf h → h !! l = Some x →
  logger_Name l h =
    match parent x with
    | None => Ok (name x)
    | Some p => pn ← logger_Name p h; Ok (pn +:+ "/" +:+ name x)
    end.
Proof.
  intros Hwf Hx. pose proof (lookup_lt_Some _ _ _ Hx) as Hl.
  unfold logger_Name. destruct (length h) as [|n] eqn:Hn; [lia|].
  simpl. rewrite Hx. destruct (parent x) as [p|] eqn:Hp; [|done].
  destruct (wf_parent h Hwf l x p Hx Hp) as [Hlt _].
  rewrite (Name_rec_fuel h Hwf n (S n) p); [done|lia..].
Qed.

Lemma Get_rec_fuel k h :
  wf h → ∀ f1 f2 l, (l < f1)%nat → (l < f2)%nat →
    Get_rec f1 k l h = Get_rec f2 k l h.
Proof.
  intros Hwf. induction f1 as [|f1 IH]; intros [|f2] l H1 H2; try lia.
  simpl. destruct (h !! l) as [x|] eqn:Hx; [|done].
  destruct (data x !! k); [done|].
  destruct (parent x) as [p|] eqn:Hp; [|done].
  destruct (wf_parent h Hwf l x p Hx Hp) as [Hlt _].
  apply IH; lia.
Qed.

(** [Get] in one step. *)
Lemma logger_Get_unfold k h l x :
  wf h → h !! l = Some x →
  logger_Get k l h =
    match data x !! k with
    | Some v => Ok (v, true)
    | None =>
        match parent x with
        | Some p => logger_Get k p h
        | None => Ok (Nil, false)
        end
    end.
Proof.
  intros Hwf Hx. pose proof (lookup_lt_Some _ _ _ Hx) as Hl.
  unfold logger_Get. destruct (length h) as [|n] eqn:Hn; [lia|].
  simpl. rewrite Hx. destruct (data x !! k); [done|].
  destruct (parent x) as [p|] eqn:Hp; [|done].
  destruct (wf_parent h Hwf l x p Hx Hp) as [Hlt _].
  apply (Get_rec_fuel k h Hwf n (S n) p); lia.
Qed.

Lemma path_rec_fuel h :
  wf h → ∀ f1 f2 l, (l < f1)%nat → (l < f2)%nat →
    path_rec f1 h l = path_rec f2 h l.
Proof.
  intros Hwf. induction f1 as [|f1 IH]; intros [|f2] l H1 H2; try lia.
  simpl. destruct (h !! l) as [x|] eqn:Hx; [|done].
  destruct (parent x) as [p|] eqn:Hp; [|done].
  destruct (wf_parent h Hwf l x p Hx Hp) as [Hlt _].
  rewrite (IH f2 p); [done|lia..].
Qed.

Lemma path_of_unfold h l x :
  wf h → h !! l = Some x →
  path_of h l =
    match parent x with
    | None => []
    | Some p => (path_of h p ++ [name x])%list
    end.
Proof.
  intros Hwf Hx. pose proof (lookup_lt_Some _ _ _ Hx) as Hl.
  unfold path_of. destruct (length h) as [|n] eqn:Hn; [lia|].
  simpl. rewrite Hx. destruct (parent x) as [p|] eqn:Hp; [|done].
  destruct (wf_parent h Hwf l x p Hx Hp) as [Hlt _].
  rewrite (path_rec_fuel h Hwf n (S n) p); [done|lia..].
Qed.

(** *** Paths from [top] *)

Lemma rooted_parent h l x :
  rooted h → h !! l = Some x → parent x = None → l = top.
Proof.
  intros [_ Hr] Hx Hp. destruct (decide (l = top)) as [|Hne]; [done|].
  destruct (Hr l x Hx Hne) as [[p Hp'] _]. congruence.
Qed.

Lemma under_top h l x :
  wf h → rooted h → h !! l = Some x → under h top l.
Proof.
  intros Hwf Hr. revert x. induction (lt_wf l) as [l _ IH]. intros x Hx.
  destruct (parent x) as [p|] eqn:Hp.
  - destruct (wf_parent h Hwf l x p Hx Hp) as [Hlt (px & Hpx & _)].
    apply (under_step h top l x p Hx Hp). by apply (IH p Hlt px).
  - rewrite (rooted_parent h l x Hr Hx Hp). constructor.
Qed.

Lemma path_of_valid h l :
  wf h → rooted h → Forall (λ s, ValidName s = true) (path_of h l).
Proof.
  intros Hwf Hr. induction (lt_wf l) as [l _ IH].
  destruct (h !! l) as [x|] eqn:Hx.
  - rewrite (path_of_unfold h l x Hwf Hx).
    destruct (parent x) as [p|] eqn:Hp; [|constructor].
    destruct (wf_parent h Hwf l x p Hx Hp) as [Hlt _].
    apply Forall_app. split; [by apply IH|].
    constructor; [|constructor].
    destruct Hr as [_ Hr]. apply (Hr l x Hx). unfold top. lia.
  - unfold path_of. destruct (length h); simpl; [constructor|].
    rewrite Hx. constructor.
Qed.

Lemma resolve_app h a segs segs' :
  resolve h a (segs ++ segs') =
    match resolve h a segs with
    | Some b => resolve h b segs'
    | None => None
    end.
Proof.
  revert a. induction segs as [|s segs IH]; intros a; [done|].
  simpl. destruct (h !! a) as [x|]; [|done].
  destruct (subs x !! s); [apply IH|done].
Qed.

(** The path of a logger leads to it. *)
Lemma resolve_path_of h l x :
  wf h → rooted h → h !! l = Some x →
  resolve h top (path_of h l) = Some l.
Proof.
  intros Hwf Hr. revert x. induction (lt_wf l) as [l _ IH]. intros x Hx.
  rewrite (path_of_unfold h l x Hwf Hx).
  destruct (parent x) as [p|] eqn:Hp.
  - destruct (wf_parent h Hwf l x p Hx Hp) as [Hlt (px & Hpx & Hsub)].
    rewrite resolve_app, (IH p Hlt px Hpx). simpl. by rewrite Hpx, Hsub.
  - by rewrite (rooted_parent h l x Hr Hx Hp).
Qed.

(** What leads to a logger is its path. *)
Lemma path_of_resolve h segs l :
  wf h → rooted h → resolve h top segs = Some l → path_of h l = segs.
Proof.
  intros Hwf Hr. revert l.
  induction segs as [|s segs IH] using rev_ind; intros l.
  - simpl. intros [= <-]. destruct Hr as [(x & Hx & Hp & _) _].
    rewrite (path_of_unfold h top x Hwf Hx). by rewrite Hp.
  - rewrite resolve_app.
    destruct (resolve h top segs) as [b|] eqn:Hb; [|done].
    simpl. destruct (h !! b) as [bx|] eqn:Hbx; [|done].
    destruct (subs bx !! s) as [c|] eqn:Hs; [|done]. intros [= <-].
    destruct (wf_subs h Hwf b bx s c Hbx Hs) as (cx & Hcx & Hp & Hn).
    rewrite (path_of_unfold h c cx Hwf Hcx), Hp, Hn. by rewrite (IH b).
Qed.

(** The name of a logger is its path, each segment after a slash. *)
Lemma logger_Name_path h l x :
  wf h → rooted h → h !! l = Some x →
  logger_Name l h = Ok (join_slash (path_of h l)).
Proof.
  intros Hwf Hr. revert x. induction (lt_wf l) as [l _ IH]. intros x Hx.
  rewrite (logger_Name_unfold h l x Hwf Hx), (path_of_unfold h l x Hwf Hx).
  destruct (parent x) as [p|] eqn:Hp.
  - destruct (wf_parent h Hwf l x p Hx Hp) as [Hlt (px & Hpx & _)].
    rewrite (IH p Hlt px Hpx). simpl. by rewrite join_slash_snoc.
  - pose proof (rooted_parent h l x Hr Hx Hp) as ->.
    destruct Hr as [(y & Hy & _ & Hn) _]. simplify_eq. by rewrite Hn.
Qed.

(** On links that exist the loop of [Logger] creates nothing. *)
Lemma Logger_loop_found segs :
  Forall (λ s, ValidName s = true) segs →
  ∀ l0 h l, resolve h l0 segs = Some l →
    Logger_loop segs l0 h = Ok (l, h).
Proof.
  induction 1 as [|s segs Hs _ IH]; intros l0 h l; simpl.
  - by intros [= <-].
  - destruct (h !! l0) as [x|] eqn:Hx; [|done].
    destruct (subs x !! s) as [c|] eqn:Hc; [|done]. intros Hres.
    rewrite len_pos_nonempty, (ValidName_nonempty s Hs).
    rewrite (logger_Logger_found s l0 h x c Hs Hx Hc). simpl.
    by apply IH.
Qed.

End Unfold.

(* ===================================================================== *)
(** ** What holds of every heap the package reaches *)
(* ===================================================================== *)

Section Invariants.
Context {host : Host}.

Lemma same_shape_rooted h g : same_shape h g → rooted h → rooted g.
Proof.
  intros Hsh [(x & Hx & Hp & Hn) Hr]. split.
  - destruct (same_shape_lookup _ _ _ _ Hsh Hx) as (y & Hy & Hs).
    exists y. split; [done|].
    by rewrite (shape_parent _ _ Hs), (shape_name _ _ Hs).
  - intros l y Hy Hne.
    destruct (same_shape_lookup _ _ _ _ (same_shape_sym _ _ Hsh) Hy)
      as (x' & Hx' & Hs).
    rewrite <- (shape_parent _ _ Hs), <- (shape_name _ _ Hs). by eapply Hr.
Qed.

(** Creating a logger leaves every other field of every logger alone. *)
Lemma logger_Logger_keeps n l h c h' i y :
  logger_Logger n l h = Ok (c, h') → h !! i = Some y →
  ∃ y', h' !! i = Some y' ∧ parent y' = parent y ∧ name y' = name y ∧
        level y' = level y ∧ data y' = data y ∧
        writer y' = writer y ∧ encoder y' = encoder y ∧
        (i ≠ l → y' = y).
Proof.
  intros (Hn & x & Hx & [[_ ->]|(Hnone & -> & ->)])%logger_Logger_inv Hy.
  - by exists y.
  - pose proof (lookup_lt_Some _ _ _ Hy).
    rewrite (lookup_grow h l x _ _ _ Hx).
    rewrite decide_False by lia.
    case_decide; subst; [|by exists y].
    simplify_eq. eexists. split; [done|]. by split_and!.
Qed.

(** The logger that [logger.Logger] returns when it was not there. *)
Lemma logger_Logger_added n l h c h' i :
  logger_Logger n l h = Ok (c, h') → (length h <= i)%nat →
  ∀ y', h' !! i = Some y' →
    ∃ x, h !! l = Some x ∧ i = c ∧ parent y' = Some l ∧ name y' = n ∧
         ValidName n = true ∧ level y' = level x ∧ data y' = ∅ ∧
         writer y' = writer x ∧ encoder y' = encoder x.
Proof.
  intros (Hn & x & Hx & [[_ ->]|(Hnone & -> & ->)])%logger_Logger_inv Hi y'.
  - intros Hy'%lookup_lt_Some. lia.
  - pose proof (lookup_lt_Some _ _ _ Hx).
    rewrite (lookup_grow h l x _ _ _ Hx).
    case_decide; subst.
    + intros [= <-]. exists x. by split_and!.
    + case_decide; subst; [lia|]. intros Hy'%lookup_lt_Some. lia.
Qed.

Lemma logger_Logger_grows n l h c h' :
  logger_Logger n l h = Ok (c, h') → (0 < length h <= length h')%nat.
Proof.
  intros (Hn & x & Hx & [[_ ->]|(Hnone & -> & ->)])%logger_Logger_inv;
    pose proof (lookup_lt_Some _ _ _ Hx).
  - lia.
  - rewrite length_app, length_insert. simpl. lia.
Qed.

Lemma logger_Logger_rooted n l h c h' :
  rooted h → logger_Logger n l h = Ok (c, h') → rooted h'.
Proof.
  intros [(x & Hx & Hp & Hn) Hr] Hrun. split.
  - destruct (logger_Logger_keeps _ _ _ _ _ top x Hrun Hx)
      as (y' & Hy' & Hp' & Hn' & _).
    exists y'. split; [done|]. by rewrite Hp', Hn'.
  - intros i y' Hy' Hne.
    destruct (decide (i < length h)%nat) as [Hlt|Hge].
    + destruct (lookup_lt_is_Some_2 h i Hlt) as [y Hy].
      destruct (logger_Logger_keeps _ _ _ _ _ i y Hrun Hy)
        as (y'' & Hy'' & Hp' & Hn' & _).
      simplify_eq. rewrite Hp', Hn'. by eapply Hr.
    + destruct (logger_Logger_added _ _ _ _ _ i Hrun ltac:(lia) y' Hy')
        as (x0 & _ & _ & Hp' & Hn' & Hv & _).
      rewrite Hp', Hn'. split; [by eexists|done].
Qed.

Lemma logger_Logger_configured n l h c h' :
  configured h → logger_Logger n l h = Ok (c, h') → configured h'.
Proof.
  intros Hc Hrun i y' Hy'.
  destruct (decide (i < length h)%nat) as [Hlt|Hge].
  - destruct (lookup_lt_is_Some_2 h i Hlt) as [y Hy].
    destruct (logger_Logger_keeps _ _ _ _ _ i y Hrun Hy)
      as (y'' & Hy'' & _ & _ & _ & _ & Hw & He & _).
    simplify_eq. rewrite Hw, He. by eapply Hc.
  - destruct (logger_Logger_added _ _ _ _ _ i Hrun ltac:(lia) y' Hy')
      as (x0 & Hx0 & _ & _ & _ & _ & _ & _ & Hw & He).
    rewrite Hw, He. by eapply Hc.
Qed.

(** What every step of [Logger] keeps, the whole of it keeps. *)
Lemma Logger_loop_keeps (P : heap → Prop) names l0 h l h' :
  (∀ n a g c g', P g → logger_Logger n a g = Ok (c, g') → P g') →
  P h → Logger_loop names l0 h = Ok (l, h') → P h'.
Proof.
  intros Hstep. revert l0 h.
  induction names as [|n names IH]; intros l0 h HP; simpl.
  - by intros [= _ <-].
  - destruct (GoString.len n >? 0); [|by apply IH].
    destruct (logger_Logger n l0 h) as [[c h1]| |] eqn:Hrun; simpl; [|done..].
    apply IH. by eapply Hstep.
Qed.

Lemma Logger_keeps (P : heap → Prop) name h l h' :
  (∀ n a g c g', P g → logger_Logger n a g = Ok (c, g') → P g') →
  P h → Logger name h = Ok (l, h') → P h'.
Proof.
  intros Hstep HP. unfold Logger.
  destruct (Logger_loop _ top h) as [[c h1]| |] eqn:Hloop; simpl; [|done..].
  destruct (Nat.eqb c top); [done|]. intros [= _ <-].
  by eapply Logger_loop_keeps.
Qed.

(** After a fan-out every logger is as before or changed by [f]. *)
Lemma propagate_pointwise f l h h' :
  (∀ x, shape (f x) = shape x) → (∀ x, f (f x) = f x) →
  wf h → propagate f (S (length h)) l h = Ok h' →
  ∀ i, h' !! i = h !! i ∨ h' !! i = f <$> h !! i.
Proof.
  intros Hsh Hid Hwf Hrun i.
  destruct (h !! l) as [x|] eqn:Hx; [|by simpl in Hrun; rewrite Hx in Hrun].
  destruct (propagate_spec f Hsh Hid (S (length h)) l h Hwf)
    as (g & Hg & _ & Hin & Hout); [by eapply lookup_lt_Some|lia|].
  rewrite Hg in Hrun. injection Hrun as <-.
  destruct (under_dec h l i Hwf) as [Hu|Hn]; [right; auto|left; auto].
Qed.

Lemma propagate_configured f l h h' :
  (∀ x, shape (f x) = shape x) → (∀ x, f (f x) = f x) →
  (∀ x, is_Some (writer x) → is_Some (writer (f x))) →
  (∀ x, is_Some (encoder x) → is_Some (encoder (f x))) →
  wf h → configured h → propagate f (S (length h)) l h = Ok h' →
  configured h'.
Proof.
  intros Hsh Hid Hw He Hwf Hc Hrun i y' Hy'.
  destruct (propagate_pointwise f l h h' Hsh Hid Hwf Hrun i) as [Hi|Hi];
    rewrite Hi in Hy'.
  - by eapply Hc.
  - destruct (h !! i) as [y|] eqn:Hy; simplify_eq/=.
    destruct (Hc i y Hy). split; auto.
Qed.

(** [With] changes the binding of its key and nothing else. *)
Lemma logger_With_pointwise n v l h l' h' :
  wf h → logger_With n v l h = Ok (l', h') →
  l' = l ∧ same_shape h h' ∧
  ∀ i y, h !! i = Some y →
    ∃ y', h' !! i = Some y' ∧ level y' = level y ∧
          writer y' = writer y ∧ encoder y' = encoder y ∧
          (∀ k, k ≠ n → data y' !! k = data y !! k) ∧
          (¬ under h l i → y' = y).
Proof.
  intros Hwf. unfold logger_With.
  destruct (ValidName n) eqn:Hn; cycle 1.
  { simpl. rewrite Hn. simpl. intros [= <- <-].
    split_and!; [done..|]. intros i y Hy. by exists y. }
  destruct (h !! l) as [x|] eqn:Hx; [|by simpl; rewrite Hn, Hx].
  destruct (With_rec_spec n v h l x Hwf Hx Hn)
    as (g & -> & Hsh & Hp & Hbelow & Hout).
  simpl. intros [= <- <-]. split_and!; [done..|]. intros i y Hy.
  destruct (decide (i = l)) as [->|Hne].
  - simplify_eq. eexists. split; [done|]. split_and!; try done.
    + intros k Hk. simpl.
      destruct (is_nil v);
        [by rewrite lookup_delete_ne|by rewrite lookup_insert_ne].
    + intros Hnu. destruct Hnu. constructor.
  - destruct (under_dec h l i Hwf) as [Hu|Hnu].
    + rewrite (Hbelow i y Hu Hne Hy). eexists. split; [done|].
      split_and!; try done.
      intros k Hk. simpl. by rewrite lookup_delete_ne.
    + rewrite (Hout i Hnu). by exists y.
Qed.

(** Well formed, rooted at [top], and with a writer and an encoder
    everywhere. *)
Lemma reachable_inv h : reachable h → wf h ∧ rooted h ∧ configured h.
Proof.
  assert (Hshape : ∀ g g' : heap, same_shape g g' →
            wf g ∧ rooted g → wf g' ∧ rooted g').
  { intros g g' Hsh [Hwf Hr].
    split; [by eapply same_shape_wf|by eapply same_shape_rooted]. }
  induction 1 as [|name h l h' _ (Hwf & Hr & Hc) Hrun
                  |n l h c h' _ (Hwf & Hr & Hc) Hrun
                  |n v l h h' _ (Hwf & Hr & Hc) Hrun
                  |n v l h l' h' _ (Hwf & Hr & Hc) Hrun
                  |lv l h h' _ (Hwf & Hr & Hc) Hrun
                  |e l h h' _ (Hwf & Hr & Hc) Hrun
                  |w l h h' _ (Hwf & Hr & Hc) Hrun].
  - split; [apply wf_init_top|]. split.
    + split; [by eexists|]. by intros [|i] x Hx Hne.
    + intros [|i] x Hx; [|done]. simpl in Hx. injection Hx as <-.
      split; by eexists.
  - split; [by destruct (Logger_wf _ _ _ _ Hwf Hrun)|]. split.
    + eapply (Logger_keeps rooted); [|done..].
      intros; by eapply logger_Logger_rooted.
    + eapply (Logger_keeps configured); [|done..].
      intros; by eapply logger_Logger_configured.
  - split; [by eapply logger_Logger_wf|].
    split; [by eapply logger_Logger_rooted|by eapply logger_Logger_configured].
  - pose proof (logger_Set_same_shape _ _ _ _ _ Hrun) as Hsh.
    destruct (Hshape h h' Hsh) as [Hwf' Hr']; [done|]. split_and!; try done.
    unfold logger_Set in Hrun. destruct (ValidName n); simpl in Hrun; [|done].
    destruct (h !! l) as [x|] eqn:Hx; [|done]. injection Hrun as <-.
    intros i y' Hy'. destruct (decide (i = l)) as [->|Hne].
    + rewrite list_lookup_insert_eq in Hy' by (by eapply lookup_lt_Some).
      injection Hy' as <-. simpl. by eapply Hc.
    + rewrite list_lookup_insert_ne in Hy' by done. by eapply Hc.
  - destruct (logger_With_pointwise _ _ _ _ _ _ Hwf Hrun) as (_ & Hsh & Hpt).
    destruct (Hshape h h' Hsh) as [Hwf' Hr']; [done|]. split_and!; try done.
    intros i y' Hy'.
    destruct (lookup_lt_is_Some_2 h i) as [y Hy].
    { rewrite (same_shape_length _ _ Hsh). by eapply lookup_lt_Some. }
    destruct (Hpt i y Hy) as (y'' & Hy'' & _ & Hw & He & _ & _).
    simplify_eq. rewrite Hw, He. by eapply Hc.
  - pose proof (logger_SetLevel_same_shape _ _ _ _ Hwf Hrun) as Hsh.
    destruct (Hshape h h' Hsh) as [Hwf' Hr']; [done|]. split_and!; try done.
    unfold logger_SetLevel in Hrun.
    destruct (decide (_minLevel <= lv <= _maxLevel)) as [Hrg|Hrg].
    + rewrite (SetLevel_rec_propagate lv Hrg) in Hrun.
      apply (propagate_configured (set_level lv) l h h'); auto.
    + simpl in Hrun.
      destruct ((lv >=? _minLevel) && (lv <=? _maxLevel)) eqn:E.
      * by apply in_range_true in E.
      * by injection Hrun as <-.
  - pose proof (logger_SetEncoder_same_shape _ _ _ _ Hwf Hrun) as Hsh.
    destruct (Hshape h h' Hsh) as [Hwf' Hr']; [done|]. split_and!; try done.
    destruct e as [e|]; [|by injection Hrun as <-].
    unfold logger_SetEncoder in Hrun.
    rewrite SetEncoder_rec_propagate in Hrun.
    apply (propagate_configured (set_encoder e) l h h'); auto;
      intros x _; by eexists.
  - pose proof (logger_SetWriter_same_shape _ _ _ _ Hwf Hrun) as Hsh.
    destruct (Hshape h h' Hsh) as [Hwf' Hr']; [done|]. split_and!; try done.
    destruct w as [w|]; [|by injection Hrun as <-].
    unfold logger_SetWriter in Hrun.
    rewrite SetWriter_rec_propagate in Hrun.
    apply (propagate_configured (set_writer w) l h h'); auto;
      intros x _; by eexists.
Qed.

End Invariants.

(* ===================================================================== *)
(** ** Further properties: names and the registry *)
(* ===================================================================== *)

Section RegistryExtras.
Context {host : Host}.

Lemma resolve_valid h a segs l :
  wf h → is_Some (h !! a) → resolve h a segs = Some l → is_Some (h !! l).
Proof.
  intros Hwf. revert a. induction segs as [|s segs IH]; intros a Ha; simpl.
  - by intros [= <-].
  - destruct (h !! a) as [x|] eqn:Hx; [|done].
    destruct (subs x !! s) as [c|] eqn:Hc; [|done].
    apply IH. destruct (wf_subs h Hwf a x s c Hx Hc) as (cx & -> & _).
    by eexists.
Qed.

(** X1: a name that matches the pattern is not empty, consists of
    bytes of the class [[a-zA-Z0-9._-]] only, and so holds no slash,
    no column separator, no space and no newline. *)
Theorem ValidName_bytes (n : string) :
  ValidName n = true →
  n ≠ EmptyString ∧ all_body n = true ∧
  has_byte "/" n = false ∧ has_byte "|" n = false ∧
  has_byte " " n = false ∧ has_byte (ascii_of_nat 10) n = false.
Proof.
  intros Hn. pose proof (ValidName_all_body n Hn) as Hb.
  split; [by destruct n|]. split; [done|].
  split_and!; by apply has_byte_body.
Qed.

(** X2: the full name of the logger that [Logger] returns for a valid
    path name is the segments of the path, each after a slash; empty
    segments leave no trace in it. *)
Theorem Logger_full_name (name : string) (h : heap) :
  reachable h → valid_path name →
  ∃ leaf h', Logger name h = Ok (leaf, h') ∧
             logger_Name leaf h' = Ok (join_slash (segments name)).
Proof.
  intros Hreach Hvalid.
  destruct (reachable_inv h Hreach) as (Hwf & [(t & Ht & _) _] & _).
  destruct (Logger_valid_path name h Hwf (mk_is_Some _ _ Ht) Hvalid)
    as (leaf & h' & Hrun & _ & Hres & Hlk & Hwf' & _).
  exists leaf, h'. split; [done|].
  destruct (reachable_inv h' (reach_Logger _ _ _ _ Hreach Hrun))
    as (_ & Hr' & _).
  assert (Htop' : is_Some (h' !! top))
    by (destruct Hr' as [(t' & -> & _) _]; by eexists).
  destruct (resolve_valid h' top _ leaf Hwf' Htop' Hres) as [lx Hlx].
  rewrite (logger_Name_path h' leaf lx Hwf' Hr' Hlx).
  by rewrite (path_of_resolve h' _ leaf Hwf' Hr' Hres).
Qed.

(** [Logger] applied to the name of a logger. *)
Lemma Logger_of_Name h l x :
  wf h → rooted h → h !! l = Some x → l ≠ top →
  Logger (join_slash (path_of h l)) h = Ok (l, h).
Proof.
  intros Hwf Hr Hx Hne.
  pose proof (path_of_valid h l Hwf Hr) as Hv.
  rewrite Logger_segments, (segments_join_slash _ Hv).
  rewrite (Logger_loop_found _ Hv top h l (resolve_path_of h l x Hwf Hr Hx)).
  simpl. by destruct (Nat.eqb_spec l top).
Qed.

(** X3: [Logger] undoes [Name]: for every logger other than [top],
    looking its full name up returns that very logger and changes
    nothing; the name of [top] is empty and cannot be looked up. *)
Theorem Logger_Name_roundtrip (h : heap) (l : loc) (x : logger) :
  reachable h → h !! l = Some x →
  (l ≠ top →
     ∃ nm, logger_Name l h = Ok nm ∧ Logger nm h = Ok (l, h)) ∧
  (l = top →
     logger_Name l h = Ok EmptyString ∧
     Logger EmptyString h = Panic "missing logger name").
Proof.
  intros Hreach Hx.
  destruct (reachable_inv h Hreach) as (Hwf & Hr & _). split.
  - intros Hne. exists (join_slash (path_of h l)).
    split; [by eapply logger_Name_path|by eapply Logger_of_Name].
  - intros ->. split; [|done].
    rewrite (logger_Name_path h top x Hwf Hr Hx).
    destruct Hr as [(t & Ht & Hp & _) _]. simplify_eq.
    by rewrite (path_of_unfold h top x Hwf Hx), Hp.
Qed.

(** X4: no two loggers have the same full name. *)
Theorem logger_Name_injective (h : heap) (l1 l2 : loc) :
  reachable h → is_Some (h !! l1) → is_Some (h !! l2) →
  logger_Name l1 h = logger_Name l2 h → l1 = l2.
Proof.
  intros Hreach [x1 H1] [x2 H2].
  destruct (reachable_inv h Hreach) as (Hwf & Hr & _).
  rewrite (logger_Name_path h l1 x1 Hwf Hr H1).
  rewrite (logger_Name_path h l2 x2 Hwf Hr H2).
  intros [= Heq].
  assert (Hp : path_of h l1 = path_of h l2).
  { rewrite <- (segments_join_slash (path_of h l1)),
            <- (segments_join_slash (path_of h l2));
      [by rewrite Heq|by apply path_of_valid..]. }
  pose proof (resolve_path_of h l1 x1 Hwf Hr H1) as R1.
  pose proof (resolve_path_of h l2 x2 Hwf Hr H2) as R2.
  rewrite Hp in R1. congruence.
Qed.

(** X6: [Logger] takes nothing away: a logger that was there is still
    there with its parent, name, level, data, writer and encoder, and
    with every link it had. *)
Theorem Logger_keeps_loggers (nm : string) (h : heap) (l : loc) (h' : heap) :
  Logger nm h = Ok (l, h') →
  (length h <= length h')%nat ∧
  ∀ i y, h !! i = Some y →
    ∃ y', h' !! i = Some y' ∧ parent y' = parent y ∧ name y' = name y ∧
          level y' = level y ∧ data y' = data y ∧
          writer y' = writer y ∧ encoder y' = encoder y ∧
          (∀ n c, subs y !! n = Some c → subs y' !! n = Some c).
Proof.
  intros Hrun.
  set (P := λ g : heap, (length h <= length g)%nat ∧
    ∀ i y, h !! i = Some y →
      ∃ y', g !! i = Some y' ∧ parent y' = parent y ∧ name y' = name y ∧
            level y' = level y ∧ data y' = data y ∧
            writer y' = writer y ∧ encoder y' = encoder y ∧
            (∀ n c, subs y !! n = Some c → subs y' !! n = Some c)).
  apply (Logger_keeps P nm h l h'); [|by split; [|intros i y; exists y]|done].
  intros n a g c g' [Hlen HP] Hstep. split.
  { destruct (logger_Logger_grows _ _ _ _ _ Hstep). lia. }
  intros i y Hy.
  destruct (HP i y Hy) as (y1 & Hy1 & Hp & Hn & Hl & Hd & Hw & He & Hs).
  destruct (logger_Logger_keeps _ _ _ _ _ i y1 Hstep Hy1)
    as (y2 & Hy2 & Hp2 & Hn2 & Hl2 & Hd2 & Hw2 & He2 & _).
  exists y2. split; [done|]. split_and!; try congruence.
  intros m d Hm.
  destruct (logger_Logger_links _ _ _ _ _ Hstep i y1 m d Hy1 (Hs m d Hm))
    as (y3 & Hy3 & Hm3).
  by simplify_eq.
Qed.

End RegistryExtras.

(* ===================================================================== *)
(** ** Further properties: Set, Get and With *)
(* ===================================================================== *)

Section DataExtras.
Context {host : Host}.

(** [Get] reads the same in two heaps that agree, along the way up, on
    the parents and on the bindings of the key. *)
Lemma Get_rec_agree k (h h' : heap) (Q : loc → Prop) :
  (∀ i, Q i →
     (λ y, (data y !! k, parent y)) <$> h' !! i =
     (λ y, (data y !! k, parent y)) <$> h !! i) →
  (∀ i y p, Q i → h !! i = Some y → parent y = Some p → Q p) →
  ∀ fuel d, Q d → Get_rec fuel k d h' = Get_rec fuel k d h.
Proof.
  intros Hagree Hup. induction fuel as [|fuel IH]; intros d Hd; [done|].
  simpl. pose proof (Hagree d Hd) as Ha.
  destruct (h !! d) as [y|] eqn:Hy, (h' !! d) as [y'|] eqn:Hy';
    simpl in Ha; try done.
  injection Ha as Hk Hp. rewrite Hk, Hp.
  destruct (data y !! k); [done|].
  destruct (parent y) as [p|] eqn:Hpar; [|done].
  apply IH. by eapply Hup.
Qed.

(** X7: after [Set(k, v)] on a logger, [Get(k)] on it returns [v] as
    found, whatever [v] is: a nil value is stored like any other and
    hides what the ancestors bind. *)
Theorem Set_then_Get (k : string) (v : any) (l : loc) (h : heap) (x : logger) :
  h !! l = Some x → ValidName k = true →
  ∃ h', logger_Set k v l h = Ok h' ∧ logger_Get k l h' = Ok (v, true).
Proof.
  intros Hx Hk. pose proof (lookup_lt_Some _ _ _ Hx) as Hl.
  rewrite (logger_Set_spec k v l h x Hk Hx). eexists. split; [done|].
  unfold logger_Get. rewrite length_insert.
  destruct (length h) as [|n] eqn:Hn; [lia|]. simpl.
  rewrite list_lookup_insert_eq by lia. simpl.
  by rewrite lookup_insert_eq.
Qed.

(** X8: [Set(k, v)] on a logger changes no other logger, no reading of
    another key anywhere, and no reading of [k] outside the loggers
    below the receiver. *)
Theorem Set_frame (k : string) (v : any) (l : loc) (h h' : heap) :
  wf h → logger_Set k v l h = Ok h' →
  (∀ i, i ≠ l → h' !! i = h !! i) ∧
  (∀ k' d, k' ≠ k → logger_Get k' d h' = logger_Get k' d h) ∧
  (∀ d, ¬ descendant h l d → logger_Get k d h' = logger_Get k d h).
Proof.
  intros Hwf Hrun.
  assert (Hother : ∀ i, i ≠ l → h' !! i = h !! i)
    by (intros i Hi; by eapply logger_Set_only_receiver).
  pose proof (same_shape_length _ _ (logger_Set_same_shape _ _ _ _ _ Hrun))
    as Hlen.
  unfold logger_Set in Hrun. destruct (ValidName k); simpl in Hrun; [|done].
  destruct (h !! l) as [x|] eqn:Hx; [|done]. injection Hrun as <-.
  split; [done|]. split.
  - intros k' d Hk'. unfold logger_Get. rewrite <- Hlen.
    apply (Get_rec_agree k' h _ (λ _, True)); [|done..].
    intros i _. destruct (decide (i = l)) as [->|Hi].
    + rewrite list_lookup_insert_eq by (by eapply lookup_lt_Some).
      rewrite Hx. simpl. by rewrite lookup_insert_ne.
    + by rewrite Hother.
  - intros d Hd. unfold logger_Get. rewrite <- Hlen.
    apply (Get_rec_agree k h _ (λ i, ¬ under h l i)).
    + intros i Hi. rewrite Hother; [done|].
      intros ->. apply Hi. constructor.
    + intros i y p Hi Hy Hp Hu. apply Hi. by apply (under_step h l i y p).
    + intros Hu. apply Hd. by apply under_descendant.
Qed.

(** X9: [Get(k)] returns the binding of the nearest logger on the way
    up that has one. *)
Theorem Get_nearest (k : string) (v : any) (h : heap) (p d : loc) (px : logger) :
  wf h → descendant h p d → h !! p = Some px → data px !! k = Some v →
  (∀ i y, descendant h p i → descendant h i d → i ≠ p →
          h !! i = Some y → data y !! k = None) →
  logger_Get k d h = Ok (v, true).
Proof.
  intros Hwf Hd%(descendant_under _ _ _ Hwf) Hpx Hv.
  induction Hd as [|d x q Hx Hq Hu IH]; intros Hnone.
  - by rewrite (logger_Get_unfold k h p px Hwf Hpx), Hv.
  - destruct (wf_parent h Hwf d x q Hx Hq) as [Hlt _].
    pose proof (under_le h p q Hwf Hu).
    rewrite (logger_Get_unfold k h d x Hwf Hx).
    rewrite (Hnone d x), Hq; [| |constructor|lia|done].
    + apply IH. intros i y Hpi Hiq. apply Hnone; [done|].
      apply under_descendant; [done|].
      apply (under_step h i d x q Hx Hq). by apply descendant_under.
    + apply under_descendant; [done|]. by apply (under_step h p d x q).
Qed.

Lemma logger_Get_none k h d :
  wf h → is_Some (h !! d) →
  (∀ i y, under h i d → h !! i = Some y → data y !! k = None) →
  logger_Get k d h = Ok (Nil, false).
Proof.
  intros Hwf. induction (lt_wf d) as [d _ IH]. intros [x Hx] Hnone.
  rewrite (logger_Get_unfold k h d x Hwf Hx).
  rewrite (Hnone d x); [|constructor|done].
  destruct (parent x) as [q|] eqn:Hq; [|done].
  destruct (wf_parent h Hwf d x q Hx Hq) as [Hlt (qx & Hqx & _)].
  apply IH; [done|by eexists|].
  intros i y Hi. apply Hnone. by apply (under_step h i d x q Hx Hq).
Qed.

(** X10: when no logger on the way up binds the key, [Get] returns nil
    as not found. *)
Theorem Get_unbound (k : string) (h : heap) (d : loc) :
  wf h → is_Some (h !! d) →
  (∀ i y, descendant h i d → h !! i = Some y → data y !! k = None) →
  logger_Get k d h = Ok (Nil, false).
Proof.
  intros Hwf Hd Hnone. apply logger_Get_none; [done..|].
  intros i y Hi. apply Hnone. by apply under_descendant.
Qed.

(** X11: [With(k, nil)] on a logger removes the key there and below:
    afterwards [Get(k)] on every logger at or below it returns what
    [Get(k)] on the parent of the receiver returned before, and nil as
    not found when the receiver has no parent. *)
Theorem With_nil_inherits (k : string) (h : heap) (p : loc) (x : logger) :
  wf h → h !! p = Some x → ValidName k = true →
  ∃ h', logger_With k Nil p h = Ok (p, h') ∧
    ∀ d, descendant h p d →
      logger_Get k d h' =
        match parent x with
        | Some q => logger_Get k q h
        | None => Ok (Nil, false)
        end.
Proof.
  intros Hwf Hx Hk.
  destruct (With_rec_spec k Nil h p x Hwf Hx Hk)
    as (h' & Hrun & Hsh & Hp & Hbelow & Hout).
  pose proof (same_shape_wf _ _ Hsh Hwf) as Hwf'.
  exists h'. unfold logger_With. rewrite Hrun. split; [done|].
  assert (Hup : ∀ q, parent x = Some q →
            logger_Get k q h' = logger_Get k q h).
  { intros q Hq. destruct (wf_parent h Hwf p x q Hx Hq) as [Hlt _].
    unfold logger_Get. rewrite <- (same_shape_length _ _ Hsh).
    apply (Get_rec_agree k h h' (λ i, (i < p)%nat)); [| |done].
    - intros i Hi. rewrite Hout; [done|].
      intros Hu%(under_le _ _ _ Hwf). lia.
    - intros i y r Hi Hy Hr.
      destruct (wf_parent h Hwf i y r Hy Hr). lia. }
  intros d Hd%(descendant_under _ _ _ Hwf).
  induction Hd as [|d y q Hy Hq Hu IH].
  - rewrite (logger_Get_unfold k h' p _ Hwf' Hp). simpl.
    rewrite lookup_delete_eq.
    destruct (parent x) as [q|] eqn:Hq; [by apply Hup|done].
  - destruct (wf_parent h Hwf d y q Hy Hq) as [Hlt _].
    pose proof (under_le h p q Hwf Hu).
    assert (Hd' : h' !! d = Some (del k y)).
    { apply Hbelow; [by apply (under_step h p d y q)|lia|done]. }
    rewrite (logger_Get_unfold k h' d _ Hwf' Hd'). simpl.
    by rewrite lookup_delete_eq, Hq.
Qed.

(** X13: [With(k, v)] returns its receiver, and in the heap it leaves
    every logger has its level, writer, encoder and every binding of
    another key as before; a logger that is not at or below the
    receiver is as before altogether. *)
Theorem With_frame (k : string) (v : any) (l l' : loc) (h h' : heap) :
  wf h → logger_With k v l h = Ok (l', h') →
  l' = l ∧ length h' = length h ∧
  ∀ i y, h !! i = Some y →
    ∃ y', h' !! i = Some y' ∧ level y' = level y ∧
          writer y' = writer y ∧ encoder y' = encoder y ∧
          parent y' = parent y ∧ name y' = name y ∧ subs y' = subs y ∧
          (∀ k', k' ≠ k → data y' !! k' = data y !! k') ∧
          (¬ descendant h l i → y' = y).
Proof.
  intros Hwf Hrun.
  destruct (logger_With_pointwise _ _ _ _ _ _ Hwf Hrun) as (-> & Hsh & Hpt).
  split; [done|]. split; [by rewrite (same_shape_length _ _ Hsh)|].
  intros i y Hy.
  destruct (Hpt i y Hy) as (y' & Hy' & Hl & Hw & He & Hd & Hout).
  destruct (same_shape_lookup _ _ _ _ Hsh Hy) as (y'' & Hy'' & Hs).
  simplify_eq. exists y'. split; [done|].
  split_and!; try done.
  intros Hn. apply Hout. intros Hu. apply Hn. by apply under_descendant.
Qed.

End DataExtras.

(* ===================================================================== *)
(** ** Further properties: the setters and what is written *)
(* ===================================================================== *)

Section SetterExtras.
Context {host : Host}.

(** A fan-out from a logger that is there, in terms of [descendant]. *)
Lemma propagate_descendants f l h x :
  (∀ y, shape (f y) = shape y) → (∀ y, f (f y) = f y) →
  wf h → h !! l = Some x →
  ∃ h', propagate f (S (length h)) l h = Ok h' ∧ same_shape h h' ∧
    (∀ d y, descendant h l d → h !! d = Some y → h' !! d = Some (f y)) ∧
    (∀ d, ¬ descendant h l d → h' !! d = h !! d).
Proof.
  intros Hsh Hid Hwf Hx.
  destruct (propagate_spec f Hsh Hid (S (length h)) l h Hwf)
    as (h' & Hrun & Hshape & Hin & Hout); [by eapply lookup_lt_Some|lia|].
  exists h'. split_and!; try done.
  - intros d y Hd%(descendant_under _ _ _ Hwf) Hy. by rewrite (Hin d Hd), Hy.
  - intros d Hd. apply Hout. intros Hu. apply Hd. by apply under_descendant.
Qed.

Lemma GetCaller_in_bounds stack skip :
  0 <= skip <= 9 → ∃ c, GetCaller stack skip = Ok c.
Proof.
  intros Hs. unfold GetCaller, Callers.
  destruct (_ >=? skip); [|eauto].
  destruct (Z.ltb_spec skip 0); [lia|].
  destruct (Z.ltb_spec 10 (skip + 1)); [lia|]. simpl.
  destruct (SplitN2 _) as [|? [|? [|? ?]]]; eauto.
Qed.

(** [log] by cases, for the two skip counts it is called with: a call
    that is not filtered does what the encoder does. *)
Lemma logger_log_cases stack now skip lv msg l h x :
  wf h → h !! l = Some x → 0 <= skip <= 1 →
  (encoder x = None ∨ writer x = None ∨ lv < level x →
     logger_log stack now skip lv msg l h = Ok []) ∧
  (∀ e w, encoder x = Some e → writer x = Some w → level x <= lv →
     ((∃ bytes, logger_log stack now skip lv msg l h = Ok [(w, bytes)]) ∨
      (∃ m r, IEncoder_Encode e l h r = Panic m ∧
              logger_log stack now skip lv msg l h = Panic m)) ∧
     (own_encoder e = true →
      ∃ bytes, logger_log stack now skip lv msg l h = Ok [(w, bytes)])).
Proof.
  intros Hwf Hx Hskip. pose proof (lookup_lt_Some _ _ _ Hx) as Hl.
  unfold logger_log. rewrite Hx. split.
  - intros [He|[Hw|Hlv]].
    + by rewrite He.
    + rewrite Hw. by destruct (encoder x).
    + destruct (encoder x), (writer x); try done.
      destruct (Z.geb_spec lv (level x)); [lia|done].
  - intros e w He Hw Hlv. rewrite He, Hw.
    destruct (Z.geb_spec lv (level x)); [|lia].
    destruct (GetCaller_in_bounds stack (skip + 4)) as [caller ->]; [lia|].
    simpl.
    set (record := Build_LogRecord _ _ _ _). split.
    + destruct (IEncoder_Encode_cases e l h record Hwf Hl)
        as [[bytes ->]|[m Hm]]; simpl; [eauto|].
      right. exists m, record. by rewrite Hm.
    + intros Hown.
      destruct (IEncoder_Encode_total e l h record Hown Hwf Hl)
        as [bytes ->].
      simpl. eauto.
Qed.

(** X14: [SetWriter] with a writer sets it on the receiver and on every
    logger below it and changes nothing else; with nil it changes
    nothing. *)
Theorem SetWriter_spec (h : heap) (l : loc) (x : logger) (w : Writer) :
  wf h → h !! l = Some x →
  (∃ h', logger_SetWriter (Some w) l h = Ok h' ∧
     (∀ d y, descendant h l d → h !! d = Some y →
             h' !! d = Some (set_writer w y)) ∧
     (∀ d, ¬ descendant h l d → h' !! d = h !! d)) ∧
  logger_SetWriter None l h = Ok h.
Proof.
  intros Hwf Hx. split; [|done].
  unfold logger_SetWriter. rewrite SetWriter_rec_propagate.
  destruct (propagate_descendants (set_writer w) l h x
              (set_writer_shape w) (set_writer_idem w) Hwf Hx)
    as (h' & Hrun & _ & Hin & Hout).
  by exists h'.
Qed.

(** X15: [SetEncoder] with an encoder sets it on the receiver and on
    every logger below it and changes nothing else; with nil it changes
    nothing. *)
Theorem SetEncoder_spec (h : heap) (l : loc) (x : logger) (e : IEncoder) :
  wf h → h !! l = Some x →
  (∃ h', logger_SetEncoder (Some e) l h = Ok h' ∧
     (∀ d y, descendant h l d → h !! d = Some y →
             h' !! d = Some (set_encoder e y)) ∧
     (∀ d, ¬ descendant h l d → h' !! d = h !! d)) ∧
  logger_SetEncoder None l h = Ok h.
Proof.
  intros Hwf Hx. split; [|done].
  unfold logger_SetEncoder. rewrite SetEncoder_rec_propagate.
  destruct (propagate_descendants (set_encoder e) l h x
              (set_encoder_shape e) (set_encoder_idem e) Hwf Hx)
    as (h' & Hrun & _ & Hin & Hout).
  by exists h'.
Qed.

(** X16: after [SetLevel(lv)] on a logger, a [Log] call on it or on a
    logger below it writes nothing when its level is under [lv].
    Otherwise the call reaches the encoder: it makes one call of
    [Write], or the encoder of the logger panics and the call panics
    with it, writing nothing; with an encoder made of the columns and
    text values of logger.go it makes one call of [Write]. *)
Theorem SetLevel_then_Log (h : heap) (p d : loc) (x : logger) (lv : Level) :
  reachable h → h !! p = Some x → descendant h p d →
  _minLevel <= lv <= _maxLevel →
  ∃ h', logger_SetLevel lv p h = Ok h' ∧
    ∀ stack now lv' msg,
      (lv' < lv → logger_Log stack now lv' msg d h' = Ok []) ∧
      (lv <= lv' →
         (∃ w bytes, logger_Log stack now lv' msg d h' = Ok [(w, bytes)]) ∨
         (∃ m r y e, h' !! d = Some y ∧ encoder y = Some e ∧
                     IEncoder_Encode e d h' r = Panic m ∧
                     logger_Log stack now lv' msg d h' = Panic m)) ∧
      (lv <= lv' →
         (∀ y e, h !! d = Some y → encoder y = Some e →
                 own_encoder e = true) →
         ∃ w bytes, logger_Log stack now lv' msg d h' = Ok [(w, bytes)]).
Proof.
  intros Hreach Hx Hd Hr.
  destruct (reachable_inv h Hreach) as (Hwf & _ & Hc).
  unfold logger_SetLevel. rewrite (SetLevel_rec_propagate lv Hr).
  destruct (propagate_descendants (set_level lv) p h x
              (set_level_shape lv) (set_level_idem lv) Hwf Hx)
    as (h' & Hrun & Hsh & Hin & _).
  exists h'. split; [done|]. intros stack now lv' msg.
  destruct (under_lookup h p d x Hx (descendant_under _ _ _ Hwf Hd))
    as [y Hy].
  destruct (Hc d y Hy) as [[w Hw] [e He]].
  destruct (logger_log_cases stack now 0 lv' msg d h' (set_level lv y)
              (same_shape_wf _ _ Hsh Hwf) (Hin d y Hd Hy))
    as [Hquiet Hloud]; [lia|].
  split_and!.
  - intros Hlt. apply Hquiet. right; right. done.
  - intros Hle.
    destruct (Hloud e w He Hw Hle) as [[[bytes Hb]|(m & r & Hm & Hp)] _].
    + left. by exists w, bytes.
    + right. exists m, r, (set_level lv y), e.
      split; [by apply Hin|]. by split.
  - intros Hle Hown. destruct (Hloud e w He Hw Hle) as [_ Hret].
    destruct (Hret (Hown y e Hy He)) as [bytes Hb]. by exists w, bytes.
Qed.

(** X17: after [SetWriter(w)] on [top], whatever a log call writes, on
    any logger, it writes to [w]. *)
Theorem SetWriter_top_redirects (h : heap) (w : Writer) :
  reachable h →
  ∃ h', logger_SetWriter (Some w) top h = Ok h' ∧
    ∀ stack now skip lv msg l ws,
      logger_log stack now skip lv msg l h' = Ok ws →
      ∀ entry, entry ∈ ws → entry.1 = w.
Proof.
  intros Hreach.
  destruct (reachable_inv h Hreach) as (Hwf & Hr & _).
  destruct Hr as [(t & Ht & Htp & Htn) Hr'].
  unfold logger_SetWriter. rewrite SetWriter_rec_propagate.
  destruct (propagate_descendants (set_writer w) top h t
              (set_writer_shape w) (set_writer_idem w) Hwf Ht)
    as (h' & Hrun & Hsh & Hin & _).
  exists h'. split; [done|].
  intros stack now skip lv msg l ws Hlog entry Hentry.
  unfold logger_log in Hlog.
  destruct (h' !! l) as [y'|] eqn:Hy'; [|done].
  destruct (same_shape_lookup _ _ _ _ (same_shape_sym _ _ Hsh) Hy')
    as (y & Hy & _).
  assert (Hrooted : rooted h) by (split; [by exists t|done]).
  pose proof (under_descendant h top l Hwf (under_top h l y Hwf Hrooted Hy))
    as Hd.
  rewrite (Hin l y Hd Hy) in Hy'. injection Hy' as <-. simpl in Hlog.
  destruct (encoder y); [|by simplify_eq; apply elem_of_nil in Hentry].
  destruct (lv >=? level y);
    [|by simplify_eq; apply elem_of_nil in Hentry].
  destruct (GetCaller stack (skip + 4)) as [c| |]; simpl in Hlog; [|done..].
  destruct (IEncoder_Encode _ _ _ _) as [bytes| |]; simpl in Hlog; [|done..].
  injection Hlog as <-. by apply list_elem_of_singleton in Hentry as ->.
Qed.

(** X18: a [SetLevel] on a logger wipes out an earlier [SetLevel] on
    it or on a logger below it: the two calls leave the heap that the
    later call alone leaves. *)
Theorem SetLevel_last_wins (h : heap) (p c : loc) (x : logger) (a b : Level) :
  wf h → h !! p = Some x → descendant h p c →
  _minLevel <= a <= _maxLevel → _minLevel <= b <= _maxLevel →
  ∃ h1 h2, logger_SetLevel a c h = Ok h1 ∧
           logger_SetLevel b p h1 = Ok h2 ∧
           logger_SetLevel b p h = Ok h2.
Proof.
  intros Hwf Hx Hc%(descendant_under _ _ _ Hwf) Ha Hb.
  destruct (under_lookup h p c x Hx Hc) as [cx Hcx].
  destruct (propagate_spec (set_level a) (set_level_shape a)
              (set_level_idem a) (S (length h)) c h Hwf)
    as (h1 & Hrun1 & Hsh1 & Hin1 & Hout1);
    [by eapply lookup_lt_Some|lia|].
  pose proof (same_shape_wf _ _ Hsh1 Hwf) as Hwf1.
  pose proof (same_shape_length _ _ Hsh1) as Hlen1.
  destruct (propagate_spec (set_level b) (set_level_shape b)
              (set_level_idem b) (S (length h1)) p h1 Hwf1)
    as (h2 & Hrun2 & Hsh2 & Hin2 & Hout2);
    [rewrite <- Hlen1; by eapply lookup_lt_Some|lia|].
  destruct (propagate_spec (set_level b) (set_level_shape b)
              (set_level_idem b) (S (length h)) p h Hwf)
    as (h2' & Hrun2' & Hsh2' & Hin2' & Hout2');
    [by eapply lookup_lt_Some|lia|].
  exists h1, h2. unfold logger_SetLevel.
  rewrite (SetLevel_rec_propagate a Ha), !(SetLevel_rec_propagate b Hb).
  split; [done|]. split; [done|].
  rewrite Hrun2'. f_equal. apply list_eq. intros i.
  destruct (under_dec h p i Hwf) as [Hu|Hnu].
  - rewrite (Hin2' i Hu), (Hin2 i (same_shape_under h h1 p i Hsh1 Hu)).
    destruct (under_dec h c i Hwf) as [Hcu|Hncu].
    + rewrite (Hin1 i Hcu). by destruct (h !! i).
    + by rewrite (Hout1 i Hncu).
  - rewrite (Hout2' i Hnu), Hout2, Hout1; [done| |].
    + intros Hcu. apply Hnu. by apply (under_trans h p c i).
    + intros Hu. apply Hnu.
      by apply (same_shape_under h1 h p i (same_shape_sym _ _ Hsh1)).
Qed.

(** X19: on every heap the package reaches, every logger has a writer
    and an encoder, and [Log] and the formatted calls are never stuck
    on the stack or the tree: under the level of the logger they write
    nothing; otherwise they make one call of [Write], on the writer of
    the logger, or the encoder of the logger panics and they panic
    with it, and with an encoder made of the columns and text values
    of logger.go they make the call of [Write]. *)
Theorem reachable_log (h : heap) (l : loc) (x : logger) :
  reachable h → h !! l = Some x →
  ∃ w e, writer x = Some w ∧ encoder x = Some e ∧
    ∀ stack now lv msg,
      (lv < level x →
         logger_Log stack now lv msg l h = Ok [] ∧
         logger_logf stack now lv msg l h = Ok []) ∧
      (level x <= lv →
         ((∃ b, logger_Log stack now lv msg l h = Ok [(w, b)]) ∨
          (∃ m r, IEncoder_Encode e l h r = Panic m ∧
                  logger_Log stack now lv msg l h = Panic m)) ∧
         ((∃ b, logger_logf stack now lv msg l h = Ok [(w, b)]) ∨
          (∃ m r, IEncoder_Encode e l h r = Panic m ∧
                  logger_logf stack now lv msg l h = Panic m))) ∧
      (level x <= lv → own_encoder e = true →
         ∃ b1 b2, logger_Log stack now lv msg l h = Ok [(w, b1)] ∧
                  logger_logf stack now lv msg l h = Ok [(w, b2)]).
Proof.
  intros Hreach Hx.
  destruct (reachable_inv h Hreach) as (Hwf & _ & Hc).
  destruct (Hc l x Hx) as [[w Hw] [e He]].
  exists w, e. split; [done|]. split; [done|].
  intros stack now lv msg. unfold logger_Log, logger_logf.
  destruct (logger_log_cases stack now 0 lv msg l h x Hwf Hx) as [Hq0 Hl0];
    [lia|].
  destruct (logger_log_cases stack now 1 lv msg l h x Hwf Hx) as [Hq1 Hl1];
    [lia|].
  split_and!.
  - intros Hlt. split; [apply Hq0|apply Hq1]; by right; right.
  - intros Hle. split; [apply (Hl0 e w He Hw Hle)|apply (Hl1 e w He Hw Hle)].
  - intros Hle Hown.
    destruct (Hl0 e w He Hw Hle) as [_ H0]. destruct (H0 Hown) as [b1 H1].
    destruct (Hl1 e w He Hw Hle) as [_ H0']. destruct (H0' Hown) as [b2 H2].
    by exists b1, b2.
Qed.

End SetterExtras.

(* ===================================================================== *)
(** ** Further properties: the column encoder *)
(* ===================================================================== *)

Section EncoderExtras.
Context {host : Host}.
Import GoStringFacts.

Lemma join_bar_concat t ts :
  t +:+ join_bar ts = String.concat "|" (t :: ts).
Proof.
  revert t. induction ts as [|t' ts IH]; intros t.
  - apply app_empty_r.
  - rewrite join_bar_cons.
    change (String.concat "|" (t :: t' :: ts))
      with (t +:+ "|" +:+ String.concat "|" (t' :: ts)).
    by rewrite <- IH.
Qed.

(** The field has [w] runes. *)
Lemma textField_runes w s :
  0 < w <= 1000000 → GoString.RuneCount (textField w s) = Z.to_nat w.
Proof.
  intros Hw.
  destruct (textField_small w s Hw) as (t & _ & Ht & _ & ->).
  rewrite RuneCount_pad. pose proof (RuneCount_le t).
  unfold GoString.len in Ht. lia.
Qed.

Lemma newlines_spaces n : newlines (GoString.spaces n) = 0%nat.
Proof. induction n as [|n IH]; [done|]. simpl. by rewrite IH. Qed.

Lemma newlines_drop n s : (newlines (GoString.drop n s) <= newlines s)%nat.
Proof.
  revert s. induction n as [|n IH]; intros [|c s]; simpl; try lia.
  specialize (IH s). lia.
Qed.

(** A field holds no newline that the text did not hold. *)
Lemma newlines_textField w s : (newlines (textField w s) <= newlines s)%nat.
Proof.
  assert (Ht : (newlines (if GoString.len s >? w
                          then GoString.drop
                                 (Z.to_nat (GoString.len s - w)) s
                          else s) <= newlines s)%nat).
  { destruct (GoString.len s >? w); [apply newlines_drop|lia]. }
  destruct (Z.leb_spec w 0) as [Hle|Hgt].
  - unfold textField. destruct (Z.leb_spec w 0); lia.
  - destruct (Z.leb_spec w 1000000) as [Hsmall|Hlarge].
    + destruct (textField_small w s) as (t & -> & _ & _ & ->); [lia|].
      rewrite newlines_app, newlines_spaces. lia.
    + rewrite (textField_large w s Hlarge), !newlines_app.
      change (newlines GoString.badWidthString) with 0%nat.
      change (newlines GoString.badPrecString) with 0%nat. lia.
Qed.

Lemma newlines_has_byte s :
  has_byte (ascii_of_nat 10) s = false → newlines s = 0%nat.
Proof.
  induction s as [|c s IH]; [done|]. simpl.
  intros [Hc Hs]%orb_false_iff. by rewrite Hc, (IH Hs).
Qed.

Lemma newlines_join_slash segs :
  Forall (λ s, ValidName s = true) segs → newlines (join_slash segs) = 0%nat.
Proof.
  induction 1 as [|s segs Hs _ IH]; [done|].
  change (join_slash (s :: segs)) with (String "/" (s +:+ join_slash segs)).
  simpl. rewrite newlines_app, IH, newlines_has_byte; [done|].
  apply has_byte_body; [done|by apply ValidName_all_body].
Qed.

Lemma newlines_uint d : newlines (NilEmpty.string_of_uint d) = 0%nat.
Proof. induction d; simpl; done. Qed.

Lemma newlines_Sprintf_5d z : newlines (Sprintf_5d z) = 0%nat.
Proof.
  unfold Sprintf_5d. rewrite newlines_app, newlines_spaces. simpl.
  unfold NilZero.string_of_int.
  destruct (Z.to_int z) as [d|d]; unfold NilZero.string_of_uint;
    destruct d; simpl; try done; apply newlines_uint.
Qed.

(** What [Encode] returns with the columns of logger.go. *)
Lemma Encode_result ce l h r :
  forallb own_column (columns ce) = true →
  wf h → (l < length h)%nat →
  ∃ ts, Forall2 (λ col t, column_Text col l h r = Ok t)
                (columns ce) ts ∧
        Encode ce l h r =
          Ok match ts with
             | [] => EmptyString
             | t :: ts' => (t +:+ join_bar ts') +:+ newline
             end.
Proof.
  intros Hown Hwf Hl.
  destruct (Encode_total ce l h r Hown Hwf Hl) as [bytes Hb].
  destruct (Encode_inv ce l h r bytes Hb) as (ts & Hts & ->). eauto.
Qed.

(** X20: [Encode] of a column encoder calls the [Text] of its columns
    in their order.  When they all return, it returns their texts with
    one separator between two of them and a newline at the end, and
    nothing for no column.  When one panics, after the columns in
    front of it have returned, [Encode] panics in the same way.  On a
    well-formed heap one or the other happens, and the first when the
    columns and their text values are those of logger.go. *)
Theorem Encode_join (ce : columnEncoder) (l : loc) (h : heap)
  (r : LogRecord) :
  (∀ ts, Forall2 (λ col t, column_Text col l h r = Ok t) (columns ce) ts →
     Encode ce l h r =
       Ok (if decide (ts = []) then EmptyString
           else String.concat "|" ts +:+ newline)) ∧
  (∀ pre ts col post m,
     columns ce = (pre ++ col :: post)%list →
     Forall2 (λ col t, column_Text col l h r = Ok t) pre ts →
     column_Text col l h r = Panic m →
     Encode ce l h r = Panic m) ∧
  (wf h → is_Some (h !! l) →
     ((∃ bytes, Encode ce l h r = Ok bytes) ∨
      (∃ m, Encode ce l h r = Panic m)) ∧
     (forallb own_column (columns ce) = true →
      ∃ bytes, Encode ce l h r = Ok bytes)).
Proof.
  split_and!.
  - intros ts Hts. rewrite (Encode_returns ce ts l h r Hts).
    destruct ts as [|t ts]; [done|].
    rewrite decide_False by done. by rewrite join_bar_concat.
  - intros pre ts col post m. apply Encode_panics.
  - intros Hwf Hl%lookup_lt_is_Some_1. split.
    + by apply Encode_cases.
    + intros Hown. by apply Encode_total.
Qed.

(** X21: a text value of logger.go with a width above zero, and not
    above the million that [fmt] takes, renders to exactly that many
    runes, whatever it shows; above a million it renders to the two
    error marks of [fmt] and what follows them. *)
Theorem Text_width (c : ITextValue) (w : Z) (l : loc) (h : heap)
  (r : LogRecord) (t : string) :
  text_width c = Some w → 0 < w → Text c l h r = Ok t →
  (w <= 1000000 → Z.of_nat (GoString.RuneCount t) = w) ∧
  (1000000 < w → ∃ rest, t = "%!(BADWIDTH)%!(BADPREC)" +:+ rest).
Proof.
  intros Hc Hw Ht.
  assert (Hfield : ∃ s, t = textField w s).
  { destruct c as [|fmt|w'|w'|w'|w'|w'|fmt nm w'|f]; simpl in Hc;
      simplify_eq; simpl in Ht.
    - injection Ht as <-. eauto.
    - destruct (logger_Name l h) as [n| |]; simpl in Ht; [|done..].
      injection Ht as <-. eauto.
    - injection Ht as <-. eauto.
    - injection Ht as <-. eauto.
    - injection Ht as <-. eauto.
    - destruct (logger_Get nm l h) as [[v ok]| |]; simpl in Ht; [|done..].
      injection Ht as <-. eauto. }
  destruct Hfield as [s ->]. split.
  - intros Hle. rewrite textField_runes; lia.
  - intros Hgt. rewrite (textField_large w s Hgt). eauto.
Qed.

(** X22: a data column whose key no logger on the way up binds shows
    spaces only, as many as its width, and nothing for a width of zero
    or less; for a width above the million that [fmt] takes it shows
    the two error marks of [fmt]. *)
Theorem DataText_unbound (fmt k : string) (w : Z) (l : loc) (h : heap)
  (r : LogRecord) :
  wf h → is_Some (h !! l) →
  (∀ i y, descendant h i l → h !! i = Some y → data y !! k = None) →
  Text (DataText fmt k w) l h r =
    Ok (if 1000000 <? w then "%!(BADWIDTH)%!(BADPREC)"
        else GoString.spaces (Z.to_nat w)).
Proof.
  intros Hwf Hl Hnone. unfold DataText. simpl.
  rewrite (logger_Get_none k h l Hwf Hl).
  - simpl. f_equal.
    destruct (Z.ltb_spec 1000000 w) as [Hlarge|Hsmall].
    + rewrite (textField_large w EmptyString Hlarge).
      change (GoString.len EmptyString) with 0.
      destruct (Z.gtb_spec 0 w); [lia|]. done.
    + destruct (Z.leb_spec w 0) as [Hle|Hgt].
      * unfold textField. destruct (Z.leb_spec w 0); [|lia].
        by replace (Z.to_nat w) with 0%nat by lia.
      * destruct (textField_small w EmptyString) as (t & -> & _ & _ & ->);
          [lia|].
        change (GoString.len EmptyString) with 0.
        destruct (Z.gtb_spec 0 w); [lia|].
        change (GoString.RuneCount EmptyString) with 0%nat.
        by rewrite Nat.sub_0_r.
  - intros i y Hi. apply Hnone. by apply under_descendant.
Qed.

(** The line of [DefaultEncoder], column by column. *)
Lemma DefaultEncoder_texts l h r x :
  wf h → rooted h → h !! l = Some x →
  Encode DefaultEncoder l h r =
    Ok (Time_Format (r_Time r) default_layout +:+ "|" +:+
        textField 5 (Level_String (r_Level r)) +:+ "|" +:+
        textField 10 (join_slash (path_of h l)) +:+ "|" +:+
        textField 15 (Package (r_Caller r) +:+ "." +:+
                      Function (r_Caller r) +:+ "()") +:+ "|" +:+
        textField 30 (File (r_Caller r) +:+ "(" +:+
                      Sprintf_5d (Line (r_Caller r)) +:+ ")") +:+ "|" +:+
        r_Message r +:+ newline).
Proof.
  intros Hwf Hr Hx. pose proof (lookup_lt_Some _ _ _ Hx) as Hl.
  destruct (Encode_result DefaultEncoder l h r eq_refl Hwf Hl)
    as (ts & Hts & ->).
  change (columns DefaultEncoder) with
    [Column "time" (TimeText default_layout); Column "level" (LevelText 5);
     Column "logger" (NameText 10); Column "module" (ModuleText 15);
     Column "code" (CodeText 30); Column "message" (MessageText 0)] in Hts.
  repeat match goal with
         | H : Forall2 _ (_ :: _) _ |- _ =>
             apply Forall2_cons_inv_l in H as (? & ? & ? & H & ->)
         | H : Forall2 _ [] _ |- _ => apply Forall2_nil_inv_l in H as ->
         end.
  repeat match goal with
         | H : column_Text _ _ _ _ = Ok _ |- _ => simpl in H
         end.
  rewrite (logger_Name_path h l x Hwf Hr Hx) in *. simpl in *.
  simplify_eq. f_equal.
  change (textField 0 (r_Message r)) with (r_Message r).
  by rewrite !app_assoc.
Qed.

(** X23: the line of the default encoder is the time in the layout
    with milliseconds, the level in 5 runes, the end of the full name
    in 10, package and function in 15, file and line in 30, then the
    message as it is and a newline, with a separator between two
    columns. *)
Theorem DefaultEncoder_line (l : loc) (h : heap) (r : LogRecord) (x : logger) :
  reachable h → h !! l = Some x →
  ∃ nm, logger_Name l h = Ok nm ∧
    Encode DefaultEncoder l h r =
      Ok (Time_Format (r_Time r) default_layout +:+ "|" +:+
          textField 5 (Level_String (r_Level r)) +:+ "|" +:+
          textField 10 nm +:+ "|" +:+
          textField 15 (Package (r_Caller r) +:+ "." +:+
                        Function (r_Caller r) +:+ "()") +:+ "|" +:+
          textField 30 (File (r_Caller r) +:+ "(" +:+
                        Sprintf_5d (Line (r_Caller r)) +:+ ")") +:+ "|" +:+
          r_Message r +:+ newline).
Proof.
  intros Hreach Hx. destruct (reachable_inv h Hreach) as (Hwf & Hr & _).
  exists (join_slash (path_of h l)).
  split; [by eapply logger_Name_path|by eapply DefaultEncoder_texts].
Qed.

(** X24: with the default encoder a record is one line as soon as the
    texts of its time and level, the package, function and file of its
    caller and its message hold no newline: the columns for the name
    of the logger and for the line number never hold one. *)
Theorem DefaultEncoder_one_line (l : loc) (h : heap) (r : LogRecord)
  (x : logger) :
  reachable h → h !! l = Some x →
  newlines (Time_Format (r_Time r) default_layout) = 0%nat →
  newlines (Level_String (r_Level r)) = 0%nat →
  newlines (Package (r_Caller r)) = 0%nat →
  newlines (Function (r_Caller r)) = 0%nat →
  newlines (File (r_Caller r)) = 0%nat →
  newlines (r_Message r) = 0%nat →
  ∃ bytes, Encode DefaultEncoder l h r = Ok bytes ∧ one_line bytes.
Proof.
  intros Hreach Hx Ht Hlv Hp Hf Hfile Hm.
  destruct (reachable_inv h Hreach) as (Hwf & Hr & _).
  eexists. split; [by eapply DefaultEncoder_texts|].
  split.
  - eapply (Encode_newline DefaultEncoder l h r); [done|].
    by eapply DefaultEncoder_texts.
  - pose proof (newlines_textField 5 (Level_String (r_Level r))).
    pose proof (newlines_textField 10 (join_slash (path_of h l))).
    pose proof (newlines_join_slash _ (path_of_valid h l Hwf Hr)).
    pose proof (newlines_textField 15
                  (Package (r_Caller r) +:+ "." +:+
                   Function (r_Caller r) +:+ "()")) as H15.
    pose proof (newlines_textField 30
                  (File (r_Caller r) +:+ "(" +:+
                   Sprintf_5d (Line (r_Caller r)) +:+ ")")) as H30.
    rewrite !newlines_app in H15, H30.
    rewrite newlines_Sprintf_5d in H30.
    rewrite !newlines_app, Ht, Hm. simpl in *. lia.
Qed.

End EncoderExtras.

(* ===================================================================== *)
(** ** Further properties: the caller *)
(* ===================================================================== *)

Section CallerExtras.
Context {host : Host}.

Lemma Callers_n stack :
  (Callers stack).1 = Z.of_nat (Nat.min 10 (length stack)).
Proof. unfold Callers. simpl. by rewrite length_take. Qed.

Lemma Callers_pc stack i :
  (i < 10)%nat →
  (Callers stack).2 !! i =
    Some (if decide (i < length stack)%nat then stack !! i else None).
Proof.
  intros Hi. unfold Callers. simpl.
  case_decide as Hlt.
  - rewrite lookup_app_l by (rewrite length_fmap, length_take; lia).
    rewrite list_lookup_fmap, lookup_take_lt by lia.
    by destruct (lookup_lt_is_Some_2 stack i Hlt) as [f ->].
  - rewrite lookup_app_r by (rewrite length_fmap, length_take; lia).
    rewrite length_fmap, length_take.
    apply lookup_replicate. split; [done|]. lia.
Qed.

(** The caller made from a frame keeps its file and its line. *)
Lemma GetCaller_unfold stack skip :
  GetCaller stack skip =
    if Z.of_nat (Nat.min 10 (length stack)) >=? skip then
      if (skip <? 0) || (10 <? skip + 1) then
        Panic "slice bounds out of range"
      else
        let frame :=
          match (Callers stack).2 !! Z.to_nat skip with
          | Some (Some f) => f
          | _ => zeroFrame
          end in
        let d := path_Dir (frame_Function frame) in
        let d := if String.eqb d "." then EmptyString else d in
        match SplitN2 (path_Base (frame_Function frame)) with
        | [p0; p1] =>
            Ok {| Package := d +:+ "/" +:+ p0; Function := p1;
                  File := frame_File frame; Line := frame_Line frame |}
        | _ =>
            Ok {| Package := "?"; Function := frame_Function frame;
                  File := frame_File frame; Line := frame_Line frame |}
        end
    else Ok unknownCaller.
Proof.
  unfold GetCaller. rewrite <- Callers_n. by destruct (Callers stack).
Qed.

(** X25: for a skip count below the number of frames, and below the
    ten that are read, [GetCaller] returns a caller with the file and
    the line of the frame at that index. *)
Theorem GetCaller_frame (stack : list Frame) (skip : Z) (f : Frame) :
  0 <= skip <= 9 → stack !! Z.to_nat skip = Some f →
  ∃ c, GetCaller stack skip = Ok c ∧
       File c = frame_File f ∧ Line c = frame_Line f.
Proof.
  intros Hs Hf. pose proof (lookup_lt_Some _ _ _ Hf) as Hlt.
  rewrite GetCaller_unfold, Callers_pc by lia.
  rewrite decide_True by done. rewrite Hf.
  destruct (Z.geb_spec (Z.of_nat (Nat.min 10 (length stack))) skip); [|lia].
  destruct (Z.ltb_spec skip 0); [lia|].
  destruct (Z.ltb_spec 10 (skip + 1)); [lia|]. simpl.
  destruct (SplitN2 _) as [|? [|? [|? ?]]]; by eexists.
Qed.

(** X26: [GetCaller] panics exactly for a negative skip count and for
    a skip count of ten on a stack of ten frames or more; it is never
    stuck. *)
Theorem GetCaller_panics (stack : list Frame) (skip : Z) :
  ((∃ msg, GetCaller stack skip = Panic msg) ↔
   skip < 0 ∨ (skip = 10 ∧ (10 <= length stack)%nat)) ∧
  GetCaller stack skip ≠ Stuck.
Proof.
  rewrite GetCaller_unfold.
  destruct (Z.geb_spec (Z.of_nat (Nat.min 10 (length stack))) skip) as [Hn|Hn].
  - destruct (Z.ltb_spec skip 0) as [Hneg|Hpos]; simpl.
    { split; [|done]. split; [intros _; by left|by eexists]. }
    destruct (Z.ltb_spec 10 (skip + 1)) as [Hhi|Hlo]; simpl.
    { split; [|done]. split; [intros _; right; lia|by eexists]. }
    destruct (SplitN2 _) as [|? [|? [|? ?]]];
      (split; [|done]); (split; [by intros [? ?]|lia]).
  - split; [|done]. split; [by intros [? ?]|lia].
Qed.

(** X27: at a skip count equal to the number of frames, nine at most,
    [GetCaller] does not return the marker for "unknown" but a caller
    with an empty file and line zero; above ten it returns the marker
    however deep the stack is. *)
Theorem GetCaller_boundary (stack : list Frame) (skip : Z) :
  (skip = Z.of_nat (length stack) → skip <= 9 →
     ∃ c, GetCaller stack skip = Ok c ∧
          File c = EmptyString ∧ Line c = 0) ∧
  (10 < skip → GetCaller stack skip = Ok unknownCaller).
Proof.
  rewrite GetCaller_unfold. split.
  - intros Hs Hle. rewrite Callers_pc by lia.
    rewrite decide_False by lia.
    destruct (Z.geb_spec (Z.of_nat (Nat.min 10 (length stack))) skip); [|lia].
    destruct (Z.ltb_spec skip 0); [lia|].
    destruct (Z.ltb_spec 10 (skip + 1)); [lia|]. simpl.
    destruct (SplitN2 _) as [|? [|? [|? ?]]]; by eexists.
  - intros Hs.
    destruct (Z.geb_spec (Z.of_nat (Nat.min 10 (length stack))) skip);
      [lia|done].
Qed.

(** X28: [ForThisPackage] looks up the package of the function that
    called it, frame 3 of the stack after [runtime.Callers],
    [GetCaller] and [ForThisPackage] itself: the directory of the
    function (nothing for ["."]), a slash, and the base of the function
    up to its first dot.  When the segments of this name are valid
    names, the call returns a logger other than [top] whose full name
    is these segments, each after a slash; and whenever the call
    returns, it returns a logger other than [top]. *)
Theorem ForThisPackage_caller (stack : list Frame) (h : heap) (f : Frame)
  (pkg fn : string) :
  reachable h → stack !! 3%nat = Some f →
  SplitN2 (path_Base (frame_Function f)) = [pkg; fn] →
  let d := path_Dir (frame_Function f) in
  let nm := (if String.eqb d "." then EmptyString else d) +:+ "/" +:+ pkg in
  ForThisPackage stack h = Logger nm h ∧
  (valid_path nm →
     ∃ l h', ForThisPackage stack h = Ok (l, h') ∧ l ≠ top ∧
             logger_Name l h' = Ok (join_slash (segments nm))) ∧
  (∀ l h', ForThisPackage stack h = Ok (l, h') → l ≠ top ∧ reachable h').
Proof.
  intros Hreach Hf Hsplit d nm.
  pose proof (lookup_lt_Some _ _ _ Hf) as Hlen.
  assert (Hrun : ForThisPackage stack h = Logger nm h).
  { unfold ForThisPackage. rewrite GetCaller_unfold.
    destruct (Z.geb_spec (Z.of_nat (Nat.min 10 (length stack))) 3); [|lia].
    change (Z.to_nat 3) with 3%nat.
    rewrite Callers_pc by lia. rewrite decide_True by done.
    rewrite Hf. simpl. by rewrite Hsplit. }
  rewrite Hrun. split_and!; [done| |].
  - intros Hvalid.
    destruct (reachable_inv h Hreach) as (Hwf & [(t & Ht & _) _] & _).
    destruct (Logger_valid_path nm h Hwf (mk_is_Some _ _ Ht) Hvalid)
      as (leaf & h' & Hlog & Hne & Hres & _ & Hwf' & _).
    exists leaf, h'. split; [done|]. split; [done|].
    destruct (reachable_inv h' (reach_Logger _ _ _ _ Hreach Hlog))
      as (_ & Hr' & _).
    assert (Htop' : is_Some (h' !! top))
      by (destruct Hr' as [(t' & -> & _) _]; by eexists).
    destruct (resolve_valid h' top _ leaf Hwf' Htop' Hres) as [lx Hlx].
    rewrite (logger_Name_path h' leaf lx Hwf' Hr' Hlx).
    by rewrite (path_of_resolve h' _ leaf Hwf' Hr' Hres).
  - intros l h' Hlog. split; [|by eapply reach_Logger].
    unfold Logger in Hlog.
    destruct (Logger_loop _ top h) as [[c h1]| |]; simpl in Hlog; [|done..].
    destruct (Nat.eqb_spec c top); [done|]. by injection Hlog as <- _.
Qed.

End CallerExtras.

(* ===================================================================== *)
(** ** Further properties: slashes, and the earlier Logger type *)
(* ===================================================================== *)

Section SlashExtras.
Context {host : Host}.
Import GoStringFacts.

Lemma Split_nonempty sep s : GoString.Split sep s ≠ [].
Proof.
  destruct s as [|c s]; simpl; [done|].
  destruct (Ascii.eqb c sep); [done|]. by destruct (GoString.Split sep s).
Qed.

Lemma Split_snoc_sep sep s :
  GoString.Split sep (s +:+ String sep EmptyString) =
  (GoString.Split sep s ++ [EmptyString])%list.
Proof.
  induction s as [|c s IH].
  - simpl. by rewrite Ascii.eqb_refl.
  - rewrite app_cons. simpl. rewrite IH.
    destruct (Ascii.eqb c sep); [done|].
    pose proof (Split_nonempty sep s).
    by destruct (GoString.Split sep s).
Qed.

Lemma segments_slash_l nm : segments ("/" +:+ nm) = segments nm.
Proof. done. Qed.

Lemma segments_slash_r nm : segments (nm +:+ "/") = segments nm.
Proof.
  unfold segments. rewrite Split_snoc_sep, filter_app.
  rewrite filter_cons_False, filter_nil by done. apply app_nil_r.
Qed.

(** X5: [Logger] sees a path name through its non-empty segments only:
    a slash in front or at the end makes no difference, and two names
    with the same segments are looked up alike. *)
Theorem Logger_same_segments (nm nm' : string) (h : heap) :
  Logger ("/" +:+ nm) h = Logger nm h ∧
  Logger (nm +:+ "/") h = Logger nm h ∧
  (segments nm = segments nm' → Logger nm h = Logger nm' h).
Proof.
  split_and!.
  - by rewrite !Logger_segments, segments_slash_l.
  - by rewrite !Logger_segments, segments_slash_r.
  - intros Heq. by rewrite !Logger_segments, Heq.
Qed.

End SlashExtras.

Section LegacyExtras.

Lemma Legacy_Name_rec_app fuel l (h t : list Legacy.Logger) s :
  Legacy.Name_rec fuel l h = Ok s → Legacy.Name_rec fuel l (h ++ t) = Ok s.
Proof.
  revert l s. induction fuel as [|fuel IH]; intros l s; [done|]. simpl.
  destruct (h !! l) as [x|] eqn:Hx; [|done].
  rewrite (lookup_app_l_Some _ _ _ _ Hx).
  destruct (Legacy.parent x) as [p|]; [|done].
  destruct (Legacy.Name_rec fuel p h) as [pn| |] eqn:Hp; simpl; [|done..].
  by rewrite (IH p pn Hp).
Qed.

Lemma Legacy_Get_rec_app fuel n l (h t : list Legacy.Logger) v :
  Legacy.Get_rec fuel n l h = Ok v →
  Legacy.Get_rec fuel n l (h ++ t) = Ok v.
Proof.
  revert l. induction fuel as [|fuel IH]; intros l; [done|]. simpl.
  destruct (h !! l) as [x|] eqn:Hx; [|done].
  rewrite (lookup_app_l_Some _ _ _ _ Hx).
  destruct (Legacy.data x ≫= (.!! n)); [done|].
  destruct (Legacy.parent x) as [p|]; [apply IH|done].
Qed.

(** X30: the logger that [Named] returns has neither the name it was
    given nor a map of its own: its full name is the name of its parent
    followed by a dot, [Get] on it returns what [Get] on its parent
    returns, and [With] on it panics. *)
Theorem Legacy_Named (n : string) (l : loc) (h : list Legacy.Logger)
  (pn : string) :
  Legacy.Name l h = Ok pn →
  let '(c, h') := Legacy.Named n l h in
  Legacy.Name c h' = Ok (pn +:+ ".") ∧
  (∀ k v, Legacy.Get k l h = Ok v → Legacy.Get k c h' = Ok v) ∧
  (∀ k v, Legacy.With k v c h' = Panic "assignment to entry in nil map").
Proof.
  intros Hpn. unfold Legacy.Named.
  set (child := Legacy.Build_Logger _ _ _).
  assert (Hc : (h ++ [child])%list !! length h = Some child).
  { rewrite lookup_app_r by done. by rewrite Nat.sub_diag. }
  split_and!.
  - unfold Legacy.Name. rewrite length_app, Nat.add_1_r. simpl.
    rewrite Hc. simpl.
    by rewrite (Legacy_Name_rec_app _ _ _ _ _ Hpn).
  - intros k v Hv. unfold Legacy.Get. rewrite length_app, Nat.add_1_r.
    simpl. rewrite Hc. simpl.
    by apply Legacy_Get_rec_app.
  - intros k v. unfold Legacy.With. by rewrite Hc.
Qed.

End LegacyExtras.

(* ===================================================================== *)
(** ** The further properties at work *)
(* ===================================================================== *)

Section ExtraInstances.
Import Example Example2.

Lemma reachable_tree : reachable tree.
Proof. exact (reach_Logger "svc/worker" init_top 2%nat tree reach_init tree_built). Qed.

Lemma tree_svc :
  tree !! 1%nat = Some (node (Some 0%nat) "svc" ∅ {[ "worker" := 2%nat ]}
                             DefaultEncoder).
Proof. reflexivity. Qed.

Lemma tree_worker :
  tree !! 2%nat = Some (node (Some 1%nat) "worker" ∅ ∅ DefaultEncoder).
Proof. reflexivity. Qed.

Lemma descendant_svc_worker : descendant tree 1%nat 2%nat.
Proof.
  apply (desc_sub tree 1%nat _ "worker" 2%nat 2%nat tree_svc);
    [by vm_compute|constructor].
Qed.

Lemma tree_unbound k i y :
  tree !! i = Some y → data y !! k = None.
Proof.
  destruct i as [|[|[|i]]]; simpl; intros [= <-]; try apply lookup_empty.
Qed.

Lemma tree_k_built : logger_Set "k" (Str "v") 1%nat tree = Ok tree_k.
Proof. by vm_compute. Qed.

Lemma tree_db_built : Logger "svc/db" tree = Ok (3%nat, tree_db).
Proof. by vm_compute. Qed.

Lemma tree_with_built :
  logger_With "k" (Str "v") 1%nat tree = Ok (1%nat, tree_with).
Proof. by vm_compute. Qed.

Lemma wf_tree_k : wf tree_k.
Proof. exact (logger_Set_wf _ _ _ _ _ wf_tree tree_k_built). Qed.

Lemma descendant_tree_k : descendant tree_k 1%nat 2%nat.
Proof.
  apply (desc_sub tree_k 1%nat
           (default (node None EmptyString ∅ ∅ DefaultEncoder) (tree_k !! 1%nat))
           "worker" 2%nat 2%nat); [by vm_compute|by vm_compute|constructor].
Qed.

Lemma ValidName_bytes_witness :
  ValidName "go-msvc.log" = true ∧ has_byte "/" "go-msvc.log" = false.
Proof.
  split; [reflexivity|].
  by destruct (ValidName_bytes "go-msvc.log" eq_refl) as (_ & _ & H & _).
Defined.

Lemma Logger_full_name_witness :
  reachable init_top ∧ valid_path "svc/worker" ∧
  ∃ leaf h', Logger "svc/worker" init_top = Ok (leaf, h') ∧
             logger_Name leaf h' = Ok "/svc/worker".
Proof.
  split; [constructor|]. split; [apply valid_path_svc_worker|].
  exact (Logger_full_name "svc/worker" init_top reach_init
           valid_path_svc_worker).
Defined.

Lemma Logger_Name_roundtrip_witness :
  reachable tree ∧
  ∃ nm, logger_Name 2%nat tree = Ok nm ∧ Logger nm tree = Ok (2%nat, tree).
Proof.
  split; [apply reachable_tree|].
  destruct (Logger_Name_roundtrip tree 2%nat _ reachable_tree tree_worker)
    as [Hrt _].
  by apply Hrt.
Defined.

Lemma logger_Name_injective_witness :
  logger_Name 2%nat tree = logger_Name 2%nat tree ∧
  logger_Name 1%nat tree ≠ logger_Name 2%nat tree.
Proof.
  split; [reflexivity|]. intros Heq.
  pose proof (logger_Name_injective tree 1%nat 2%nat reachable_tree
                (mk_is_Some _ _ tree_svc) (mk_is_Some _ _ tree_worker) Heq).
  discriminate.
Defined.

Lemma Logger_same_segments_witness :
  Logger "/svc/worker/" tree = Logger "svc/worker" tree.
Proof.
  destruct (Logger_same_segments "svc/worker/" "svc/worker" tree)
    as (Hl & _ & _).
  destruct (Logger_same_segments "svc/worker" "svc/worker" tree)
    as (_ & Hr & _).
  change ("/" +:+ "svc/worker/") with "/svc/worker/" in Hl.
  change ("svc/worker" +:+ "/") with "svc/worker/" in Hr.
  by rewrite Hl, Hr.
Defined.

Lemma Logger_keeps_loggers_witness :
  Logger "svc/db" tree = Ok (3%nat, tree_db) ∧
  (length tree <= length tree_db)%nat ∧
  ∃ y', tree_db !! 1%nat = Some y' ∧ subs y' !! "worker" = Some 2%nat.
Proof.
  split; [apply tree_db_built|].
  destruct (Logger_keeps_loggers "svc/db" tree 3%nat tree_db tree_db_built)
    as [Hlen Hkeep].
  split; [done|].
  destruct (Hkeep 1%nat _ tree_svc) as (y' & Hy' & _ & _ & _ & _ & _ & _ & Hs).
  exists y'. split; [done|]. apply Hs. by vm_compute.
Defined.

Lemma Set_then_Get_witness :
  ValidName "k" = true ∧
  ∃ h', logger_Set "k" Nil 2%nat tree = Ok h' ∧
        logger_Get "k" 2%nat h' = Ok (Nil, true).
Proof.
  split; [reflexivity|].
  exact (Set_then_Get "k" Nil 2%nat tree _ tree_worker eq_refl).
Defined.

Lemma Set_frame_witness :
  wf tree ∧ logger_Set "k" (Str "v") 1%nat tree = Ok tree_k ∧
  tree_k !! 2%nat = tree !! 2%nat ∧
  logger_Get "j" 2%nat tree_k = logger_Get "j" 2%nat tree.
Proof.
  split; [apply wf_tree|]. split; [apply tree_k_built|].
  destruct (Set_frame "k" (Str "v") 1%nat tree tree_k wf_tree tree_k_built)
    as (Hother & Hkeys & _).
  split; [by apply Hother|by apply Hkeys].
Defined.

Lemma Get_nearest_witness :
  wf tree_k ∧ logger_Get "k" 2%nat tree_k = Ok (Str "v", true).
Proof.
  split; [apply wf_tree_k|].
  apply (Get_nearest "k" (Str "v") tree_k 1%nat 2%nat
           (default (node None EmptyString ∅ ∅ DefaultEncoder) (tree_k !! 1%nat))
           wf_tree_k).
  - apply descendant_tree_k.
  - by vm_compute.
  - by vm_compute.
  - intros i y Hp Hd Hne Hy.
    apply (descendant_under _ _ _ wf_tree_k) in Hp, Hd.
    apply (under_le _ _ _ wf_tree_k) in Hp, Hd.
    assert (i = 2%nat) as -> by lia.
    assert (Hw : tree_k !! 2%nat = tree !! 2%nat) by (by vm_compute).
    rewrite Hw in Hy. by apply (tree_unbound "k") in Hy.
Defined.

Lemma Get_unbound_witness :
  wf tree ∧ logger_Get "k" 2%nat tree = Ok (Nil, false).
Proof.
  split; [apply wf_tree|].
  apply (Get_unbound "k" tree 2%nat wf_tree (mk_is_Some _ _ tree_worker)).
  intros i y _. apply tree_unbound.
Defined.

Lemma With_nil_inherits_witness :
  wf tree_k ∧
  ∃ h', logger_With "k" Nil 1%nat tree_k = Ok (1%nat, h') ∧
        logger_Get "k" 2%nat h' = Ok (Nil, false).
Proof.
  split; [apply wf_tree_k|].
  destruct (With_nil_inherits "k" tree_k 1%nat
              (default (node None EmptyString ∅ ∅ DefaultEncoder) (tree_k !! 1%nat))
              wf_tree_k) as (h' & Hrun & Hget);
    [by vm_compute|reflexivity|].
  exists h'. split; [done|]. rewrite Hget.
  - by vm_compute.
  - apply descendant_tree_k.
Defined.

Lemma With_pushdown_witness :
  wf tree ∧ Str "v" ≠ Nil ∧
  ∃ h', logger_With "k" (Str "v") 1%nat tree = Ok (1%nat, h') ∧
        logger_Get "k" 2%nat h' = Ok (Str "v", true).
Proof.
  split; [apply wf_tree|]. split; [done|].
  destruct (With_pushdown "k" (Str "v") tree 1%nat _ wf_tree tree_svc)
    as (h' & Hrun & _ & _ & Hget); [reflexivity|done|].
  exists h'. split; [done|]. apply Hget. apply descendant_svc_worker.
Defined.

Lemma With_frame_witness :
  wf tree ∧ logger_With "k" (Str "v") 1%nat tree = Ok (1%nat, tree_with) ∧
  length tree_with = length tree ∧ tree_with !! 0%nat = tree !! 0%nat.
Proof.
  split; [apply wf_tree|]. split; [apply tree_with_built|].
  destruct (With_frame "k" (Str "v") 1%nat 1%nat tree tree_with wf_tree
              tree_with_built) as (_ & Hlen & Hpt).
  split; [done|].
  destruct (Hpt 0%nat _ eq_refl) as (y' & Hy' & _ & _ & _ & _ & _ & _ & _ & Hout).
  rewrite Hy'. change (tree !! 0%nat) with (Some (node None EmptyString ∅ {[ "svc" := 1%nat ]} DefaultEncoder)).
  f_equal. apply Hout.
  intros Hd%(descendant_under _ _ _ wf_tree)%(under_le _ _ _ wf_tree). lia.
Defined.

Lemma SetWriter_spec_witness :
  wf tree ∧
  ∃ h', logger_SetWriter (Some 7%nat) 1%nat tree = Ok h' ∧
        (writer <$> h' !! 2%nat) = Some (Some 7%nat) ∧
        logger_SetWriter None 1%nat tree = Ok tree.
Proof.
  split; [apply wf_tree|].
  destruct (SetWriter_spec tree 1%nat _ 7%nat wf_tree tree_svc)
    as [(h' & Hrun & Hin & _) Hnil].
  exists h'. split; [done|]. split; [|done].
  by rewrite (Hin 2%nat _ descendant_svc_worker tree_worker).
Defined.

Lemma SetEncoder_spec_witness :
  wf tree ∧
  ∃ h', logger_SetEncoder (Some (of_columnEncoder NewColumnEncoder)) 1%nat tree = Ok h' ∧
        (encoder <$> h' !! 2%nat) = Some (Some (of_columnEncoder NewColumnEncoder)) ∧
        logger_SetEncoder None 1%nat tree = Ok tree.
Proof.
  split; [apply wf_tree|].
  destruct (SetEncoder_spec tree 1%nat _ NewColumnEncoder wf_tree tree_svc)
    as [(h' & Hrun & Hin & _) Hnil].
  exists h'. split; [done|]. split; [|done].
  by rewrite (Hin 2%nat _ descendant_svc_worker tree_worker).
Defined.

Lemma SetLevel_then_Log_witness :
  reachable tree ∧
  ∃ h', logger_SetLevel 3 1%nat tree = Ok h' ∧
        logger_Log stack 17 2 "hello" 2%nat h' = Ok [] ∧
        ∃ w bytes, logger_Log stack 17 4 "hello" 2%nat h'
                     = Ok [(w, bytes)].
Proof.
  split; [apply reachable_tree|].
  destruct (SetLevel_then_Log tree 1%nat 2%nat _ 3 reachable_tree tree_svc
              descendant_svc_worker) as (h' & Hrun & Hlog); [simpl; lia|].
  exists h'. split; [done|]. split.
  - destruct (Hlog stack 17 2 "hello") as [Hquiet _]. apply Hquiet. lia.
  - destruct (Hlog stack 17 4 "hello") as (_ & _ & Hloud).
    apply Hloud; [lia|]. intros y e Hy He.
    rewrite tree_worker in Hy. injection Hy as <-.
    by injection He as <-.
Defined.

Lemma SetWriter_top_redirects_witness :
  reachable tree ∧
  ∃ h', logger_SetWriter (Some 7%nat) top tree = Ok h' ∧
        ∀ bytes, logger_Log stack 17 2 "hello" 2%nat h'
                   ≠ Ok [(os_Stderr, bytes)].
Proof.
  split; [apply reachable_tree|].
  destruct (SetWriter_top_redirects tree 7%nat reachable_tree)
    as (h' & Hrun & Hall).
  exists h'. split; [done|]. intros bytes Hlog.
  pose proof (Hall stack 17 0 2 "hello" 2%nat _ Hlog (os_Stderr, bytes)) as Hw.
  simpl in Hw. discriminate Hw. by left.
Defined.

Lemma SetLevel_last_wins_witness :
  wf tree ∧
  ∃ h1 h2, logger_SetLevel 4 2%nat tree = Ok h1 ∧
           logger_SetLevel 3 1%nat h1 = Ok h2 ∧
           logger_SetLevel 3 1%nat tree = Ok h2.
Proof.
  split; [apply wf_tree|].
  apply (SetLevel_last_wins tree 1%nat 2%nat _ 4 3 wf_tree tree_svc
           descendant_svc_worker); simpl; lia.
Defined.

Lemma reachable_log_witness :
  reachable tree ∧
  logger_logf stack 17 0 "hello" 2%nat tree = Ok [] ∧
  ∃ bytes, logger_logf stack 17 2 "hello" 2%nat tree
             = Ok [(os_Stderr, bytes)].
Proof.
  split; [apply reachable_tree|].
  destruct (reachable_log tree 2%nat _ reachable_tree tree_worker)
    as (w & e & Hw & He & Hlog).
  injection Hw as <-. injection He as <-. split.
  - destruct (Hlog stack 17 0 "hello") as [Hquiet _].
    apply Hquiet. simpl. lia.
  - destruct (Hlog stack 17 2 "hello") as (_ & _ & Hloud).
    destruct Hloud as (b1 & b2 & _ & H2); [simpl; lia|done|].
    by exists b2.
Defined.

Lemma Encode_join_witness :
  wf tree ∧
  Encode key_encoder top keyed record = Ok (two_lines +:+ newline) ∧
  Encode nil_encoder top broken record = Panic nil_dereference ∧
  ∃ bytes, Encode DefaultEncoder 2%nat tree record = Ok bytes.
Proof.
  split; [apply wf_tree|].
  split_and!.
  - destruct (Encode_join key_encoder top keyed record) as (Hret & _).
    apply (Hret [two_lines]). by repeat constructor.
  - destruct (Encode_join nil_encoder top broken record) as (_ & Hpanic & _).
    apply (Hpanic [] [] (Column "x" nilText) [] nil_dereference);
      [done|constructor|done].
  - destruct (Encode_join DefaultEncoder 2%nat tree record)
      as (_ & _ & Htotal).
    destruct (Htotal wf_tree (mk_is_Some _ _ tree_worker)) as [_ Hown].
    by apply Hown.
Defined.

Lemma Text_width_witness :
  text_width (NameText 10) = Some 10 ∧
  ∃ t, Text (NameText 10) 2%nat tree record = Ok t ∧
       Z.of_nat (GoString.RuneCount t) = 10.
Proof.
  split; [reflexivity|].
  exists (returned (Text (NameText 10) 2%nat tree record) EmptyString).
  split; [by vm_compute|].
  apply (Text_width (NameText 10) 10 2%nat tree record); [done|lia| |lia].
  by vm_compute.
Defined.

Lemma DataText_unbound_witness :
  wf tree ∧
  Text (DataText EmptyString "k" 4) 2%nat tree record = Ok "    ".
Proof.
  split; [apply wf_tree|].
  apply (DataText_unbound EmptyString "k" 4 2%nat tree record wf_tree
           (mk_is_Some _ _ tree_worker)).
  intros i y _. apply tree_unbound.
Defined.

Lemma DefaultEncoder_line_witness :
  reachable tree ∧
  Encode DefaultEncoder 2%nat tree record
    = Ok ("17|info |svc/worker|e.com/svc.Run()|/src/svc/run.go(   12)        |hello"
          +:+ newline).
Proof.
  split; [apply reachable_tree|].
  destruct (DefaultEncoder_line 2%nat tree record _ reachable_tree
              tree_worker) as (nm & Hnm & Hrun).
  rewrite Hrun. vm_compute in Hnm. injection Hnm as <-. by vm_compute.
Defined.

Lemma DefaultEncoder_one_line_witness :
  reachable tree ∧ newlines (r_Message record) = 0%nat ∧
  ∃ bytes, Encode DefaultEncoder 2%nat tree record = Ok bytes ∧
           one_line bytes.
Proof.
  split; [apply reachable_tree|]. split; [reflexivity|].
  by apply (DefaultEncoder_one_line 2%nat tree record _ reachable_tree
              tree_worker).
Defined.

Lemma GetCaller_frame_witness :
  0 <= 4 <= 9 ∧
  ∃ c, GetCaller stack 4 = Ok c ∧ File c = "/src/svc/run.go" ∧ Line c = 12.
Proof.
  split; [lia|].
  exact (GetCaller_frame stack 4 _ ltac:(lia) eq_refl).
Defined.

Lemma GetCaller_panics_witness :
  (∃ msg, GetCaller stack (-1) = Panic msg) ∧
  ¬ (∃ msg, GetCaller stack 10 = Panic msg).
Proof.
  split.
  - apply (GetCaller_panics stack (-1)). left. lia.
  - intros Hp. apply (GetCaller_panics stack 10) in Hp as [?|[_ Hlen]];
      [lia|]. simpl in Hlen. lia.
Defined.

Lemma GetCaller_boundary_witness :
  6 = Z.of_nat (length stack) ∧
  (∃ c, GetCaller stack 6 = Ok c ∧ File c = EmptyString ∧ Line c = 0) ∧
  GetCaller (stack ++ stack ++ stack) 11 = Ok unknownCaller.
Proof.
  split; [reflexivity|]. split.
  - apply (GetCaller_boundary stack 6); [reflexivity|lia].
  - apply (GetCaller_boundary (stack ++ stack ++ stack) 11). lia.
Defined.

Lemma ForThisPackage_caller_witness :
  reachable init_top ∧
  valid_path "github.com/go-msvc/log" ∧
  ∃ l h', init init_stack = Ok (l, h') ∧ l ≠ top ∧
          logger_Name l h' = Ok "/github.com/go-msvc/log".
Proof.
  assert (Hvalid : valid_path "github.com/go-msvc/log").
  { unfold valid_path.
    replace (segments "github.com/go-msvc/log")
      with ["github.com"; "go-msvc"; "log"] by (by vm_compute).
    split; [done|]. by repeat constructor. }
  split; [constructor|]. split; [exact Hvalid|].
  assert (Hsplit : SplitN2 (path_Base "github.com/go-msvc/log.init.0")
                   = ["log"; "init.0"]) by (by vm_compute).
  destruct (ForThisPackage_caller init_stack init_top _ "log" "init.0"
              reach_init eq_refl Hsplit) as (_ & Hok & _).
  exact (Hok Hvalid).
Defined.

Lemma reachable_wf_witness :
  reachable tree_db ∧ wf tree_db ∧ is_Some (tree_db !! top).
Proof.
  assert (Hr : reachable tree_db)
    by exact (reach_Logger "svc/db" tree 3%nat tree_db reachable_tree
                tree_db_built).
  split; [done|]. exact (reachable_wf tree_db Hr).
Defined.

Lemma Legacy_Named_witness :
  Legacy.Name 0%nat legacy_root = Ok EmptyString ∧
  Legacy.Name 1%nat (Legacy.Named "svc" 0%nat legacy_root).2 = Ok "." ∧
  Legacy.With "k" (Str "v") 1%nat (Legacy.Named "svc" 0%nat legacy_root).2
    = Panic "assignment to entry in nil map".
Proof.
  split; [reflexivity|].
  pose proof (Legacy_Named "svc" 0%nat legacy_root EmptyString eq_refl) as H.
  simpl in H. destruct H as (Hname & _ & Hwith).
  split; [exact Hname|apply Hwith].
Defined.

End ExtraInstances.
